(** * A linked-list queue of C strings (queue.c)

    Shallow embedding of the complete implementation in queue.c (the one
    that defines [q_reverse], [list_cmp], [merge], [merge_sort] and
    [q_sort]): a memory of queue headers, list elements and character
    buffers, a small state-and-fault monad, and the operations [q_new],
    [q_insert_head], [q_insert_tail], [q_remove_head], [q_size],
    [q_reverse] and [q_sort] written statement by statement after the C
    text.  Loops and recursive calls take fuel; the properties show that a
    number of steps linear in the length of the queue is enough. *)

From Stdlib Require Import ZArith String Ascii Lia Permutation Sorted.
From stdpp Require Import base option list gmap.
From stdpp Require sorting.

Local Open Scope Z_scope.

(** ** Machine integers (LP64: 32-bit [int], 64-bit [size_t]) *)

Module CInt.

Definition INT_MAX : Z := 2147483647.
Definition SIZE_MAX : Z := 18446744073709551615.

(** Conversion of a mathematical value to [int] (two's complement wrap). *)
Definition int_of_Z (z : Z) : Z := (z + 2147483648) mod 4294967296 - 2147483648.

(** Conversion to [size_t] (reduction modulo 2^64). *)
Definition size_t_of_Z (z : Z) : Z := z mod 18446744073709551616.

End CInt.
Export CInt.

(** ** Character buffers and the string functions of <string.h> *)

(** A buffer is the sequence of all its bytes; a C string stored in it ends
    at the first NUL byte. *)
Abbreviation bytes := (list ascii) (only parsing).

Definition NUL : ascii := Ascii.zero.

Definition is_nul (c : ascii) : bool := Ascii.eqb c NUL.

Definition uchar (c : ascii) : Z := Z.of_N (N_of_ascii c).

(** The bytes of a literal, and the buffer holding it with its terminator. *)
Definition txt (s : string) : bytes := list_ascii_of_string s.
Definition cbuf (s : string) : bytes := txt s ++ [NUL].

(** [strlen]: the number of bytes before the first NUL; running off the end
    of the buffer has no defined result. *)
Fixpoint strlen (b : bytes) : option nat :=
  match b with
  | [] => None
  | c :: b' => if is_nul c then Some O else S <$> strlen b'
  end.

(** The text of the C string held in a buffer (the bytes before the NUL). *)
Fixpoint c_str (b : bytes) : option bytes :=
  match b with
  | [] => None
  | c :: b' => if is_nul c then Some [] else (c ::.) <$> c_str b'
  end.

(** [strcmp]: bytes are compared as unsigned char; the result is the
    difference of the first pair of bytes that differ, 0 if none does. *)
Fixpoint strcmp (b1 b2 : bytes) : option Z :=
  match b1, b2 with
  | c1 :: r1, c2 :: r2 =>
      if Ascii.eqb c1 c2
      then (if is_nul c1 then Some 0 else strcmp r1 r2)
      else Some (uchar c1 - uchar c2)
  | _, _ => None
  end.

(** What [snprintf(dst, sz, "%s", src)] leaves in [dst]: nothing is written
    for [sz = 0]; otherwise [min (strlen src) (sz - 1)] bytes of [src] and a
    NUL.  Writing past the end of [dst] has no defined result. *)
Definition snprintf_bytes (dst : bytes) (sz : Z) (src : bytes) : option bytes :=
  len ← strlen src;
  if sz =? 0 then Some dst
  else
    let k := Z.to_nat (Z.min (Z.of_nat len) (sz - 1)) in
    if decide (S k <= length dst)%nat
    then Some (take k src ++ NUL :: drop (S k) dst)
    else None.

(** ** Memory *)

Definition loc := positive.

(** A pointer is NULL ([None]) or an address. *)
Definition ptr := option loc.

(** Modelled from the spec: queue.h is not among the sources; the element
    holds one owned text payload and a reference to the next element. *)
Record list_ele_t := Ele { value : ptr; next : ptr }.

(** Modelled from the spec: queue.h is not among the sources; the queue
    holds references to the first and last element and a count of
    elements.  The count is the [int] that [q_size] returns: the
    operations store it through [int_of_Z]. *)
Record queue_t := Queue { head : ptr; tail : ptr; size : Z }.

(** The memory: the three kinds of allocated objects, and the plan of the
    allocator (the harness can make chosen calls of malloc fail): the next
    call fails iff the first entry is [true]; an empty plan never fails. *)
Record mem := Mem {
  queues : gmap loc queue_t;
  nodes : gmap loc list_ele_t;
  chars : gmap loc bytes;
  plan : list bool
}.

Definition set_queues (m : mem) (x : gmap loc queue_t) : mem :=
  Mem x (nodes m) (chars m) (plan m).
Definition set_nodes (m : mem) (x : gmap loc list_ele_t) : mem :=
  Mem (queues m) x (chars m) (plan m).
Definition set_chars (m : mem) (x : gmap loc bytes) : mem :=
  Mem (queues m) (nodes m) x (plan m).
Definition set_plan (m : mem) (x : list bool) : mem :=
  Mem (queues m) (nodes m) (chars m) x.

(** ** The monad of C statements: state passing, [None] when the statement
    has no defined result (an invalid dereference, a write past a buffer,
    or a loop that exhausted its fuel). *)

Definition M (A : Type) : Type := mem -> option (A * mem).

Definition ret {A} (a : A) : M A := fun m => Some (a, m).

Definition bind {A B} (c : M A) (k : A -> M B) : M B :=
  fun m => match c m with Some (a, m') => k a m' | None => None end.

Definition stuck {A} : M A := fun _ => None.

Declare Scope c_scope.
Delimit Scope c_scope with C.
Notation "x <- c ;; k" := (bind c (fun x => k))
  (at level 100, c at next level, right associativity) : c_scope.
Notation "c ;; k" := (bind c (fun _ => k))
  (at level 100, right associativity) : c_scope.
Local Open Scope c_scope.

(** *** Allocation *)

Definition next_fails : M bool :=
  fun m => match plan m with
           | [] => Some (false, m)
           | b :: p => Some (b, set_plan m p)
           end.

Definition malloc_queue : M ptr :=
  f <- next_fails ;;
  if f : bool then ret None
  else fun m =>
    let a := fresh (dom (queues m)) in
    Some (Some a, set_queues m (<[a := Queue None None 0]> (queues m))).

Definition malloc_ele : M ptr :=
  f <- next_fails ;;
  if f : bool then ret None
  else fun m =>
    let a := fresh (dom (nodes m)) in
    Some (Some a, set_nodes m (<[a := Ele None None]> (nodes m))).

Definition malloc_chars (sz : Z) : M ptr :=
  f <- next_fails ;;
  if f : bool then ret None
  else fun m =>
    let a := fresh (dom (chars m)) in
    Some (Some a, set_chars m (<[a := replicate (Z.to_nat sz) NUL]> (chars m))).

(** [free(NULL)] does nothing; freeing what is not allocated is undefined. *)
Definition free_ele (p : ptr) : M unit :=
  match p with
  | None => ret tt
  | Some a => fun m =>
      match nodes m !! a with
      | Some _ => Some (tt, set_nodes m (delete a (nodes m)))
      | None => None
      end
  end.

Definition free_chars (p : ptr) : M unit :=
  match p with
  | None => ret tt
  | Some a => fun m =>
      match chars m !! a with
      | Some _ => Some (tt, set_chars m (delete a (chars m)))
      | None => None
      end
  end.

Definition free_queue (p : ptr) : M unit :=
  match p with
  | None => ret tt
  | Some a => fun m =>
      match queues m !! a with
      | Some _ => Some (tt, set_queues m (delete a (queues m)))
      | None => None
      end
  end.

(** *** Loads and stores *)

Definition load_queue (q : loc) : M queue_t :=
  fun m => match queues m !! q with Some x => Some (x, m) | None => None end.

Definition store_queue (q : loc) (x : queue_t) : M unit :=
  fun m => match queues m !! q with
           | Some _ => Some (tt, set_queues m (<[q := x]> (queues m)))
           | None => None
           end.

Definition load_ele (p : ptr) : M list_ele_t :=
  fun m => match p with
           | Some a => match nodes m !! a with Some x => Some (x, m) | None => None end
           | None => None
           end.

Definition store_ele (p : ptr) (x : list_ele_t) : M unit :=
  fun m => match p with
           | Some a =>
               match nodes m !! a with
               | Some _ => Some (tt, set_nodes m (<[a := x]> (nodes m)))
               | None => None
               end
           | None => None
           end.

Definition load_chars (p : ptr) : M bytes :=
  fun m => match p with
           | Some a => match chars m !! a with Some x => Some (x, m) | None => None end
           | None => None
           end.

Definition store_chars (p : ptr) (x : bytes) : M unit :=
  fun m => match p with
           | Some a =>
               match chars m !! a with
               | Some _ => Some (tt, set_chars m (<[a := x]> (chars m)))
               | None => None
               end
           | None => None
           end.

(** Field accesses [q->head], [q->tail], [q->size], [e->value], [e->next]. *)
Definition get_head (q : loc) : M ptr := x <- load_queue q ;; ret (head x).
Definition get_tail (q : loc) : M ptr := x <- load_queue q ;; ret (tail x).
Definition get_size (q : loc) : M Z := x <- load_queue q ;; ret (size x).
Definition set_head (q : loc) (p : ptr) : M unit :=
  x <- load_queue q ;; store_queue q (Queue p (tail x) (size x)).
Definition set_tail (q : loc) (p : ptr) : M unit :=
  x <- load_queue q ;; store_queue q (Queue (head x) p (size x)).
Definition set_size (q : loc) (n : Z) : M unit :=
  x <- load_queue q ;; store_queue q (Queue (head x) (tail x) n).

Definition get_value (e : ptr) : M ptr := x <- load_ele e ;; ret (value x).
Definition get_next (e : ptr) : M ptr := x <- load_ele e ;; ret (next x).
Definition set_value (e : ptr) (v : ptr) : M unit :=
  x <- load_ele e ;; store_ele e (Ele v (next x)).
Definition set_next (e : ptr) (p : ptr) : M unit :=
  x <- load_ele e ;; store_ele e (Ele (value x) p).

(** *** Library calls on memory *)

Definition c_strlen (s : ptr) : M Z :=
  b <- load_chars s ;;
  match strlen b with Some n => ret (Z.of_nat n) | None => stuck end.

Definition c_strcmp (s1 s2 : ptr) : M Z :=
  b1 <- load_chars s1 ;;
  b2 <- load_chars s2 ;;
  match strcmp b1 b2 with Some z => ret z | None => stuck end.

(** The macro [strlcpy(dst, src, sz)], that is [snprintf(dst, sz, "%s", src)].
    The source is read first; with [sz = 0] the destination is not touched
    (it may even be NULL); copying between overlapping objects is
    undefined. *)
Definition strlcpy (dst src : ptr) (sz : Z) : M unit :=
  b <- load_chars src ;;
  match strlen b with
  | None => stuck
  | Some _ =>
      if sz =? 0 then ret tt
      else if decide (dst = src) then stuck
      else
        d <- load_chars dst ;;
        match snprintf_bytes d sz b with
        | Some d' => store_chars dst d'
        | None => stuck
        end
  end.

(** ** The queue operations *)

(** [q_new]: create an empty queue; NULL if the allocation fails. *)
Definition q_new : M ptr :=
  q <- malloc_queue ;;
  match q with
  | None => ret None
  | Some qa =>
      set_tail qa None ;;
      set_head qa None ;;
      set_size qa 0 ;;
      ret q
  end.

(** The loop of [q_free]: [q->head] is the cursor. *)
Fixpoint free_loop (fuel : nat) (qa : loc) : M unit :=
  match fuel with
  | O => stuck
  | S f =>
      h <- get_head qa ;;
      match h with
      | None => ret tt
      | Some _ =>
          let tmp := h in
          h1 <- get_head qa ;;
          nx <- get_next h1 ;;
          set_head qa nx ;;
          v <- get_value tmp ;;
          free_chars v ;;
          free_ele tmp ;;
          free_loop f qa
      end
  end.

(** [q_free]: free all storage used by the queue. *)
Definition q_free (fuel : nat) (q : ptr) : M unit :=
  match q with
  | None => ret tt
  | Some qa =>
      free_loop fuel qa ;;
      free_queue q
  end.

(** [q_insert_head]: both allocations are requested before either result
    is tested.  [strLen] is an [int]; so is the count, and [q->size++]
    wraps around behind [INT_MAX]. *)
Definition q_insert_head (q : ptr) (s : ptr) : M bool :=
  match q with
  | None => ret false
  | Some qa =>
      len <- c_strlen s ;;
      let strLen := int_of_Z (size_t_of_Z (len + 1)) in
      newHead <- malloc_ele ;;
      val <- malloc_chars (size_t_of_Z (1 * size_t_of_Z strLen)) ;;
      match newHead, val with
      | Some _, Some _ =>
          strlcpy val s (size_t_of_Z strLen) ;;
          set_value newHead val ;;
          h <- get_head qa ;;
          set_next newHead h ;;
          set_head qa newHead ;;
          sz <- get_size qa ;;
          (if sz =? 0 then set_tail qa newHead else ret tt) ;;
          sz' <- get_size qa ;;
          set_size qa (int_of_Z (sz' + 1)) ;;
          ret true
      | _, _ =>
          free_ele newHead ;;
          free_chars val ;;
          ret false
      end
  end.

(** [q_insert_tail]. *)
Definition q_insert_tail (q : ptr) (s : ptr) : M bool :=
  match q with
  | None => ret false
  | Some qa =>
      len <- c_strlen s ;;
      let strLen := int_of_Z (size_t_of_Z (len + 1)) in
      newTail <- malloc_ele ;;
      val <- malloc_chars (size_t_of_Z (1 * size_t_of_Z strLen)) ;;
      match newTail, val with
      | Some _, Some _ =>
          strlcpy val s (size_t_of_Z strLen) ;;
          set_value newTail val ;;
          set_next newTail None ;;
          sz <- get_size qa ;;
          (if sz =? 0 then set_head qa newTail
           else t <- get_tail qa ;; set_next t newTail) ;;
          set_tail qa newTail ;;
          sz' <- get_size qa ;;
          set_size qa (int_of_Z (sz' + 1)) ;;
          ret true
      | _, _ =>
          free_ele newTail ;;
          free_chars val ;;
          ret false
      end
  end.

(** [q_remove_head]: the test [!q || !sp || !q->head] is evaluated left to
    right; in [bufsize > strLen] and in the conditional the [int] is
    converted to [size_t]; [q->size--] is a decrement of an [int]. *)
Definition q_remove_head (q : ptr) (sp : ptr) (bufsize : Z) : M bool :=
  match q, sp with
  | None, _ => ret false
  | Some _, None => ret false
  | Some qa, Some _ =>
      h <- get_head qa ;;
      match h with
      | None => ret false
      | Some _ =>
          let rmElem := h in
          v <- get_value rmElem ;;
          len <- c_strlen v ;;
          let strLen := int_of_Z (size_t_of_Z (len + 1)) in
          let realBufSize :=
            if bufsize >? size_t_of_Z strLen then size_t_of_Z strLen else bufsize in
          v1 <- get_value rmElem ;;
          strlcpy sp v1 realBufSize ;;
          h1 <- get_head qa ;;
          nx <- get_next h1 ;;
          set_head qa nx ;;
          sz <- get_size qa ;;
          set_size qa (int_of_Z (sz - 1)) ;;
          v2 <- get_value rmElem ;;
          free_chars v2 ;;
          free_ele rmElem ;;
          ret true
      end
  end.

(** [q_size]: the count as it is stored, an [int]. *)
Definition q_size (q : ptr) : M Z :=
  match q with
  | None => ret 0
  | Some qa => get_size qa
  end.

(** The loop of [q_reverse]: [q->head] is the cursor. *)
Fixpoint reverse_loop (fuel : nat) (qa : loc) (prev : ptr) : M ptr :=
  match fuel with
  | O => stuck
  | S f =>
      h <- get_head qa ;;
      match h with
      | None => ret prev
      | Some _ =>
          nx <- get_next h ;;
          set_next h prev ;;
          set_head qa nx ;;
          reverse_loop f qa h
      end
  end.

(** [q_reverse]. *)
Definition q_reverse (fuel : nat) (q : ptr) : M unit :=
  match q with
  | None => ret tt
  | Some qa =>
      h <- get_head qa ;;
      match h with
      | None => ret tt
      | Some _ =>
          let tmp := h in
          reverse_loop fuel qa None ;;
          t <- get_tail qa ;;
          set_head qa t ;;
          set_tail qa tmp
      end
  end.

(** [list_cmp]: true iff the first payload is strictly smaller. *)
Definition list_cmp (l1 l2 : ptr) : M bool :=
  v1 <- get_value l1 ;;
  v2 <- get_value l2 ;;
  c <- c_strcmp v1 v2 ;;
  ret (if c >=? 0 then false else true).

(** [merge]: the recursive call is evaluated before the store to [next]. *)
Fixpoint merge (fuel : nat) (l1 l2 : ptr) : M ptr :=
  match fuel with
  | O => stuck
  | S f =>
      match l2, l1 with
      | None, _ => ret l1
      | Some _, None => ret l2
      | Some _, Some _ =>
          c <- list_cmp l1 l2 ;;
          if c : bool then
            n <- get_next l1 ;;
            r <- merge f n l2 ;;
            set_next l1 r ;;
            ret l1
          else
            n <- get_next l2 ;;
            r <- merge f l1 n ;;
            set_next l2 r ;;
            ret l2
      end
  end.

(** The splitting loop of [merge_sort]; it returns the final [slow]. *)
Fixpoint split_loop (fuel : nat) (slow fast : ptr) : M ptr :=
  match fuel with
  | O => stuck
  | S f =>
      match fast with
      | None => ret slow
      | Some _ =>
          fn <- get_next fast ;;
          match fn with
          | None => ret slow
          | Some _ =>
              slow' <- get_next slow ;;
              f1 <- get_next fast ;;
              fast' <- get_next f1 ;;
              split_loop f slow' fast'
          end
      end
  end.

(** [merge_sort]. *)
Fixpoint merge_sort (fuel : nat) (hd : ptr) : M ptr :=
  match fuel with
  | O => stuck
  | S f =>
      match hd with
      | None => ret hd
      | Some _ =>
          hn <- get_next hd ;;
          match hn with
          | None => ret hd
          | Some _ =>
              fast0 <- get_next hd ;;
              slow <- split_loop f hd fast0 ;;
              fast <- get_next slow ;;
              set_next slow None ;;
              l1 <- merge_sort f hd ;;
              l2 <- merge_sort f fast ;;
              merge f l1 l2
          end
      end
  end.

(** The loop of [q_sort] that finds the last element. *)
Fixpoint last_loop (fuel : nat) (tmp : ptr) : M ptr :=
  match fuel with
  | O => stuck
  | S f =>
      n <- get_next tmp ;;
      match n with
      | None => ret tmp
      | Some _ => last_loop f n
      end
  end.

(** [q_sort]. *)
Definition q_sort (fuel : nat) (q : ptr) : M unit :=
  match q with
  | None => ret tt
  | Some qa =>
      h <- get_head qa ;;
      match h with
      | None => ret tt
      | Some _ =>
          hn <- get_next h ;;
          match hn with
          | None => ret tt
          | Some _ =>
              h0 <- get_head qa ;;
              r <- merge_sort fuel h0 ;;
              set_head qa r ;;
              tmp <- get_head qa ;;
              t <- last_loop fuel tmp ;;
              set_tail qa t
          end
      end
  end.

(** ** Reading a queue out of the memory *)

(** [lseg ns p ls q]: following [next] from [p] visits exactly the elements
    at the addresses [ls], in that order, and then arrives at [q]. *)
Fixpoint lseg (ns : gmap loc list_ele_t) (p : ptr) (ls : list loc) (q : ptr) : Prop :=
  match ls with
  | [] => p = q
  | a :: ls' =>
      p = Some a ∧
      match ns !! a with
      | Some n => lseg ns (next n) ls' q
      | None => False
      end
  end.

(** A NULL-terminated list. *)
Definition chain (ns : gmap loc list_ele_t) (p : ptr) (ls : list loc) : Prop :=
  lseg ns p ls None.

(** The payload of the element at [a]: its pointer, its buffer, its text. *)
Definition value_of (m : mem) (a : loc) : ptr :=
  n ← nodes m !! a; value n.

Definition buffer_of (m : mem) (a : loc) : option bytes :=
  v ← value_of m a; chars m !! v.

Definition text_of (m : mem) (a : loc) : option bytes :=
  b ← buffer_of m a; c_str b.

(** The sequence of payloads of the elements [ls]. *)
Definition texts (m : mem) (ls : list loc) : list (option bytes) :=
  text_of m <$> ls.

(** Every element owns a buffer of its own that holds a C string. *)
Definition owned (m : mem) (ls : list loc) : Prop :=
  NoDup (value_of m <$> ls) ∧ Forall (λ a, is_Some (text_of m a)) ls.

(** What every operation relies on and re-establishes: the header at [qa]
    describes the list of the elements [ls], and its count, an [int], is
    their number.  Nothing is said about the tail reference of an empty
    queue. *)
Definition queue_rep (m : mem) (qa : loc) (ls : list loc) : Prop :=
  match queues m !! qa with
  | Some q =>
      chain (nodes m) (head q) ls ∧
      size q = Z.of_nat (length ls) ∧
      (ls ≠ [] → tail q = last ls) ∧
      owned m ls ∧
      size q <= INT_MAX
  | None => False
  end.

(** The structural invariant in the words of the data model: the count is
    0 iff both references are absent, and a positive count is the number
    of steps from head to tail, whose successor is absent. *)
Definition structural_invariant (m : mem) (q : queue_t) : Prop :=
  (size q = 0 ↔ head q = None ∧ tail q = None) ∧
  (0 < size q →
   ∃ ls, chain (nodes m) (head q) ls ∧
         Z.of_nat (length ls) = size q ∧ tail q = last ls).

(** ** Order of the payloads *)

(** Byte-wise lexicographic comparison of two texts: strictly smaller. *)
Fixpoint text_lt (s t : bytes) : bool :=
  match s, t with
  | _, [] => false
  | [], _ :: _ => true
  | c :: s', d :: t' =>
      if Ascii.eqb c d then text_lt s' t' else uchar c <? uchar d
  end.

(** The order of two elements, by their payloads. *)
Definition ele_lt (m : mem) (a b : loc) : bool :=
  text_lt (default [] (text_of m a)) (default [] (text_of m b)).

Definition ele_le (m : mem) (a b : loc) : Prop := ele_lt m b a = false.

(** The elements whose payload is the text [x]. *)
Definition with_text (m : mem) (x : bytes) (ls : list loc) : list loc :=
  filter (λ a, text_of m a = Some x) ls.

(** The list that [merge] builds from two lists: the head of the first is
    taken when it is strictly smaller, the head of the second otherwise. *)
Section MergeList.
Context {A : Type} (lt : A → A → bool).

Fixpoint merge_list (l1 l2 : list A) : list A :=
  let fix inner (l2 : list A) : list A :=
    match l1, l2 with
    | _, [] => l1
    | [], _ => l2
    | a1 :: l1', a2 :: l2' =>
        if lt a1 a2 then a1 :: merge_list l1' l2 else a2 :: inner l2'
    end
  in inner l2.

End MergeList.

(** [relinked L ns ns']: the elements are the same and hold the same
    payload pointers; only [next] fields of elements in [L] may differ. *)
Definition relinked (L : list loc) (ns ns' : gmap loc list_ele_t) : Prop :=
  (∀ a, value <$> ns' !! a = value <$> ns !! a) ∧
  (∀ a, a ∉ L → ns' !! a = ns !! a).

(** The elements of the queue behind a pointer; an absent queue has none. *)
Definition queue_is (m : mem) (q : ptr) (ls : list loc) : Prop :=
  match q with
  | None => ls = []
  | Some qa => queue_rep m qa ls
  end.

(** The text of the C string behind a pointer of the caller. *)
Definition text_at (m : mem) (s : ptr) : option bytes :=
  a ← s; b ← chars m !! a; c_str b.

(** Whether the [i]-th coming call of malloc fails. *)
Definition fails_at (i : nat) (pl : list bool) : bool :=
  default false (pl !! i).

(** The payload of [a] is smaller than or equal to the payload of [b]
    under [strcmp]. *)
Definition payload_le (m : mem) (a b : loc) : Prop :=
  ∃ ba bb z, buffer_of m a = Some ba ∧ buffer_of m b = Some bb ∧
             strcmp ba bb = Some z ∧ z <= 0.

(** What [q_remove_head] expects of the buffer of its caller, when one is
    given: it is allocated, it has at least [bufsize] bytes, and it is not
    one of the payloads of the queue. *)
Definition buffer_ready (m : mem) (sp : ptr) (bufsize : Z) (ls : list loc) : Prop :=
  match sp with
  | None => True
  | Some spa =>
      match chars m !! spa with
      | Some d =>
          0 <= bufsize <= Z.of_nat (length d) ∧
          Some spa ∉ value_of m <$> ls
      | None => False
      end
  end.

(** [unchanged_objects m m']: nothing was allocated or released between
    [m] and [m'], and nothing but links moved: the buffers and the plan of
    the allocator are the same, the same elements exist and hold the same
    payload pointers, the same queue headers exist and hold the same
    counts. *)
Definition unchanged_objects (m m' : mem) : Prop :=
  chars m' = chars m ∧ plan m' = plan m ∧
  (∀ a, value <$> nodes m' !! a = value <$> nodes m !! a) ∧
  (∀ q, size <$> queues m' !! q = size <$> queues m !! q).

(** A statement that, whenever it has a result, leaves the objects
    unchanged. *)
Definition relinks_only {A} (c : M A) : Prop :=
  ∀ m r m', c m = Some (r, m') → unchanged_objects m m'.

(** The payloads of the elements [ls], with the empty text where an
    element has none. *)
Definition payloads (m : mem) (ls : list loc) : list bytes :=
  (λ a, default [] (text_of m a)) <$> ls.

(** Byte-wise smaller or equal, on texts. *)
Definition text_le (s t : bytes) : Prop := text_lt t s = false.

(** What an operation on the queue at [qa] may touch: apart from the header
    at [qa], the elements [ls] with their payload buffers and the buffer
    behind [sp], every object of [m] is found unchanged in [m']. *)
Definition footprint (m m' : mem) (qa : loc) (ls : list loc) (sp : ptr) : Prop :=
  (∀ q, q ≠ qa → queues m' !! q = queues m !! q) ∧
  (∀ a n, a ∉ ls → nodes m !! a = Some n → nodes m' !! a = Some n) ∧
  (∀ v b, Some v ∉ value_of m <$> ls → Some v ≠ sp →
          chars m !! v = Some b → chars m' !! v = Some b).

(** The value of [int strLen = strlen(s) + 1] for a text of [n] bytes. *)
Definition strLen_of (n : nat) : Z := int_of_Z (size_t_of_Z (Z.of_nat n + 1)).

(** A text of 2^32 bytes: with its terminator it is one byte longer than
    an [int] can count modulo 2^32. *)
Definition long_text : bytes := replicate (Z.to_nat 4294967296) "a"%char.

(** The representation predicates are decidable, so that they can be
    evaluated on a concrete memory. *)
#[global] Instance lseg_dec ns ls : ∀ p q, Decision (lseg ns p ls q).
Proof.
  induction ls as [|a ls IH]; intros p q; simpl.
  - apply _.
  - destruct (ns !! a); apply _.
Defined.

#[global] Instance chain_dec ns p ls : Decision (chain ns p ls).
Proof. unfold chain. apply _. Defined.

#[global] Instance owned_dec m ls : Decision (owned m ls).
Proof. unfold owned. apply _. Defined.

#[global] Instance queue_rep_dec m qa ls : Decision (queue_rep m qa ls).
Proof. unfold queue_rep. destruct (queues m !! qa); apply _. Defined.

#[global] Instance queue_is_dec m q ls : Decision (queue_is m q ls).
Proof. destruct q; simpl; apply _. Defined.

#[global] Instance buffer_ready_dec m sp bufsize ls :
  Decision (buffer_ready m sp bufsize ls).
Proof.
  unfold buffer_ready. destruct sp as [spa|]; [|apply _].
  destruct (chars m !! spa); apply _.
Defined.

(** * Properties *)

(** ** Machine integers *)

Lemma int_of_Z_id z : - 2147483648 <= z <= INT_MAX -> int_of_Z z = z.
Proof. unfold int_of_Z, INT_MAX. intros H. rewrite Z.mod_small; lia. Qed.

(** Arithmetic on [int] is arithmetic modulo 2^32. *)
Lemma int_of_Z_add_l a b : int_of_Z (int_of_Z a + b) = int_of_Z (a + b).
Proof.
  unfold int_of_Z. f_equal.
  replace ((a + 2147483648) mod 4294967296 - 2147483648 + b + 2147483648)
    with ((a + 2147483648) mod 4294967296 + b) by lia.
  rewrite Zplus_mod_idemp_l. f_equal. lia.
Qed.

(** An increment followed by a decrement gives back the count, also
    across the wrap. *)
Lemma int_of_Z_succ_pred z :
  - 2147483648 <= z <= INT_MAX -> int_of_Z (int_of_Z (z + 1) - 1) = z.
Proof.
  intros H. unfold Z.sub. rewrite int_of_Z_add_l.
  replace (z + 1 + - (1)) with z by lia. now apply int_of_Z_id.
Qed.

Lemma int_of_Z_range z : - 2147483648 <= int_of_Z z <= INT_MAX.
Proof.
  unfold int_of_Z, INT_MAX.
  pose proof (Z.mod_pos_bound (z + 2147483648) 4294967296 ltac:(lia)). lia.
Qed.

Lemma size_t_of_Z_id z : 0 <= z <= SIZE_MAX -> size_t_of_Z z = z.
Proof. unfold size_t_of_Z, SIZE_MAX. intros H. rewrite Z.mod_small; lia. Qed.

Lemma size_t_of_Z_nonneg z : 0 <= size_t_of_Z z.
Proof. unfold size_t_of_Z. apply Z.mod_pos_bound. lia. Qed.

(** The length of a payload that fits an [int] survives both conversions. *)
Lemma strLen_exact (n : nat) :
  Z.of_nat n + 1 <= INT_MAX ->
  size_t_of_Z (int_of_Z (size_t_of_Z (Z.of_nat n + 1))) = Z.of_nat n + 1.
Proof.
  unfold INT_MAX. intros H.
  rewrite (size_t_of_Z_id (Z.of_nat n + 1)) by (unfold SIZE_MAX; lia).
  rewrite int_of_Z_id by (unfold INT_MAX; lia).
  apply size_t_of_Z_id. unfold SIZE_MAX. lia.
Qed.

(** [strLen] never exceeds the length of the text with its terminator,
    it is that length when it fits the [int], and it is 1 for a text of
    2^32 bytes. *)
Lemma strLen_of_le n : strLen_of n <= Z.of_nat n + 1.
Proof.
  unfold strLen_of, int_of_Z, size_t_of_Z.
  pose proof (Z.mod_le (Z.of_nat n + 1) 18446744073709551616
                ltac:(lia) ltac:(lia)).
  pose proof (Z.mod_pos_bound (Z.of_nat n + 1) 18446744073709551616 ltac:(lia)).
  pose proof (Z.mod_le ((Z.of_nat n + 1) mod 18446744073709551616 + 2147483648)
                4294967296 ltac:(lia) ltac:(lia)).
  lia.
Qed.

Lemma strLen_of_exact n :
  Z.of_nat n + 1 <= INT_MAX → strLen_of n = Z.of_nat n + 1.
Proof.
  unfold strLen_of, INT_MAX. intros H.
  rewrite size_t_of_Z_id by (unfold SIZE_MAX; lia).
  apply int_of_Z_id. unfold INT_MAX. lia.
Qed.

Lemma strLen_of_long n : Z.of_nat n = 4294967296 → strLen_of n = 1.
Proof. unfold strLen_of. intros ->. reflexivity. Qed.

(** ** Bytes and texts *)

Lemma long_text_length : Z.of_nat (length long_text) = 4294967296.
Proof. unfold long_text. rewrite length_replicate. lia. Qed.

Lemma long_text_no_nul : Forall (λ c, is_nul c = false) long_text.
Proof. unfold long_text. apply Forall_replicate. reflexivity. Qed.

Lemma long_text_take (k : nat) :
  (Z.of_nat k <= 4294967296) → take k long_text = replicate k "a"%char.
Proof.
  intros H. unfold long_text. rewrite take_replicate. f_equal. lia.
Qed.

Lemma uchar_inj c d : uchar c = uchar d -> c = d.
Proof.
  unfold uchar. intros H. apply N2Z.inj in H.
  rewrite <- (ascii_N_embedding c), <- (ascii_N_embedding d). now f_equal.
Qed.

Lemma uchar_nonneg c : 0 <= uchar c.
Proof. unfold uchar. lia. Qed.

Lemma is_nul_true c : is_nul c = true <-> c = NUL.
Proof. unfold is_nul. apply Ascii.eqb_eq. Qed.

Lemma is_nul_false c : is_nul c = false <-> c ≠ NUL.
Proof. unfold is_nul. apply Ascii.eqb_neq. Qed.

Lemma uchar_pos c : is_nul c = false -> 0 < uchar c.
Proof.
  intros H. apply is_nul_false in H.
  destruct (Z.eq_dec (uchar c) 0) as [E|E].
  - exfalso. apply H. apply uchar_inj. exact E.
  - pose proof (uchar_nonneg c). lia.
Qed.

Lemma strlen_c_str b : strlen b = length <$> c_str b.
Proof.
  induction b as [|c b IH]; simpl; [reflexivity|].
  destruct (is_nul c); [reflexivity|].
  rewrite IH. now destruct (c_str b).
Qed.

(** The text is a prefix of the buffer, followed by the terminator. *)
Lemma c_str_split b t : c_str b = Some t -> ∃ r, b = t ++ NUL :: r.
Proof.
  revert t. induction b as [|c b IH]; simpl; intros t H; [discriminate|].
  destruct (is_nul c) eqn:E.
  - injection H as <-. apply is_nul_true in E. subst c. now exists b.
  - destruct (c_str b) as [t'|]; [|discriminate]. injection H as <-.
    destruct (IH t' eq_refl) as [r ->]. now exists r.
Qed.

Lemma c_str_no_nul b t : c_str b = Some t -> Forall (λ c, is_nul c = false) t.
Proof.
  revert t. induction b as [|c b IH]; simpl; intros t H; [discriminate|].
  destruct (is_nul c) eqn:E.
  - injection H as <-. constructor.
  - destruct (c_str b) as [t'|]; [|discriminate]. injection H as <-.
    constructor; auto.
Qed.

Lemma c_str_app_nul t r :
  Forall (λ c, is_nul c = false) t -> c_str (t ++ NUL :: r) = Some t.
Proof.
  induction 1 as [|c t Hc _ IH]; simpl; [reflexivity|].
  rewrite Hc, IH. reflexivity.
Qed.

(** [strcmp] decides the lexicographic order of the two texts. *)
Lemma strcmp_text b1 : ∀ b2 t1 t2,
  c_str b1 = Some t1 -> c_str b2 = Some t2 ->
  ∃ z, strcmp b1 b2 = Some z ∧ (z <? 0) = text_lt t1 t2 ∧ (z = 0 <-> t1 = t2).
Proof.
  induction b1 as [|c1 b1 IH]; intros [|c2 b2] t1 t2; simpl; try discriminate.
  destruct (is_nul c1) eqn:E1, (is_nul c2) eqn:E2; intros H1 H2.
  - injection H1 as <-. injection H2 as <-.
    apply is_nul_true in E1, E2. subst. rewrite Ascii.eqb_refl.
    exists 0. intuition.
  - injection H1 as <-.
    destruct (c_str b2) as [t2'|]; [|discriminate]. injection H2 as <-.
    pose proof (uchar_pos _ E2) as P2. apply is_nul_true in E1. subst c1.
    destruct (Ascii.eqb NUL c2) eqn:E.
    + apply Ascii.eqb_eq in E. subst c2. discriminate.
    + eexists. split; [reflexivity|]. change (uchar NUL) with 0. split.
      * simpl. apply Z.ltb_lt. lia.
      * split; [lia | discriminate].
  - injection H2 as <-.
    destruct (c_str b1) as [t1'|]; [|discriminate]. injection H1 as <-.
    pose proof (uchar_pos _ E1) as P1. apply is_nul_true in E2. subst c2.
    destruct (Ascii.eqb c1 NUL) eqn:E.
    + apply Ascii.eqb_eq in E. subst c1. discriminate.
    + eexists. split; [reflexivity|]. change (uchar NUL) with 0. split.
      * simpl. apply Z.ltb_ge. lia.
      * split; [lia | discriminate].
  - destruct (c_str b1) as [t1'|] eqn:C1; [|discriminate]. injection H1 as <-.
    destruct (c_str b2) as [t2'|] eqn:C2; [|discriminate]. injection H2 as <-.
    simpl. destruct (Ascii.eqb c1 c2) eqn:E.
    + apply Ascii.eqb_eq in E. subst c2.
      destruct (IH b2 t1' t2' eq_refl C2) as (z & Hz & Hlt & Heq).
      exists z. split; [exact Hz|]. split; [exact Hlt|].
      rewrite Heq. split; [now intros -> | now intros [= ->]].
    + eexists. split; [reflexivity|]. split.
      { destruct (uchar c1 <? uchar c2) eqn:L.
        - apply Z.ltb_lt in L. apply Z.ltb_lt. lia.
        - apply Z.ltb_ge in L. apply Z.ltb_ge. lia. }
      apply Ascii.eqb_neq in E. split.
      * intros Hz. exfalso. apply E. apply uchar_inj. lia.
      * intros [= -> _]. now contradict E.
Qed.

(** The payload order is a strict total order on texts. *)
Lemma text_lt_irrefl s : text_lt s s = false.
Proof.
  induction s as [|c s IH]; simpl; [reflexivity|].
  now rewrite Ascii.eqb_refl.
Qed.

Lemma text_lt_trans s : ∀ t u,
  text_lt s t = true -> text_lt t u = true -> text_lt s u = true.
Proof.
  induction s as [|c s IH]; intros [|d t] [|e u]; simpl; try congruence.
  destruct (Ascii.eqb c d) eqn:E1.
  - apply Ascii.eqb_eq in E1. subst d.
    destruct (Ascii.eqb c e) eqn:E2; [apply IH | auto].
  - destruct (Ascii.eqb d e) eqn:E2.
    + apply Ascii.eqb_eq in E2. subst e. rewrite E1. auto.
    + intros H1 H2. apply Z.ltb_lt in H1, H2.
      destruct (Ascii.eqb c e) eqn:E3.
      * apply Ascii.eqb_eq in E3. subst e. lia.
      * apply Z.ltb_lt. lia.
Qed.

Lemma text_lt_total s : ∀ t,
  text_lt s t = false -> text_lt t s = false -> s = t.
Proof.
  induction s as [|c s IH]; intros [|d t]; simpl; try congruence.
  rewrite (Ascii.eqb_sym d c).
  destruct (Ascii.eqb c d) eqn:E.
  - apply Ascii.eqb_eq in E. subst d. intros H1 H2. f_equal. now apply IH.
  - intros H1 H2. apply Z.ltb_ge in H1, H2. apply Ascii.eqb_neq in E.
    exfalso. apply E. apply uchar_inj. lia.
Qed.


(** ** The merged list *)

Section MergeEquations.
Context {A : Type} (lt : A → A → bool).

Lemma merge_list_nil_r (l : list A) : merge_list lt l [] = l.
Proof. now destruct l. Qed.

Lemma merge_list_nil_l (l : list A) : merge_list lt [] l = l.
Proof. now destruct l. Qed.

Lemma merge_list_cons a1 l1 a2 l2 :
  merge_list lt (a1 :: l1) (a2 :: l2) =
  if lt a1 a2 then a1 :: merge_list lt l1 (a2 :: l2)
  else a2 :: merge_list lt (a1 :: l1) l2.
Proof. reflexivity. Qed.

Lemma merge_list_perm l1 : ∀ l2, merge_list lt l1 l2 ≡ₚ l1 ++ l2.
Proof.
  induction l1 as [|a1 l1 IH1]; intros l2.
  - now rewrite merge_list_nil_l.
  - induction l2 as [|a2 l2 IH2].
    + rewrite merge_list_nil_r. now rewrite app_nil_r.
    + rewrite merge_list_cons. destruct (lt a1 a2).
      * simpl. now rewrite IH1.
      * rewrite IH2. now rewrite <- Permutation_middle.
Qed.

End MergeEquations.

Section MergeOrder.
Context {A K : Type} `{EqDecision K} (key : A → K) (klt : K → K → bool).
Hypothesis klt_irrefl : ∀ x, klt x x = false.
Hypothesis klt_trans : ∀ x y z, klt x y = true → klt y z = true → klt x z = true.
Hypothesis klt_total : ∀ x y, klt x y = false → klt y x = false → x = y.

Let lt (a b : A) : bool := klt (key a) (key b).
Let le (a b : A) : Prop := lt b a = false.

Lemma klt_negtrans x y z : klt x y = false → klt y z = false → klt x z = false.
Proof.
  intros H1 H2. destruct (klt x z) eqn:H3; [|reflexivity].
  destruct (klt y x) eqn:H4.
  - rewrite (klt_trans _ _ _ H4 H3) in H2. discriminate.
  - rewrite (klt_total _ _ H1 H4) in H3. congruence.
Qed.

Lemma le_trans a b c : le a b → le b c → le a c.
Proof. unfold le, lt. intros H1 H2. eapply klt_negtrans; eauto. Qed.

Lemma lt_le a b : lt a b = true → le a b.
Proof.
  unfold le, lt. intros H. destruct (klt (key b) (key a)) eqn:E; [|reflexivity].
  rewrite <- (klt_irrefl (key a)). symmetry. eapply klt_trans; eauto.
Qed.

Lemma merge_list_hd a l1 : ∀ l2,
  HdRel le a l1 → HdRel le a l2 → HdRel le a (merge_list lt l1 l2).
Proof.
  intros l2 H1 H2. destruct l1 as [|a1 l1].
  - now rewrite merge_list_nil_l.
  - destruct l2 as [|a2 l2].
    + now rewrite merge_list_nil_r.
    + rewrite merge_list_cons. inversion H1; inversion H2; subst.
      destruct (lt a1 a2); now constructor.
Qed.

Lemma merge_list_sorted l1 : ∀ l2,
  Sorted le l1 → Sorted le l2 → Sorted le (merge_list lt l1 l2).
Proof.
  induction l1 as [|a1 l1 IH1]; intros l2 S1 S2.
  - now rewrite merge_list_nil_l.
  - induction l2 as [|a2 l2 IH2].
    + now rewrite merge_list_nil_r.
    + rewrite merge_list_cons. inversion S1; inversion S2; subst.
      destruct (lt a1 a2) eqn:E.
      * constructor; [now apply IH1|].
        apply merge_list_hd; [assumption|]. constructor. now apply lt_le.
      * constructor; [now apply IH2|].
        apply merge_list_hd; [|assumption]. constructor. exact E.
Qed.

(** Among the elements with one key, those of the second list come first. *)
Lemma merge_list_class (x : K) l1 : ∀ l2,
  Sorted le l2 →
  filter (λ a, key a = x) (merge_list lt l1 l2) =
  filter (λ a, key a = x) l2 ++ filter (λ a, key a = x) l1.
Proof.
  induction l1 as [|a1 l1 IH1]; intros l2 S2.
  - rewrite merge_list_nil_l. now rewrite app_nil_r.
  - induction l2 as [|a2 l2 IH2].
    + now rewrite merge_list_nil_r.
    + rewrite merge_list_cons. destruct (lt a1 a2) eqn:E.
      * rewrite !(filter_cons _ a1), IH1 by assumption.
        destruct (decide (key a1 = x)) as [Hx|Hx]; [|reflexivity].
        assert (filter (λ a, key a = x) (a2 :: l2) = []) as ->; [|reflexivity].
        assert (Forall (le a2) (a2 :: l2)) as F.
        { constructor; [apply klt_irrefl|].
          apply Sorted_extends; [|assumption].
          intros u v w. apply le_trans. }
        clear -F E Hx klt_irrefl klt_trans.
        induction F as [|b l Hb _ IH]; [reflexivity|].
        rewrite filter_cons, IH.
        destruct (decide (key b = x)) as [Hbx|]; [|reflexivity].
        exfalso. unfold le, lt in *. rewrite Hbx, <- Hx in Hb. congruence.
      * rewrite (filter_cons _ a2), IH2 by (now inversion S2).
        rewrite (filter_cons _ a2 l2).
        now destruct (decide (key a2 = x)).
Qed.

End MergeOrder.

(** ** List segments *)

Lemma lseg_app ns l1 : ∀ p l2 q,
  lseg ns p (l1 ++ l2) q ↔ ∃ r, lseg ns p l1 r ∧ lseg ns r l2 q.
Proof.
  induction l1 as [|a l1 IH]; intros p l2 q; simpl.
  - split.
    + intros H. exists p. auto.
    + intros (r & -> & H). exact H.
  - split.
    + intros [-> H]. destruct (ns !! a) as [n|]; [|done].
      apply IH in H as (r & H1 & H2). exists r. auto.
    + intros (r & [-> H1] & H2). split; [done|].
      destruct (ns !! a); [|done]. apply IH. eauto.
Qed.

Lemma lseg_cons ns p a ls q :
  lseg ns p (a :: ls) q ↔
  p = Some a ∧ ∃ n, ns !! a = Some n ∧ lseg ns (next n) ls q.
Proof.
  simpl. split.
  - intros [-> H]. split; [done|]. destruct (ns !! a) as [n|]; [eauto|done].
  - intros [-> (n & -> & H)]. auto.
Qed.

Lemma lseg_snoc ns p ls a q :
  lseg ns p (ls ++ [a]) q ↔
  lseg ns p ls (Some a) ∧ ∃ n, ns !! a = Some n ∧ next n = q.
Proof.
  rewrite lseg_app. split.
  - intros (r & H1 & H2). apply lseg_cons in H2 as [-> (n & Hn & H2)].
    simpl in H2. eauto.
  - intros (H1 & n & Hn & Hq). exists (Some a). split; [done|].
    apply lseg_cons. split; [done|]. exists n. auto.
Qed.

Lemma chain_nil ns p : chain ns p [] ↔ p = None.
Proof. reflexivity. Qed.

Lemma chain_None ns ls : chain ns None ls → ls = [].
Proof. destruct ls; [done|]. intros [? _]. done. Qed.

Lemma chain_det ns l1 : ∀ p l2, chain ns p l1 → chain ns p l2 → l1 = l2.
Proof.
  unfold chain. induction l1 as [|a l1 IH]; intros p [|b l2]; simpl.
  - done.
  - intros -> [? _]. done.
  - intros [-> _] ?. done.
  - intros [-> H1] [[= <-] H2]. destruct (ns !! a); [|done].
    f_equal. eapply IH; eauto.
Qed.

(** A list that reaches NULL visits no element twice. *)
Lemma chain_NoDup ns ls : ∀ p, chain ns p ls → NoDup ls.
Proof.
  induction ls as [|a ls IH]; intros p H; [constructor|].
  apply lseg_cons in H as [-> (n & Hn & H)].
  constructor; [|eapply IH; eauto].
  intros Hin. apply list_elem_of_split in Hin as (x & y & ->).
  pose proof H as H'. apply lseg_app in H' as (r & _ & H2).
  apply lseg_cons in H2 as [-> (n' & Hn' & H2)].
  rewrite Hn in Hn'. injection Hn' as <-.
  pose proof (chain_det _ _ _ _ H H2) as E.
  apply (f_equal length) in E. rewrite length_app in E. simpl in E. lia.
Qed.

Lemma lseg_agree ns ns' ls : ∀ p q,
  (∀ a, a ∈ ls → ns' !! a = ns !! a) → lseg ns p ls q → lseg ns' p ls q.
Proof.
  induction ls as [|a ls IH]; intros p q Hag; simpl; [done|].
  intros [-> H]. split; [done|].
  rewrite Hag by (left). destruct (ns !! a); [|done].
  apply IH; [|done]. intros b Hb. apply Hag. now right.
Qed.

Lemma lseg_insert ns a n ls p q :
  a ∉ ls → lseg ns p ls q → lseg (<[a := n]> ns) p ls q.
Proof.
  intros Ha. apply lseg_agree. intros b Hb.
  apply lookup_insert_ne. intros ->. done.
Qed.

Lemma lseg_relinked L ns ns' ls p q :
  relinked L ns ns' → (∀ a, a ∈ ls → a ∉ L) →
  lseg ns p ls q → lseg ns' p ls q.
Proof.
  intros [_ Hout] Hd. apply lseg_agree. intros a Ha. apply Hout. auto.
Qed.

Lemma relinked_refl L ns : relinked L ns ns.
Proof. split; auto. Qed.

Lemma relinked_trans L ns1 ns2 ns3 :
  relinked L ns1 ns2 → relinked L ns2 ns3 → relinked L ns1 ns3.
Proof.
  intros [V1 O1] [V2 O2]. split.
  - intros a. now rewrite V2, V1.
  - intros a Ha. now rewrite O2, O1.
Qed.

Lemma relinked_mono L L' ns ns' :
  (∀ a, a ∈ L → a ∈ L') → relinked L ns ns' → relinked L' ns ns'.
Proof. intros Hsub [V O]. split; [done|]. intros a Ha. apply O. auto. Qed.

Lemma relinked_set_next L ns a n p :
  ns !! a = Some n → a ∈ L → relinked L ns (<[a := Ele (value n) p]> ns).
Proof.
  intros Hn Ha. split.
  - intros b. destruct (decide (a = b)) as [<-|Hne].
    + now rewrite lookup_insert_eq, Hn.
    + now rewrite lookup_insert_ne.
  - intros b Hb. apply lookup_insert_ne. intros ->. done.
Qed.

Lemma text_of_relinked L qs qs' ns ns' cs pl pl' a :
  relinked L ns ns' →
  text_of (Mem qs' ns' cs pl') a = text_of (Mem qs ns cs pl) a.
Proof.
  intros [V _]. unfold text_of, buffer_of, value_of. simpl.
  specialize (V a). destruct (ns' !! a), (ns !! a); simpl in *; congruence.
Qed.

Lemma value_of_relinked L qs qs' ns ns' cs pl pl' a :
  relinked L ns ns' →
  value_of (Mem qs' ns' cs pl') a = value_of (Mem qs ns cs pl) a.
Proof.
  intros [V _]. unfold value_of. simpl.
  specialize (V a). destruct (ns' !! a), (ns !! a); simpl in *; congruence.
Qed.

(** ** Running statements *)

Lemma bind_Some {A B} (c : M A) (k : A → M B) m a m' :
  c m = Some (a, m') → bind c k m = k a m'.
Proof. unfold bind. now intros ->. Qed.

Lemma bind_bind {A B C} (c : M A) (f : A → M B) (g : B → M C) m :
  bind (bind c f) g m = bind c (λ x, bind (f x) g) m.
Proof. unfold bind. now destruct (c m) as [[x m']|]. Qed.

Ltac mstep lem := rewrite (bind_Some _ _ _ _ _ lem); cbv beta.

Section Steps.
Context (qs : gmap loc queue_t) (ns : gmap loc list_ele_t)
        (cs : gmap loc bytes) (pl : list bool).

Lemma get_head_eq qa q :
  qs !! qa = Some q →
  get_head qa (Mem qs ns cs pl) = Some (head q, Mem qs ns cs pl).
Proof. intros H. unfold get_head, load_queue, bind, ret. simpl. now rewrite H. Qed.

Lemma get_tail_eq qa q :
  qs !! qa = Some q →
  get_tail qa (Mem qs ns cs pl) = Some (tail q, Mem qs ns cs pl).
Proof. intros H. unfold get_tail, load_queue, bind, ret. simpl. now rewrite H. Qed.

Lemma get_size_eq qa q :
  qs !! qa = Some q →
  get_size qa (Mem qs ns cs pl) = Some (size q, Mem qs ns cs pl).
Proof. intros H. unfold get_size, load_queue, bind, ret. simpl. now rewrite H. Qed.

Lemma set_head_eq qa q p :
  qs !! qa = Some q →
  set_head qa p (Mem qs ns cs pl) =
  Some (tt, Mem (<[qa := Queue p (tail q) (size q)]> qs) ns cs pl).
Proof.
  intros H. unfold set_head, load_queue, store_queue, bind, ret. simpl.
  rewrite H. simpl. now rewrite H.
Qed.

Lemma set_tail_eq qa q p :
  qs !! qa = Some q →
  set_tail qa p (Mem qs ns cs pl) =
  Some (tt, Mem (<[qa := Queue (head q) p (size q)]> qs) ns cs pl).
Proof.
  intros H. unfold set_tail, load_queue, store_queue, bind, ret. simpl.
  rewrite H. simpl. now rewrite H.
Qed.

Lemma set_size_eq qa q n :
  qs !! qa = Some q →
  set_size qa n (Mem qs ns cs pl) =
  Some (tt, Mem (<[qa := Queue (head q) (tail q) n]> qs) ns cs pl).
Proof.
  intros H. unfold set_size, load_queue, store_queue, bind, ret. simpl.
  rewrite H. simpl. now rewrite H.
Qed.

Lemma get_next_eq a n :
  ns !! a = Some n →
  get_next (Some a) (Mem qs ns cs pl) = Some (next n, Mem qs ns cs pl).
Proof. intros H. unfold get_next, load_ele, bind, ret. simpl. now rewrite H. Qed.

Lemma get_value_eq a n :
  ns !! a = Some n →
  get_value (Some a) (Mem qs ns cs pl) = Some (value n, Mem qs ns cs pl).
Proof. intros H. unfold get_value, load_ele, bind, ret. simpl. now rewrite H. Qed.

Lemma set_next_eq a n p :
  ns !! a = Some n →
  set_next (Some a) p (Mem qs ns cs pl) =
  Some (tt, Mem qs (<[a := Ele (value n) p]> ns) cs pl).
Proof.
  intros H. unfold set_next, load_ele, store_ele, bind, ret. simpl.
  rewrite H. simpl. now rewrite H.
Qed.

Lemma set_value_eq a n v :
  ns !! a = Some n →
  set_value (Some a) v (Mem qs ns cs pl) =
  Some (tt, Mem qs (<[a := Ele v (next n)]> ns) cs pl).
Proof.
  intros H. unfold set_value, load_ele, store_ele, bind, ret. simpl.
  rewrite H. simpl. now rewrite H.
Qed.

Lemma c_strlen_eq v b t :
  cs !! v = Some b → c_str b = Some t →
  c_strlen (Some v) (Mem qs ns cs pl) =
  Some (Z.of_nat (length t), Mem qs ns cs pl).
Proof.
  intros H Ht. unfold c_strlen, load_chars, bind, ret. simpl. rewrite H.
  rewrite strlen_c_str, Ht. reflexivity.
Qed.

(** A payload that has a text sits in an allocated buffer. *)
Lemma text_of_inv a t :
  text_of (Mem qs ns cs pl) a = Some t →
  ∃ n v b, ns !! a = Some n ∧ value n = Some v ∧ cs !! v = Some b ∧
           c_str b = Some t.
Proof.
  unfold text_of, buffer_of, value_of. simpl. intros H.
  destruct (ns !! a) as [n|]; [|done]. simpl in H.
  destruct (value n) as [v|] eqn:Hv; [|done]. simpl in H.
  destruct (cs !! v) as [b|] eqn:Hb; [|done]. simpl in H.
  exists n, v, b. auto.
Qed.

Lemma list_cmp_eq a1 a2 t1 t2 :
  text_of (Mem qs ns cs pl) a1 = Some t1 →
  text_of (Mem qs ns cs pl) a2 = Some t2 →
  list_cmp (Some a1) (Some a2) (Mem qs ns cs pl) =
  Some (text_lt t1 t2, Mem qs ns cs pl).
Proof.
  intros H1 H2.
  apply text_of_inv in H1 as (n1 & v1 & b1 & Hn1 & Hv1 & Hb1 & Ht1).
  apply text_of_inv in H2 as (n2 & v2 & b2 & Hn2 & Hv2 & Hb2 & Ht2).
  destruct (strcmp_text b1 b2 t1 t2 Ht1 Ht2) as (z & Hz & Hlt & _).
  unfold list_cmp.
  mstep (get_value_eq a1 n1 Hn1). mstep (get_value_eq a2 n2 Hn2).
  rewrite Hv1, Hv2. unfold c_strcmp, load_chars, bind, ret. simpl.
  rewrite Hb1. simpl. rewrite Hb2, Hz, <- Hlt. do 2 f_equal.
  rewrite Z.geb_leb. destruct (Z.leb_spec 0 z), (Z.ltb_spec z 0); auto; lia.
Qed.

End Steps.

(** ** Sorting the elements in memory *)

Section HeapSort.
Context (qs : gmap loc queue_t) (cs : gmap loc bytes) (pl : list bool).

(** The text of every element, fixed before the sort starts. *)
Context (k : loc → bytes).

Let klt (a b : loc) : bool := text_lt (k a) (k b).
Let kle (a b : loc) : Prop := klt b a = false.
Let keyed (ns : gmap loc list_ele_t) (ls : list loc) : Prop :=
  ∀ a, a ∈ ls → text_of (Mem qs ns cs pl) a = Some (k a).

Lemma keyed_relinked L ns ns' ls :
  relinked L ns ns' → keyed ns ls → keyed ns' ls.
Proof.
  intros R H a Ha. rewrite (text_of_relinked L qs qs ns ns' cs pl pl a R). now apply H.
Qed.

(** [merge] links the elements of two disjoint lists into the merged
    list. *)
Lemma merge_spec (fuel : nat) : ∀ ns l1 l2 p1 p2,
  (length l1 + length l2 < fuel)%nat →
  chain ns p1 l1 → chain ns p2 l2 →
  (∀ a, a ∈ l1 → a ∉ l2) →
  keyed ns (l1 ++ l2) →
  ∃ ns' r,
    merge fuel p1 p2 (Mem qs ns cs pl) = Some (r, Mem qs ns' cs pl) ∧
    chain ns' r (merge_list klt l1 l2) ∧
    relinked (l1 ++ l2) ns ns'.
Proof.
  induction fuel as [|f IH]; intros ns l1 l2 p1 p2 Hf C1 C2 D Hk; [lia|].
  destruct l2 as [|a2 l2].
  { apply chain_nil in C2 as ->. exists ns, p1. simpl.
    rewrite merge_list_nil_r. split; [done|]. split; [done|].
    apply relinked_refl. }
  destruct l1 as [|a1 l1].
  { apply chain_nil in C1 as ->. exists ns, p2.
    apply lseg_cons in C2 as C2'. destruct C2' as [-> _]. simpl.
    split; [done|]. split; [done|]. apply relinked_refl. }
  pose proof (chain_NoDup _ _ _ C1) as N1.
  pose proof (chain_NoDup _ _ _ C2) as N2.
  apply NoDup_cons in N1 as [N1 _]. apply NoDup_cons in N2 as [N2 _].
  pose proof C1 as C1'. pose proof C2 as C2'.
  apply lseg_cons in C1' as [-> (n1 & Hn1 & T1)].
  apply lseg_cons in C2' as [-> (n2 & Hn2 & T2)].
  assert (text_of (Mem qs ns cs pl) a1 = Some (k a1)) as K1.
  { apply Hk. apply elem_of_app. left. left. }
  assert (text_of (Mem qs ns cs pl) a2 = Some (k a2)) as K2.
  { apply Hk. apply elem_of_app. right. left. }
  rewrite merge_list_cons.
  change (merge (S f) (Some a1) (Some a2)) with
    (c <- list_cmp (Some a1) (Some a2) ;;
     if c : bool then
       n <- get_next (Some a1) ;; r <- merge f n (Some a2) ;;
       set_next (Some a1) r ;; ret (Some a1)
     else
       n <- get_next (Some a2) ;; r <- merge f (Some a1) n ;;
       set_next (Some a2) r ;; ret (Some a2)).
  mstep (list_cmp_eq qs ns cs pl a1 a2 _ _ K1 K2).
  fold (klt a1 a2). destruct (klt a1 a2) eqn:E.
  - mstep (get_next_eq qs ns cs pl a1 n1 Hn1).
    destruct (IH ns l1 (a2 :: l2) (next n1) (Some a2)) as (ns1 & r & Hm & Cr & R);
      [simpl in *; lia | done | done | | |].
    { intros a Ha. apply D. now right. }
    { intros a Ha. apply Hk. apply elem_of_app in Ha as [Ha|Ha];
        apply elem_of_app; [left; now right | now right]. }
    assert (a1 ∉ l1 ++ a2 :: l2) as Hout.
    { intros Ha. apply elem_of_app in Ha as [Ha|Ha]; [done|].
      apply (D a1); [left | done]. }
    assert (ns1 !! a1 = Some n1) as Hn1'.
    { destruct R as [_ O]. now rewrite O. }
    mstep Hm. mstep (set_next_eq qs ns1 cs pl a1 n1 r Hn1').
    eexists _, _. split; [reflexivity|]. split.
    + apply lseg_cons. split; [done|]. eexists. split; [apply lookup_insert_eq|].
      cbn [next]. apply lseg_insert; [|done].
      intros Ha. apply Hout. now rewrite merge_list_perm in Ha.
    + eapply relinked_trans.
      * eapply relinked_mono; [|exact R]. intros a Ha. now right.
      * apply relinked_set_next; [done | left].
  - mstep (get_next_eq qs ns cs pl a2 n2 Hn2).
    destruct (IH ns (a1 :: l1) l2 (Some a1) (next n2)) as (ns1 & r & Hm & Cr & R);
      [simpl in *; lia | done | done | | |].
    { intros a Ha Ha'. apply (D a Ha). now right. }
    { intros a Ha. apply Hk. apply elem_of_app in Ha as [Ha|Ha];
        apply elem_of_app; [now left | right; now right]. }
    assert (a2 ∉ (a1 :: l1) ++ l2) as Hout.
    { intros Ha. apply elem_of_app in Ha as [Ha|Ha]; [|done].
      apply (D a2); [done | left]. }
    assert (ns1 !! a2 = Some n2) as Hn2'.
    { destruct R as [_ O]. now rewrite O. }
    mstep Hm. mstep (set_next_eq qs ns1 cs pl a2 n2 r Hn2').
    eexists _, _. split; [reflexivity|]. split.
    + apply lseg_cons. split; [done|]. eexists. split; [apply lookup_insert_eq|].
      cbn [next]. apply lseg_insert; [|done].
      intros Ha. apply Hout. now rewrite merge_list_perm in Ha.
    + eapply relinked_trans.
      * eapply relinked_mono; [|exact R]. intros a Ha.
        apply elem_of_app in Ha as [Ha|Ha]; apply elem_of_app;
          [now left | right; now right].
      * apply relinked_set_next; [done|]. apply elem_of_app. right. left.
Qed.

(** The splitting loop stops on an element that has a successor. *)
Lemma split_loop_spec ns (fuel : nat) : ∀ sl fl slow fast,
  (length fl < fuel)%nat → (length fl < length sl)%nat → (2 ≤ length sl)%nat →
  chain ns slow sl → chain ns fast fl →
  ∃ l1 a b l2,
    sl = l1 ++ a :: b :: l2 ∧
    split_loop fuel slow fast (Mem qs ns cs pl) = Some (Some a, Mem qs ns cs pl).
Proof.
  induction fuel as [|f IH]; intros sl fl slow fast Hf Hl H2 Cs Cf; [lia|].
  destruct fl as [|f1 fl].
  { apply chain_nil in Cf as ->.
    destruct sl as [|a [|b l2]]; simpl in H2; try lia.
    exists [], a, b, l2. apply lseg_cons in Cs as [-> _]. done. }
  apply lseg_cons in Cf as [-> (n1 & Hn1 & Cf)].
  cbn [split_loop]. mstep (get_next_eq qs ns cs pl f1 n1 Hn1).
  destruct fl as [|f2 fl].
  { apply chain_nil in Cf as ->.
    destruct sl as [|a [|b l2]]; simpl in H2; try lia.
    exists [], a, b, l2. apply lseg_cons in Cs as [-> _]. done. }
  apply lseg_cons in Cf as [E2 (n2 & Hn2 & Cf)]. rewrite E2.
  destruct sl as [|s1 sl]; [simpl in H2; lia|].
  apply lseg_cons in Cs as [-> (m1 & Hm1 & Cs)].
  mstep (get_next_eq qs ns cs pl s1 m1 Hm1).
  mstep (get_next_eq qs ns cs pl f1 n1 Hn1). rewrite E2.
  mstep (get_next_eq qs ns cs pl f2 n2 Hn2).
  destruct (IH sl fl (next m1) (next n2)) as (l1 & a & b & l2 & -> & Hr);
    [simpl in *; lia | simpl in *; lia | simpl in *; lia | done | done |].
  exists (s1 :: l1), a, b, l2. done.
Qed.

(** [merge_sort] links the elements of a list into a sorted permutation
    of it, in which the elements with one text appear in reverse order. *)
Lemma merge_sort_spec (fuel : nat) : ∀ ns ls p,
  (length ls + 2 ≤ fuel)%nat →
  chain ns p ls → keyed ns ls →
  ∃ ns' r ls',
    merge_sort fuel p (Mem qs ns cs pl) = Some (r, Mem qs ns' cs pl) ∧
    chain ns' r ls' ∧ relinked ls ns ns' ∧
    ls' ≡ₚ ls ∧ Sorted kle ls' ∧
    (∀ x, filter (λ a, k a = x) ls' = reverse (filter (λ a, k a = x) ls)) ∧
    (length ls ≤ 1 → ns' = ns ∧ r = p)%nat.
Proof.
  induction fuel as [|f IH]; intros ns ls p Hf C Hk; [lia|].
  destruct ls as [|a [|b rest]].
  { apply chain_nil in C as ->. exists ns, None, []. simpl.
    repeat split; auto using relinked_refl. }
  { apply lseg_cons in C as [-> (n & Hn & C)]. apply chain_nil in C.
    exists ns, (Some a), [a]. cbn [merge_sort].
    mstep (get_next_eq qs ns cs pl a n Hn). rewrite C.
    split; [done|]. split.
    { apply lseg_cons. split; [done|]. exists n. split; [done|]. now rewrite C. }
    split; [apply relinked_refl|]. split; [done|].
    split; [repeat constructor|]. split; [|done].
    intros x. rewrite filter_cons, filter_nil. now destruct (decide (k a = x)). }
  pose proof (chain_NoDup _ _ _ C) as ND.
  pose proof C as C'.
  apply lseg_cons in C' as [-> (n & Hn & C')].
  pose proof C' as C''. apply lseg_cons in C'' as [Eb _].
  cbn [merge_sort]. mstep (get_next_eq qs ns cs pl a n Hn). rewrite Eb.
  mstep (get_next_eq qs ns cs pl a n Hn). rewrite Eb.
  destruct (split_loop_spec ns f (a :: b :: rest) (b :: rest) (Some a) (Some b))
    as (l1 & s & c & l2 & Els & Hsp);
    [simpl in *; lia | simpl; lia | simpl; lia | done | now rewrite <- Eb |].
  mstep Hsp.
  set (ls := a :: b :: rest) in *.
  assert (length ls = length l1 + 2 + length l2)%nat as Hlen.
  { rewrite Els, length_app. simpl. lia. }
  clearbody ls. subst ls.
  apply NoDup_app in ND as (ND1 & ND12 & ND2).
  apply NoDup_cons in ND2 as (Hs & ND2).
  apply lseg_app in C as (r0 & Ca & Cb).
  apply lseg_cons in Cb as [-> (ns_ & Hns & Cb)].
  pose proof Cb as Cb'. apply lseg_cons in Cb' as [Ec _].
  mstep (get_next_eq qs ns cs pl s ns_ Hns). rewrite Ec.
  mstep (set_next_eq qs ns cs pl s ns_ None Hns).
  set (ns1 := <[s := Ele (value ns_) None]> ns).
  assert (relinked (l1 ++ s :: c :: l2) ns ns1) as R1.
  { apply relinked_set_next; [done|]. apply elem_of_app. right. left. }
  assert (chain ns1 (Some a) (l1 ++ [s])) as H1.
  { apply lseg_snoc. split.
    - apply lseg_insert; [|done]. intros Hin. eapply ND12; [exact Hin | left].
    - eexists. split; [apply lookup_insert_eq | done]. }
  assert (chain ns1 (Some c) (c :: l2)) as H2.
  { apply lseg_insert; [done|]. now rewrite <- Ec. }
  assert (∀ x, x ∈ l1 ++ [s] → x ∉ c :: l2) as D12.
  { intros x Hx Hx'. apply elem_of_app in Hx as [Hx|Hx].
    - eapply ND12; [exact Hx | now right].
    - apply list_elem_of_singleton in Hx as ->. done. }
  assert (∀ x, x ∈ l1 ++ [s] → x ∈ l1 ++ s :: c :: l2) as S1.
  { intros x Hx. apply elem_of_app in Hx as [Hx|Hx]; apply elem_of_app;
      [now left | right]. apply list_elem_of_singleton in Hx as ->. left. }
  assert (∀ x, x ∈ c :: l2 → x ∈ l1 ++ s :: c :: l2) as S2.
  { intros x Hx. apply elem_of_app. right. now right. }
  destruct (IH ns1 (l1 ++ [s]) (Some a))
    as (ns2 & r1 & ls1 & Hm1 & Cr1 & R2 & P1 & So1 & F1 & _);
    [rewrite length_app; simpl; lia | done | |].
  { intros x Hx. eapply keyed_relinked; [exact R1 | exact Hk |]. auto. }
  mstep Hm1.
  assert (chain ns2 (Some c) (c :: l2)) as H2'.
  { eapply lseg_relinked; [exact R2 | | exact H2].
    intros x Hx Hx'. eapply D12; eauto. }
  destruct (IH ns2 (c :: l2) (Some c))
    as (ns3 & r2 & ls2 & Hm2 & Cr2 & R3 & P2 & So2 & F2 & _);
    [simpl; lia | done | |].
  { intros x Hx. eapply keyed_relinked; [exact R2|..].
    - eapply keyed_relinked; [exact R1 | exact Hk].
    - auto. }
  mstep Hm2.
  assert (chain ns3 r1 ls1) as Cr1'.
  { eapply lseg_relinked; [exact R3 | | exact Cr1].
    intros x Hx Hx'. rewrite P1 in Hx. eapply D12; eauto. }
  assert (relinked (l1 ++ s :: c :: l2) ns ns3) as R13.
  { eapply relinked_trans; [exact R1|]. eapply relinked_trans.
    - eapply relinked_mono; [exact S1 | exact R2].
    - eapply relinked_mono; [exact S2 | exact R3]. }
  destruct (merge_spec f ns3 ls1 ls2 r1 r2) as (ns4 & r & Hm & Cr & R4);
    [ rewrite P1, P2, length_app; simpl; lia | done | done | | |].
  { intros x Hx Hx'. rewrite P1 in Hx. rewrite P2 in Hx'. eapply D12; eauto. }
  { intros x Hx. eapply keyed_relinked; [exact R13 | exact Hk |].
    apply elem_of_app in Hx as [Hx|Hx]; [rewrite P1 in Hx | rewrite P2 in Hx]; auto. }
  exists ns4, r, (merge_list klt ls1 ls2).
  split; [exact Hm|]. split; [exact Cr|]. split.
  { eapply relinked_trans; [exact R13|]. eapply relinked_mono; [|exact R4].
    intros x Hx. apply elem_of_app in Hx as [Hx|Hx];
      [rewrite P1 in Hx | rewrite P2 in Hx]; auto. }
  split.
  { rewrite merge_list_perm, P1, P2. rewrite <- app_assoc. reflexivity. }
  split.
  { exact (merge_list_sorted k text_lt text_lt_irrefl text_lt_trans
             ls1 ls2 So1 So2). }
  split; [|simpl in Hlen; intros; lia].
  intros x.
  unfold klt.
  rewrite (merge_list_class k text_lt text_lt_irrefl text_lt_trans
             text_lt_total x ls1 ls2 So2).
  rewrite F1, F2, <- reverse_app, <- filter_app, <- app_assoc. reflexivity.
Qed.

(** The last loop of [q_sort] stops on the last element. *)
Lemma last_loop_spec ns (fuel : nat) : ∀ ls a,
  (length ls < fuel)%nat → chain ns (Some a) (a :: ls) →
  last_loop fuel (Some a) (Mem qs ns cs pl) =
  Some (last (a :: ls), Mem qs ns cs pl).
Proof.
  induction fuel as [|f IH]; intros ls a Hf C; [lia|].
  apply lseg_cons in C as [_ (n & Hn & C)].
  cbn [last_loop]. mstep (get_next_eq qs ns cs pl a n Hn).
  destruct ls as [|b ls].
  - apply chain_nil in C as ->. done.
  - pose proof C as C'. apply lseg_cons in C' as [E _]. rewrite E.
    rewrite last_cons_cons. apply IH; [simpl in Hf; lia | now rewrite <- E].
Qed.

End HeapSort.

(** ** Ownership of the payloads *)

Lemma owned_agree m m' ls :
  (∀ a, a ∈ ls → value_of m' a = value_of m a ∧ text_of m' a = text_of m a) →
  owned m ls → owned m' ls.
Proof.
  intros H [N F]. split.
  - erewrite list_fmap_ext; [exact N|]. intros i a Ha.
    apply H. eapply list_elem_of_lookup_2. exact Ha.
  - apply Forall_forall. intros a Ha. rewrite Forall_forall in F.
    destruct (H a Ha) as [_ ->]. auto.
Qed.

Lemma owned_perm m ls ls' : ls' ≡ₚ ls → owned m ls → owned m ls'.
Proof. intros P [N F]. split; now rewrite P. Qed.

Lemma owned_cons m a ls :
  owned m (a :: ls) ↔
  (value_of m a ∉ value_of m <$> ls) ∧ is_Some (text_of m a) ∧ owned m ls.
Proof.
  unfold owned. rewrite fmap_cons, NoDup_cons, Forall_cons. tauto.
Qed.

Lemma owned_relinked L qs qs' ns ns' cs pl pl' ls :
  relinked L ns ns' →
  owned (Mem qs ns cs pl) ls → owned (Mem qs' ns' cs pl') ls.
Proof.
  intros R. apply owned_agree. intros a _. split.
  - apply (value_of_relinked L). exact R.
  - apply (text_of_relinked L). exact R.
Qed.

(** ** Reversal *)

Lemma reverse_loop_spec cs pl qa t sz (fuel : nat) : ∀ qs ns rest done cur prev,
  (length rest < fuel)%nat →
  qs !! qa = Some (Queue cur t sz) →
  chain ns cur rest → chain ns prev done → (∀ a, a ∈ rest → a ∉ done) →
  ∃ ns' p',
    reverse_loop fuel qa prev (Mem qs ns cs pl) =
      Some (p', Mem (<[qa := Queue None t sz]> qs) ns' cs pl) ∧
    chain ns' p' (reverse rest ++ done) ∧ relinked rest ns ns'.
Proof.
  induction fuel as [|f IH]; intros qs ns rest done cur prev Hf Hq Cr Cd D; [lia|].
  cbn [reverse_loop]. mstep (get_head_eq qs ns cs pl qa _ Hq). cbn [head].
  destruct rest as [|a rest].
  { apply chain_nil in Cr as ->. exists ns, prev.
    rewrite insert_id by done. split; [done|]. split; [done|].
    apply relinked_refl. }
  pose proof (chain_NoDup _ _ _ Cr) as ND. apply NoDup_cons in ND as [Ha _].
  apply lseg_cons in Cr as [-> (n & Hn & Cr)].
  mstep (get_next_eq qs ns cs pl a n Hn).
  mstep (set_next_eq qs ns cs pl a n prev Hn).
  mstep (set_head_eq qs (<[a := Ele (value n) prev]> ns) cs pl qa _ (next n) Hq).
  cbn [tail size].
  destruct (IH (<[qa := Queue (next n) t sz]> qs)
              (<[a := Ele (value n) prev]> ns) rest (a :: done) (next n) (Some a))
    as (ns' & p' & Hr & C & R).
  - simpl in Hf. lia.
  - apply lookup_insert_eq.
  - now apply lseg_insert.
  - apply lseg_cons. split; [done|]. eexists. split; [apply lookup_insert_eq|].
    cbn [next]. apply lseg_insert; [|done]. apply D. left.
  - intros x Hx Hx'. apply elem_of_cons in Hx' as [->|Hx']; [done|].
    apply (D x); [now right | done].
  - rewrite insert_insert_eq in Hr. exists ns', p'. split; [exact Hr|]. split.
    + now rewrite reverse_cons, <- app_assoc.
    + eapply relinked_trans.
      * apply (relinked_set_next _ ns a n prev Hn). left.
      * eapply relinked_mono; [|exact R]. intros x Hx. now right.
Qed.

Lemma q_reverse_spec m qa ls (fuel : nat) :
  queue_rep m qa ls → (length ls < fuel)%nat →
  ∃ m', q_reverse fuel (Some qa) m = Some (tt, m') ∧
        queue_rep m' qa (reverse ls) ∧
        (∀ a, text_of m' a = text_of m a) ∧
        (ls = [] → m' = m).
Proof.
  destruct m as [qs ns cs pl]. unfold queue_rep. cbn [queues nodes].
  destruct (qs !! qa) as [[h t sz]|] eqn:Hq; [|done].
  cbn [head tail size]. intros (C & Hsz & Ht & Ho & Hmx) Hf.
  unfold q_reverse. mstep (get_head_eq qs ns cs pl qa _ Hq). cbn [head].
  destruct ls as [|a ls].
  { apply chain_nil in C as ->. exists (Mem qs ns cs pl).
    cbn [queues nodes]. rewrite Hq. change (reverse (@nil loc)) with (@nil loc).
    repeat split; auto; apply Ho. }
  pose proof C as C'. apply lseg_cons in C' as [-> _].
  destruct (reverse_loop_spec cs pl qa t sz fuel qs ns (a :: ls) [] (Some a) None)
    as (ns' & p' & Hr & Cr & R); [done | done | done | done | |].
  { intros x _ Hx. inversion Hx. }
  rewrite app_nil_r in Cr.
  mstep Hr.
  mstep (get_tail_eq (<[qa := Queue None t sz]> qs) ns' cs pl qa _
           (lookup_insert_eq _ _ _)).
  mstep (set_head_eq (<[qa := Queue None t sz]> qs) ns' cs pl qa _ t
           (lookup_insert_eq _ _ _)).
  rewrite insert_insert_eq.
  rewrite (set_tail_eq _ ns' cs pl qa _ (Some a) (lookup_insert_eq _ _ _)).
  rewrite insert_insert_eq. cbn [head tail size].
  eexists. split; [reflexivity|]. cbn [queues nodes].
  rewrite lookup_insert_eq. cbn [head tail size].
  split; [|split; [|done]].
  - split.
    + rewrite Ht by done.
      assert (hd_error (reverse (a :: ls)) = last (a :: ls)) as E
        by apply head_reverse.
      destruct (reverse (a :: ls)) as [|x l] eqn:Er.
      * apply (f_equal length) in Er. rewrite length_reverse in Er. done.
      * simpl in E. rewrite <- E.
        apply lseg_cons in Cr as Cr'. destruct Cr' as [-> _]. exact Cr.
    + split; [now rewrite length_reverse|]. split.
      * intros _. now rewrite last_reverse.
      * split; [|exact Hmx]. eapply owned_relinked; [exact R|].
        eapply owned_perm; [apply reverse_Permutation | exact Ho].
  - intros x. apply (text_of_relinked (a :: ls)). exact R.
Qed.

(** ** Sorting the queue *)

Lemma with_text_key m x ls :
  Forall (λ a, is_Some (text_of m a)) ls →
  with_text m x ls = filter (λ a, default [] (text_of m a) = x) ls.
Proof.
  unfold with_text. induction 1 as [|a ls Ha _ IH]; [done|].
  destruct Ha as [t Ht]. rewrite !filter_cons, IH, Ht. simpl.
  destruct (decide (t = x)) as [->|Hne].
  - now rewrite !decide_True by done.
  - now rewrite !decide_False by congruence.
Qed.

Lemma q_sort_spec m qa ls (fuel : nat) :
  queue_rep m qa ls → (length ls + 2 ≤ fuel)%nat →
  ∃ m' ls',
    q_sort fuel (Some qa) m = Some (tt, m') ∧
    queue_rep m' qa ls' ∧
    (∀ a, text_of m' a = text_of m a) ∧
    ls' ≡ₚ ls ∧ Sorted (ele_le m) ls' ∧
    (∀ x, with_text m x ls' = reverse (with_text m x ls)) ∧
    (length ls ≤ 1 → m' = m ∧ ls' = ls)%nat.
Proof.
  destruct m as [qs ns cs pl]. unfold queue_rep. cbn [queues nodes].
  destruct (qs !! qa) as [[h t sz]|] eqn:Hq; [|done].
  cbn [head tail size]. intros (C & Hsz & Ht & Ho & Hmx) Hf.
  unfold q_sort. mstep (get_head_eq qs ns cs pl qa _ Hq). cbn [head].
  destruct ls as [|a [|b rest]].
  { apply chain_nil in C as ->. exists (Mem qs ns cs pl), [].
    cbn [queues nodes]. rewrite Hq.
    change (reverse (with_text (Mem qs ns cs pl) ?x [])) with (@nil loc).
    repeat split; auto; apply Ho. }
  { pose proof C as C'. apply lseg_cons in C' as [-> (n & Hn & C')].
    apply chain_nil in C'.
    mstep (get_next_eq qs ns cs pl a n Hn). rewrite C'.
    exists (Mem qs ns cs pl), [a].
    cbn [queues nodes]. rewrite Hq.
    split; [done|]. split; [done|]. split; [done|]. split; [done|].
    split; [repeat constructor|]. split; [|done].
    intros x. unfold with_text. rewrite filter_cons, filter_nil.
    now destruct (decide _). }
  pose proof C as C'. apply lseg_cons in C' as [-> (n & Hn & C')].
  pose proof C' as C''. apply lseg_cons in C'' as [Eb _].
  mstep (get_next_eq qs ns cs pl a n Hn). rewrite Eb.
  mstep (get_head_eq qs ns cs pl qa _ Hq). cbn [head].
  set (ls := a :: b :: rest) in *.
  set (k := λ x, default [] (text_of (Mem qs ns cs pl) x)).
  destruct Ho as [ND Fo].
  destruct (merge_sort_spec qs cs pl k fuel ns ls (Some a))
    as (ns' & r & ls' & Hm & Cr & R & P & So & Fi & _); [done | done | |].
  { intros x Hx. rewrite Forall_forall in Fo.
    destruct (Fo x Hx) as [tx Hx']. unfold k. now rewrite Hx'. }
  mstep Hm. mstep (set_head_eq qs ns' cs pl qa _ r Hq). cbn [head tail size].
  mstep (get_head_eq (<[qa := Queue r t sz]> qs) ns' cs pl qa _
           (lookup_insert_eq _ _ _)). cbn [head].
  destruct ls' as [|x ls'].
  { apply Permutation_nil in P. done. }
  pose proof Cr as Cr'. apply lseg_cons in Cr' as [-> _].
  assert (length (x :: ls') = length ls) as Hlen by now rewrite P.
  assert (length ls' < fuel)%nat as Hf'.
  { unfold ls in *. simpl in *. lia. }
  mstep (last_loop_spec (<[qa := Queue (Some x) t sz]> qs) cs pl ns' fuel ls' x
           Hf' Cr).
  rewrite (set_tail_eq _ ns' cs pl qa _ _ (lookup_insert_eq _ _ _)).
  rewrite insert_insert_eq. cbn [head tail size].
  eexists _, (x :: ls'). split; [reflexivity|]. cbn [queues nodes].
  rewrite lookup_insert_eq. cbn [head tail size].
  split.
  { split; [done|]. split; [lia|]. split; [done|]. split; [|exact Hmx].
    apply (owned_relinked ls qs _ ns ns' cs pl _); [exact R|].
    eapply owned_perm; [exact P | now split]. }
  split.
  { intros y. apply (text_of_relinked ls). exact R. }
  split; [done|]. split; [exact So|]. split; [|subst ls; simpl; lia].
  intros y. rewrite !with_text_key; [apply Fi | done | now rewrite P].
Qed.

(** ** Allocation and copying *)

Lemma fresh_nodes (ns : gmap loc list_ele_t) : ns !! fresh (dom ns) = None.
Proof. apply not_elem_of_dom. apply is_fresh. Qed.

Lemma fresh_chars (cs : gmap loc bytes) : cs !! fresh (dom cs) = None.
Proof. apply not_elem_of_dom. apply is_fresh. Qed.

(** The two requests of an insertion, whatever follows them. *)
Lemma alloc_stage {A} qs ns cs pl sz (K : ptr → ptr → M A) :
  (p1 <- malloc_ele ;; p2 <- malloc_chars sz ;; K p1 p2) (Mem qs ns cs pl) =
  let a := fresh (dom ns) in
  let v := fresh (dom cs) in
  let buf := replicate (Z.to_nat sz) NUL in
  match fails_at 0 pl, fails_at 1 pl with
  | false, false =>
      K (Some a) (Some v)
        (Mem qs (<[a := Ele None None]> ns) (<[v := buf]> cs) (drop 2 pl))
  | false, true =>
      K (Some a) None (Mem qs (<[a := Ele None None]> ns) cs (drop 2 pl))
  | true, false => K None (Some v) (Mem qs ns (<[v := buf]> cs) (drop 2 pl))
  | true, true => K None None (Mem qs ns cs (drop 2 pl))
  end.
Proof.
  unfold malloc_ele, malloc_chars, next_fails, bind, ret, fails_at.
  destruct pl as [|[|] [|[|] pl]]; reflexivity.
Qed.

Lemma snprintf_bytes_spec d sz b t :
  c_str b = Some t → 0 <= sz <= Z.of_nat (length d) →
  snprintf_bytes d sz b =
  Some (if sz =? 0 then d
        else let k := Z.to_nat (Z.min (Z.of_nat (length t)) (sz - 1)) in
             take k t ++ NUL :: drop (S k) d).
Proof.
  intros Ht Hsz. unfold snprintf_bytes. rewrite strlen_c_str, Ht. simpl.
  destruct (sz =? 0) eqn:E; [done|]. apply Z.eqb_neq in E.
  destruct (c_str_split _ _ Ht) as [r ->].
  rewrite decide_True by lia. rewrite take_app_le by lia. done.
Qed.

Lemma strlcpy_eq qs ns cs pl v sa b d sz d' :
  v ≠ sa → cs !! sa = Some b → cs !! v = Some d →
  snprintf_bytes d sz b = Some d' →
  strlcpy (Some v) (Some sa) sz (Mem qs ns cs pl) =
  Some (tt, Mem qs ns (<[v := d']> cs) pl).
Proof.
  intros Hne Hb Hd Hs. unfold strlcpy, load_chars, store_chars, bind, ret.
  cbn [chars]. rewrite Hb. cbn [chars].
  pose proof Hs as Hs'. unfold snprintf_bytes in Hs'.
  destruct (strlen b) as [len|]; [|done]. simpl in Hs'.
  destruct (sz =? 0) eqn:E.
  - injection Hs' as <-. now rewrite insert_id.
  - rewrite decide_False by congruence. cbn [chars]. rewrite Hd, Hs.
    cbn [chars]. now rewrite Hd.
Qed.

Lemma free_chars_eq qs ns cs pl v b :
  cs !! v = Some b →
  free_chars (Some v) (Mem qs ns cs pl) = Some (tt, Mem qs ns (delete v cs) pl).
Proof. intros H. unfold free_chars. cbn [chars]. now rewrite H. Qed.

Lemma free_ele_eq qs ns cs pl a n :
  ns !! a = Some n →
  free_ele (Some a) (Mem qs ns cs pl) = Some (tt, Mem qs (delete a ns) cs pl).
Proof. intros H. unfold free_ele. cbn [nodes]. now rewrite H. Qed.

(** ** Running the insertions *)

Section Insertions.
Context (qs : gmap loc queue_t) (ns : gmap loc list_ele_t)
        (cs : gmap loc bytes) (pl : list bool).
Context (qa sa : loc) (b t : bytes).
Hypothesis Hb : cs !! sa = Some b.
Hypothesis Ht : c_str b = Some t.

Let a : loc := fresh (dom ns).
Let v : loc := fresh (dom cs).

(** Either request failing: everything is released again. *)
Lemma q_insert_head_fail :
  fails_at 0 pl || fails_at 1 pl = true →
  q_insert_head (Some qa) (Some sa) (Mem qs ns cs pl) =
  Some (false, Mem qs ns cs (drop 2 pl)).
Proof.
  intros Hfail. unfold q_insert_head.
  mstep (c_strlen_eq qs ns cs pl sa b t Hb Ht).
  rewrite alloc_stage. cbv zeta.
  destruct (fails_at 0 pl), (fails_at 1 pl); try discriminate; cbv iota.
  - reflexivity.
  - unfold free_ele at 1. unfold bind at 1, ret at 1.
    rewrite (bind_Some _ _ _ _ _ (free_chars_eq _ _ _ _ _ _ (lookup_insert_eq _ _ _))).
    rewrite delete_insert_eq, delete_id by apply fresh_chars. reflexivity.
  - rewrite (bind_Some _ _ _ _ _ (free_ele_eq _ _ _ _ _ _ (lookup_insert_eq _ _ _))).
    rewrite delete_insert_eq, delete_id by apply fresh_nodes. reflexivity.
Qed.

Lemma q_insert_tail_fail :
  fails_at 0 pl || fails_at 1 pl = true →
  q_insert_tail (Some qa) (Some sa) (Mem qs ns cs pl) =
  Some (false, Mem qs ns cs (drop 2 pl)).
Proof.
  intros Hfail. unfold q_insert_tail.
  mstep (c_strlen_eq qs ns cs pl sa b t Hb Ht).
  rewrite alloc_stage. cbv zeta.
  destruct (fails_at 0 pl), (fails_at 1 pl); try discriminate; cbv iota.
  - reflexivity.
  - unfold free_ele at 1. unfold bind at 1, ret at 1.
    rewrite (bind_Some _ _ _ _ _ (free_chars_eq _ _ _ _ _ _ (lookup_insert_eq _ _ _))).
    rewrite delete_insert_eq, delete_id by apply fresh_chars. reflexivity.
  - rewrite (bind_Some _ _ _ _ _ (free_ele_eq _ _ _ _ _ _ (lookup_insert_eq _ _ _))).
    rewrite delete_insert_eq, delete_id by apply fresh_nodes. reflexivity.
Qed.

Hypothesis Hok0 : fails_at 0 pl = false.
Hypothesis Hok1 : fails_at 1 pl = false.

(** The steps behind the copy, for whatever bytes [w] the copy leaves in
    the new buffer. *)
Context (w : bytes).
Hypothesis Hcopy : ∀ ns' : gmap loc list_ele_t,
  strlcpy (Some v) (Some sa)
    (size_t_of_Z (int_of_Z (size_t_of_Z (Z.of_nat (length t) + 1))))
    (Mem qs ns'
       (<[v := replicate
                 (Z.to_nat
                    (size_t_of_Z
                       (1 * size_t_of_Z
                              (int_of_Z (size_t_of_Z (Z.of_nat (length t) + 1))))))
                 NUL]> cs)
       (drop 2 pl)) =
  Some (tt, Mem qs ns' (<[v := w]> cs) (drop 2 pl)).

Lemma q_insert_head_steps q :
  qs !! qa = Some q →
  q_insert_head (Some qa) (Some sa) (Mem qs ns cs pl) =
  Some (true,
        Mem (<[qa := Queue (Some a) (if size q =? 0 then Some a else tail q)
                       (int_of_Z (size q + 1))]> qs)
            (<[a := Ele (Some v) (head q)]> ns)
            (<[v := w]> cs)
            (drop 2 pl)).
Proof.
  intros Hq. unfold q_insert_head.
  mstep (c_strlen_eq qs ns cs pl sa b t Hb Ht).
  rewrite alloc_stage. cbv zeta. rewrite Hok0, Hok1. cbv iota. fold a v.
  mstep (Hcopy (<[a := Ele None None]> ns)).
  mstep (set_value_eq qs (<[a := Ele None None]> ns) (<[v := w]> cs)
           (drop 2 pl) a _ (Some v) (lookup_insert_eq _ _ _)).
  rewrite insert_insert_eq. cbn [next].
  mstep (get_head_eq qs (<[a := Ele (Some v) None]> ns) (<[v := w]> cs)
           (drop 2 pl) qa q Hq).
  mstep (set_next_eq qs (<[a := Ele (Some v) None]> ns) (<[v := w]> cs)
           (drop 2 pl) a _ (head q) (lookup_insert_eq _ _ _)).
  rewrite insert_insert_eq. cbn [value].
  mstep (set_head_eq qs (<[a := Ele (Some v) (head q)]> ns) (<[v := w]> cs)
           (drop 2 pl) qa q (Some a) Hq).
  mstep (get_size_eq (<[qa := Queue (Some a) (tail q) (size q)]> qs)
           (<[a := Ele (Some v) (head q)]> ns) (<[v := w]> cs)
           (drop 2 pl) qa _ (lookup_insert_eq _ _ _)).
  cbn [size]. destruct (size q =? 0).
  - mstep (set_tail_eq (<[qa := Queue (Some a) (tail q) (size q)]> qs)
             (<[a := Ele (Some v) (head q)]> ns) (<[v := w]> cs)
             (drop 2 pl) qa _ (Some a) (lookup_insert_eq _ _ _)).
    rewrite insert_insert_eq. cbn [head tail size].
    mstep (get_size_eq (<[qa := Queue (Some a) (Some a) (size q)]> qs)
             (<[a := Ele (Some v) (head q)]> ns) (<[v := w]> cs)
             (drop 2 pl) qa _ (lookup_insert_eq _ _ _)).
    mstep (set_size_eq (<[qa := Queue (Some a) (Some a) (size q)]> qs)
             (<[a := Ele (Some v) (head q)]> ns) (<[v := w]> cs)
             (drop 2 pl) qa _ (int_of_Z (size q + 1)) (lookup_insert_eq _ _ _)).
    rewrite insert_insert_eq. reflexivity.
  - unfold ret at 1. unfold bind at 1.
    mstep (get_size_eq (<[qa := Queue (Some a) (tail q) (size q)]> qs)
             (<[a := Ele (Some v) (head q)]> ns) (<[v := w]> cs)
             (drop 2 pl) qa _ (lookup_insert_eq _ _ _)).
    mstep (set_size_eq (<[qa := Queue (Some a) (tail q) (size q)]> qs)
             (<[a := Ele (Some v) (head q)]> ns) (<[v := w]> cs)
             (drop 2 pl) qa _ (int_of_Z (size q + 1)) (lookup_insert_eq _ _ _)).
    rewrite insert_insert_eq. reflexivity.
Qed.

(** At the tail of an empty queue. *)
Lemma q_insert_tail_steps_empty q :
  qs !! qa = Some q → size q = 0 →
  q_insert_tail (Some qa) (Some sa) (Mem qs ns cs pl) =
  Some (true,
        Mem (<[qa := Queue (Some a) (Some a) 1]> qs)
            (<[a := Ele (Some v) None]> ns)
            (<[v := w]> cs)
            (drop 2 pl)).
Proof.
  intros Hq Hz. unfold q_insert_tail.
  mstep (c_strlen_eq qs ns cs pl sa b t Hb Ht).
  rewrite alloc_stage. cbv zeta. rewrite Hok0, Hok1. cbv iota. fold a v.
  mstep (Hcopy (<[a := Ele None None]> ns)).
  mstep (set_value_eq qs (<[a := Ele None None]> ns) (<[v := w]> cs)
           (drop 2 pl) a _ (Some v) (lookup_insert_eq _ _ _)).
  rewrite insert_insert_eq. cbn [next].
  mstep (set_next_eq qs (<[a := Ele (Some v) None]> ns) (<[v := w]> cs)
           (drop 2 pl) a _ None (lookup_insert_eq _ _ _)).
  rewrite insert_insert_eq. cbn [value].
  mstep (get_size_eq qs (<[a := Ele (Some v) None]> ns) (<[v := w]> cs)
           (drop 2 pl) qa q Hq).
  rewrite Hz. cbn [Z.eqb].
  mstep (set_head_eq qs (<[a := Ele (Some v) None]> ns) (<[v := w]> cs)
           (drop 2 pl) qa q (Some a) Hq).
  mstep (set_tail_eq (<[qa := Queue (Some a) (tail q) (size q)]> qs)
           (<[a := Ele (Some v) None]> ns) (<[v := w]> cs)
           (drop 2 pl) qa _ (Some a) (lookup_insert_eq _ _ _)).
  rewrite insert_insert_eq. cbn [head tail size].
  mstep (get_size_eq (<[qa := Queue (Some a) (Some a) (size q)]> qs)
           (<[a := Ele (Some v) None]> ns) (<[v := w]> cs)
           (drop 2 pl) qa _ (lookup_insert_eq _ _ _)).
  mstep (set_size_eq (<[qa := Queue (Some a) (Some a) (size q)]> qs)
           (<[a := Ele (Some v) None]> ns) (<[v := w]> cs)
           (drop 2 pl) qa _ (int_of_Z (size q + 1)) (lookup_insert_eq _ _ _)).
  rewrite insert_insert_eq. cbn [size]. rewrite Hz. reflexivity.
Qed.

(** Behind the last element [tl] of a queue that has elements. *)
Lemma q_insert_tail_steps_last q tl ntl :
  qs !! qa = Some q → size q ≠ 0 → tail q = Some tl → ns !! tl = Some ntl →
  q_insert_tail (Some qa) (Some sa) (Mem qs ns cs pl) =
  Some (true,
        Mem (<[qa := Queue (head q) (Some a) (int_of_Z (size q + 1))]> qs)
            (<[tl := Ele (value ntl) (Some a)]> (<[a := Ele (Some v) None]> ns))
            (<[v := w]> cs)
            (drop 2 pl)).
Proof.
  intros Hq Hz Htl Hntl. unfold q_insert_tail.
  mstep (c_strlen_eq qs ns cs pl sa b t Hb Ht).
  rewrite alloc_stage. cbv zeta. rewrite Hok0, Hok1. cbv iota. fold a v.
  mstep (Hcopy (<[a := Ele None None]> ns)).
  mstep (set_value_eq qs (<[a := Ele None None]> ns) (<[v := w]> cs)
           (drop 2 pl) a _ (Some v) (lookup_insert_eq _ _ _)).
  rewrite insert_insert_eq. cbn [next].
  mstep (set_next_eq qs (<[a := Ele (Some v) None]> ns) (<[v := w]> cs)
           (drop 2 pl) a _ None (lookup_insert_eq _ _ _)).
  rewrite insert_insert_eq. cbn [value].
  mstep (get_size_eq qs (<[a := Ele (Some v) None]> ns) (<[v := w]> cs)
           (drop 2 pl) qa q Hq).
  rewrite (proj2 (Z.eqb_neq _ _) Hz).
  assert (tl ≠ a) as Hne.
  { intros E. pose proof (fresh_nodes ns) as F. fold a in F. congruence. }
  assert (<[a := Ele (Some v) None]> ns !! tl = Some ntl) as Hntl'.
  { rewrite lookup_insert_ne by done. exact Hntl. }
  rewrite bind_bind.
  mstep (get_tail_eq qs (<[a := Ele (Some v) None]> ns) (<[v := w]> cs)
           (drop 2 pl) qa q Hq).
  rewrite Htl.
  mstep (set_next_eq qs (<[a := Ele (Some v) None]> ns) (<[v := w]> cs)
           (drop 2 pl) tl ntl (Some a) Hntl').
  mstep (set_tail_eq qs
           (<[tl := Ele (value ntl) (Some a)]> (<[a := Ele (Some v) None]> ns))
           (<[v := w]> cs) (drop 2 pl) qa q (Some a) Hq).
  mstep (get_size_eq (<[qa := Queue (head q) (Some a) (size q)]> qs)
           (<[tl := Ele (value ntl) (Some a)]> (<[a := Ele (Some v) None]> ns))
           (<[v := w]> cs) (drop 2 pl) qa _ (lookup_insert_eq _ _ _)).
  mstep (set_size_eq (<[qa := Queue (head q) (Some a) (size q)]> qs)
           (<[tl := Ele (value ntl) (Some a)]> (<[a := Ele (Some v) None]> ns))
           (<[v := w]> cs) (drop 2 pl) qa _ (int_of_Z (size q + 1))
           (lookup_insert_eq _ _ _)).
  rewrite insert_insert_eq. reflexivity.
Qed.

End Insertions.

(** The copy of a text whose length fits the [int]: the new buffer holds
    the text and its terminator. *)
Section ExactCopy.
Context (qs : gmap loc queue_t) (ns : gmap loc list_ele_t)
        (cs : gmap loc bytes) (pl : list bool).
Context (qa sa : loc) (b t : bytes).
Hypothesis Hb : cs !! sa = Some b.
Hypothesis Ht : c_str b = Some t.

Let a : loc := fresh (dom ns).
Let v : loc := fresh (dom cs).

Hypothesis Hlen : Z.of_nat (length t) + 1 <= INT_MAX.
Hypothesis Hok0 : fails_at 0 pl = false.
Hypothesis Hok1 : fails_at 1 pl = false.

(** The copy fills the new buffer exactly. *)
Lemma copy_stage (ns' : gmap loc list_ele_t) :
  strlcpy (Some v) (Some sa)
    (size_t_of_Z (int_of_Z (size_t_of_Z (Z.of_nat (length t) + 1))))
    (Mem qs ns'
       (<[v := replicate
                 (Z.to_nat
                    (size_t_of_Z
                       (1 * size_t_of_Z
                              (int_of_Z (size_t_of_Z (Z.of_nat (length t) + 1))))))
                 NUL]> cs)
       (drop 2 pl)) =
  Some (tt, Mem qs ns' (<[v := t ++ [NUL]]> cs) (drop 2 pl)).
Proof.
  rewrite strLen_exact by exact Hlen.
  rewrite Z.mul_1_l, size_t_of_Z_id by (unfold SIZE_MAX, INT_MAX in *; lia).
  assert (v ≠ sa) as Hne.
  { intros E. pose proof (fresh_chars cs) as F. fold v in F. congruence. }
  erewrite strlcpy_eq; [|exact Hne | | apply lookup_insert_eq |].
  - rewrite insert_insert_eq. reflexivity.
  - rewrite lookup_insert_ne by exact Hne. exact Hb.
  - rewrite (snprintf_bytes_spec _ _ b t Ht).
    + rewrite (proj2 (Z.eqb_neq _ 0)) by lia. cbv zeta.
      replace (Z.to_nat (Z.of_nat (length t) `min` (Z.of_nat (length t) + 1 - 1)))
        with (length t) by lia.
      rewrite firstn_all. rewrite drop_ge; [done|].
      rewrite length_replicate. lia.
    + rewrite length_replicate. lia.
Qed.

Lemma q_insert_head_run q :
  qs !! qa = Some q →
  q_insert_head (Some qa) (Some sa) (Mem qs ns cs pl) =
  Some (true,
        Mem (<[qa := Queue (Some a) (if size q =? 0 then Some a else tail q)
                       (int_of_Z (size q + 1))]> qs)
            (<[a := Ele (Some v) (head q)]> ns)
            (<[v := t ++ [NUL]]> cs)
            (drop 2 pl)).
Proof.
  exact (q_insert_head_steps qs ns cs pl qa sa b t Hb Ht Hok0 Hok1
           (t ++ [NUL]) copy_stage q).
Qed.

(** At the tail of an empty queue. *)
Lemma q_insert_tail_run_empty q :
  qs !! qa = Some q → size q = 0 →
  q_insert_tail (Some qa) (Some sa) (Mem qs ns cs pl) =
  Some (true,
        Mem (<[qa := Queue (Some a) (Some a) 1]> qs)
            (<[a := Ele (Some v) None]> ns)
            (<[v := t ++ [NUL]]> cs)
            (drop 2 pl)).
Proof.
  exact (q_insert_tail_steps_empty qs ns cs pl qa sa b t Hb Ht Hok0 Hok1
           (t ++ [NUL]) copy_stage q).
Qed.

(** Behind the last element [tl] of a queue that has elements. *)
Lemma q_insert_tail_run_last q tl ntl :
  qs !! qa = Some q → size q ≠ 0 → tail q = Some tl → ns !! tl = Some ntl →
  q_insert_tail (Some qa) (Some sa) (Mem qs ns cs pl) =
  Some (true,
        Mem (<[qa := Queue (head q) (Some a) (int_of_Z (size q + 1))]> qs)
            (<[tl := Ele (value ntl) (Some a)]> (<[a := Ele (Some v) None]> ns))
            (<[v := t ++ [NUL]]> cs)
            (drop 2 pl)).
Proof.
  exact (q_insert_tail_steps_last qs ns cs pl qa sa b t Hb Ht Hok0 Hok1
           (t ++ [NUL]) copy_stage q tl ntl).
Qed.

End ExactCopy.

(** The copy of any text whose [strLen] is positive: the new buffer has
    [strLen] bytes, and the copy leaves in it the first [strLen - 1] bytes
    of the text and a terminator. *)
Section CutCopy.
Context (qs : gmap loc queue_t) (ns : gmap loc list_ele_t)
        (cs : gmap loc bytes) (pl : list bool).
Context (qa sa : loc) (b t : bytes).
Hypothesis Hb : cs !! sa = Some b.
Hypothesis Ht : c_str b = Some t.

Let a : loc := fresh (dom ns).
Let v : loc := fresh (dom cs).

Hypothesis Hpos : 1 <= strLen_of (length t).
Hypothesis Hok0 : fails_at 0 pl = false.
Hypothesis Hok1 : fails_at 1 pl = false.

Lemma copy_stage_cut (ns' : gmap loc list_ele_t) :
  strlcpy (Some v) (Some sa)
    (size_t_of_Z (int_of_Z (size_t_of_Z (Z.of_nat (length t) + 1))))
    (Mem qs ns'
       (<[v := replicate
                 (Z.to_nat
                    (size_t_of_Z
                       (1 * size_t_of_Z
                              (int_of_Z (size_t_of_Z (Z.of_nat (length t) + 1))))))
                 NUL]> cs)
       (drop 2 pl)) =
  Some (tt, Mem qs ns'
              (<[v := take (Z.to_nat (strLen_of (length t) - 1)) t ++ [NUL]]> cs)
              (drop 2 pl)).
Proof.
  pose proof (strLen_of_le (length t)) as Hle.
  pose proof (int_of_Z_range (size_t_of_Z (Z.of_nat (length t) + 1))) as Hr.
  unfold strLen_of in *.
  set (L := int_of_Z (size_t_of_Z (Z.of_nat (length t) + 1))) in *.
  rewrite (size_t_of_Z_id L) by (unfold SIZE_MAX, INT_MAX in *; lia).
  rewrite Z.mul_1_l, (size_t_of_Z_id L) by (unfold SIZE_MAX, INT_MAX in *; lia).
  assert (v ≠ sa) as Hne.
  { intros E. pose proof (fresh_chars cs) as F. fold v in F. congruence. }
  erewrite strlcpy_eq; [|exact Hne | | apply lookup_insert_eq |].
  - rewrite insert_insert_eq. reflexivity.
  - rewrite lookup_insert_ne by exact Hne. exact Hb.
  - rewrite (snprintf_bytes_spec _ _ b t Ht).
    + rewrite (proj2 (Z.eqb_neq _ 0)) by lia. cbv zeta.
      replace (Z.to_nat (Z.of_nat (length t) `min` (L - 1)))
        with (Z.to_nat (L - 1)) by lia.
      rewrite drop_ge; [done|].
      rewrite length_replicate. lia.
    + rewrite length_replicate. lia.
Qed.

Lemma q_insert_head_run_cut q :
  qs !! qa = Some q →
  q_insert_head (Some qa) (Some sa) (Mem qs ns cs pl) =
  Some (true,
        Mem (<[qa := Queue (Some a) (if size q =? 0 then Some a else tail q)
                       (int_of_Z (size q + 1))]> qs)
            (<[a := Ele (Some v) (head q)]> ns)
            (<[v := take (Z.to_nat (strLen_of (length t) - 1)) t ++ [NUL]]> cs)
            (drop 2 pl)).
Proof.
  exact (q_insert_head_steps qs ns cs pl qa sa b t Hb Ht Hok0 Hok1
           _ copy_stage_cut q).
Qed.

Lemma q_insert_tail_run_cut_empty q :
  qs !! qa = Some q → size q = 0 →
  q_insert_tail (Some qa) (Some sa) (Mem qs ns cs pl) =
  Some (true,
        Mem (<[qa := Queue (Some a) (Some a) 1]> qs)
            (<[a := Ele (Some v) None]> ns)
            (<[v := take (Z.to_nat (strLen_of (length t) - 1)) t ++ [NUL]]> cs)
            (drop 2 pl)).
Proof.
  exact (q_insert_tail_steps_empty qs ns cs pl qa sa b t Hb Ht Hok0 Hok1
           _ copy_stage_cut q).
Qed.

End CutCopy.

(** ** The queue after an insertion *)

Lemma chain_lookup ns ls : ∀ p x, chain ns p ls → x ∈ ls → is_Some (ns !! x).
Proof.
  induction ls as [|a ls IH]; intros p x C Hx; [inversion Hx|].
  apply lseg_cons in C as [-> (n & Hn & C)].
  apply elem_of_cons in Hx as [->|Hx]; [eauto | eapply IH; eauto].
Qed.

(** New objects do not disturb the payloads that exist. *)
Lemma payload_frame qs qs' ns cs pl pl' a n v d x :
  ns !! a = None → cs !! v = None →
  is_Some (text_of (Mem qs ns cs pl) x) →
  value_of (Mem qs' (<[a := n]> ns) (<[v := d]> cs) pl') x =
    value_of (Mem qs ns cs pl) x ∧
  text_of (Mem qs' (<[a := n]> ns) (<[v := d]> cs) pl') x =
    text_of (Mem qs ns cs pl) x.
Proof.
  intros Ha Hv [t Ht].
  apply text_of_inv in Ht as (nx & vx & bx & Hnx & Hvx & Hbx & Hcx).
  assert (a ≠ x) by congruence. assert (v ≠ vx) by congruence.
  unfold text_of, buffer_of, value_of. cbn [nodes chars].
  rewrite lookup_insert_ne by done. rewrite Hnx. cbn. rewrite Hvx. cbn.
  now rewrite lookup_insert_ne by done.
Qed.

Lemma owned_frame qs qs' ns cs pl pl' a n v d ls :
  ns !! a = None → cs !! v = None →
  owned (Mem qs ns cs pl) ls →
  owned (Mem qs' (<[a := n]> ns) (<[v := d]> cs) pl') ls.
Proof.
  intros Ha Hv Ho. eapply owned_agree; [|exact Ho].
  intros x Hx. apply payload_frame; [done | done |].
  destruct Ho as [_ F]. rewrite Forall_forall in F. auto.
Qed.

(** The payload pointer of an element that has a text is allocated. *)
Lemma owned_value_allocated qs ns cs pl ls v :
  owned (Mem qs ns cs pl) ls → cs !! v = None →
  Some v ∉ value_of (Mem qs ns cs pl) <$> ls.
Proof.
  intros [_ F] Hv Hin. apply list_elem_of_fmap in Hin as (x & Hx & Hin).
  rewrite Forall_forall in F. destruct (F x Hin) as [t Ht].
  apply text_of_inv in Ht as (nx & vx & bx & Hnx & Hvx & Hbx & _).
  unfold value_of in Hx. cbn [nodes] in Hx. rewrite Hnx in Hx. cbn in Hx.
  congruence.
Qed.

Lemma new_payload qs ns cs pl a v p t :
  Forall (λ c, is_nul c = false) t →
  value_of (Mem qs (<[a := Ele (Some v) p]> ns) (<[v := t ++ [NUL]]> cs) pl) a
    = Some v ∧
  text_of (Mem qs (<[a := Ele (Some v) p]> ns) (<[v := t ++ [NUL]]> cs) pl) a
    = Some t.
Proof.
  intros Hnn. unfold text_of, buffer_of, value_of. cbn [nodes chars].
  rewrite lookup_insert_eq. cbn. rewrite lookup_insert_eq. cbn.
  split; [done|]. now apply c_str_app_nul.
Qed.

Lemma last_cons_ne {A} (x : A) l : l ≠ [] → last (x :: l) = last l.
Proof. destruct l; [done|]. intros _. apply last_cons_cons. Qed.

Lemma q_insert_head_spec m qa ls sa t :
  queue_rep m qa ls → text_at m (Some sa) = Some t →
  Z.of_nat (length t) + 1 <= INT_MAX →
  fails_at 0 (plan m) = false → fails_at 1 (plan m) = false →
  Z.of_nat (length ls) < INT_MAX →
  let a := fresh (dom (nodes m)) in
  let v := fresh (dom (chars m)) in
  ∃ m', q_insert_head (Some qa) (Some sa) m = Some (true, m') ∧
        queue_rep m' qa (a :: ls) ∧
        text_of m' a = Some t ∧ value_of m' a = Some v ∧
        (∀ x, x ∈ ls → text_of m' x = text_of m x) ∧
        chars m' = <[v := t ++ [NUL]]> (chars m) ∧
        plan m' = drop 2 (plan m).
Proof.
  destruct m as [qs ns cs pl]. unfold queue_rep, text_at. cbn [queues nodes chars plan].
  destruct (qs !! qa) as [q|] eqn:Hq; [|done].
  intros (C & Hsz & Htl & Ho & Hmx). cbn.
  destruct (cs !! sa) as [b|] eqn:Hb; [|done]. cbn. intros Ht Hlen Hok0 Hok1 Hcnt.
  set (a := fresh (dom ns)). set (v := fresh (dom cs)).
  pose proof (fresh_nodes ns) as Fa. pose proof (fresh_chars cs) as Fv.
  fold a in Fa. fold v in Fv.
  assert (a ∉ ls) as Ha.
  { intros Hin. destruct (chain_lookup _ _ _ _ C Hin). congruence. }
  pose proof (c_str_no_nul _ _ Ht) as Hnn.
  eexists. split; [apply (q_insert_head_run qs ns cs pl qa sa b t Hb Ht Hlen Hok0 Hok1 q Hq)|].
  rewrite (int_of_Z_id (size q + 1)) by (unfold INT_MAX in *; lia).
  fold a v. cbn [queues nodes chars plan]. rewrite lookup_insert_eq.
  cbn [head tail size].
  destruct (new_payload (<[qa := Queue (Some a) (if size q =? 0 then Some a else tail q)
                                   (size q + 1)]> qs) ns cs (drop 2 pl) a v (head q) t Hnn)
    as [Hval Htxt].
  split; [|split; [exact Htxt|split; [exact Hval|split; [|done]]]].
  - split.
    { apply lseg_cons. split; [done|]. eexists. split; [apply lookup_insert_eq|].
      cbn [next]. now apply lseg_insert. }
    split; [simpl; lia|]. split.
    { intros _. destruct ls as [|x ls].
      - simpl in Hsz. rewrite Hsz. done.
      - rewrite last_cons_ne by done. rewrite <- Htl by done.
        simpl in Hsz. rewrite (proj2 (Z.eqb_neq (size q) 0)) by lia. done. }
    split; [|lia].
    apply owned_cons. split; [|split].
    + rewrite Hval. intros Hin.
      apply (owned_value_allocated qs ns cs pl ls v Ho Fv).
      erewrite list_fmap_ext; [exact Hin|]. intros i x Hx. symmetry.
      apply (payload_frame qs _ ns cs pl _); [done | done |].
      destruct Ho as [_ F]. rewrite Forall_forall in F.
      apply F. eapply list_elem_of_lookup_2. exact Hx.
    + rewrite Htxt. eauto.
    + now apply (owned_frame qs _ ns cs pl _).
  - intros x Hx. apply (payload_frame qs _ ns cs pl _); [done | done |].
    destruct Ho as [_ F]. rewrite Forall_forall in F. auto.
Qed.

Lemma owned_new qs qs' ns cs pl pl' a v p t ls :
  owned (Mem qs ns cs pl) ls → ns !! a = None → cs !! v = None →
  Forall (λ c, is_nul c = false) t →
  owned (Mem qs' (<[a := Ele (Some v) p]> ns) (<[v := t ++ [NUL]]> cs) pl')
        (a :: ls).
Proof.
  intros Ho Fa Fv Hnn.
  destruct (new_payload qs' ns cs pl' a v p t Hnn) as [Hval Htxt].
  apply owned_cons. split; [|split].
  - rewrite Hval. intros Hin.
    apply (owned_value_allocated qs ns cs pl ls v Ho Fv).
    erewrite list_fmap_ext; [exact Hin|]. intros i x Hx. symmetry.
    apply (payload_frame qs _ ns cs pl _); [done | done |].
    destruct Ho as [_ F]. rewrite Forall_forall in F.
    apply F. eapply list_elem_of_lookup_2. exact Hx.
  - rewrite Htxt. eauto.
  - now apply (owned_frame qs _ ns cs pl _).
Qed.

Lemma q_insert_tail_spec m qa ls sa t :
  queue_rep m qa ls → text_at m (Some sa) = Some t →
  Z.of_nat (length t) + 1 <= INT_MAX →
  fails_at 0 (plan m) = false → fails_at 1 (plan m) = false →
  Z.of_nat (length ls) < INT_MAX →
  let a := fresh (dom (nodes m)) in
  let v := fresh (dom (chars m)) in
  ∃ m', q_insert_tail (Some qa) (Some sa) m = Some (true, m') ∧
        queue_rep m' qa (ls ++ [a]) ∧
        text_of m' a = Some t ∧ value_of m' a = Some v ∧
        (∀ x, x ∈ ls → text_of m' x = text_of m x) ∧
        chars m' = <[v := t ++ [NUL]]> (chars m) ∧
        plan m' = drop 2 (plan m).
Proof.
  destruct m as [qs ns cs pl]. unfold queue_rep, text_at. cbn [queues nodes chars plan].
  destruct (qs !! qa) as [q|] eqn:Hq; [|done].
  intros (C & Hsz & Htl & Ho & Hmx). cbn.
  destruct (cs !! sa) as [b|] eqn:Hb; [|done]. cbn. intros Ht Hlen Hok0 Hok1 Hcnt.
  set (a := fresh (dom ns)). set (v := fresh (dom cs)).
  pose proof (fresh_nodes ns) as Fa. pose proof (fresh_chars cs) as Fv.
  fold a in Fa. fold v in Fv.
  assert (a ∉ ls) as Ha.
  { intros Hin. destruct (chain_lookup _ _ _ _ C Hin). congruence. }
  pose proof (c_str_no_nul _ _ Ht) as Hnn.
  assert (∀ qs' pl' x, x ∈ ls →
            text_of (Mem qs' (<[a := Ele (Some v) None]> ns)
                       (<[v := t ++ [NUL]]> cs) pl') x =
            text_of (Mem qs ns cs pl) x) as Hframe.
  { intros qs' pl' x Hx. apply (payload_frame qs _ ns cs pl _); [done | done |].
    destruct Ho as [_ F]. rewrite Forall_forall in F. auto. }
  destruct (decide (ls = [])) as [->|Hne].
  - apply chain_nil in C. simpl in Hsz.
    eexists. split;
      [apply (q_insert_tail_run_empty qs ns cs pl qa sa b t Hb Ht Hlen Hok0 Hok1 q Hq Hsz)|].
    fold a v. cbn [queues nodes chars plan]. rewrite lookup_insert_eq.
    cbn [head tail size].
    destruct (new_payload (<[qa := Queue (Some a) (Some a) 1]> qs) ns cs
                (drop 2 pl) a v None t Hnn) as [Hval Htxt].
    split; [|split; [exact Htxt|split; [exact Hval|split; [|done]]]].
    + split.
      { apply lseg_cons. split; [done|]. eexists. split; [apply lookup_insert_eq|].
        done. }
      split; [done|]. split; [done|]. split; [|unfold INT_MAX; lia].
      now apply (owned_new qs _ ns cs pl _).
    + intros x Hx. inversion Hx.
  - specialize (Htl Hne).
    destruct (proj2 (last_is_Some ls) Hne) as [tl Hlast].
    rewrite Hlast in Htl.
    apply last_Some in Hlast as [l0 ->].
    pose proof (chain_NoDup _ _ _ C) as ND.
    apply NoDup_app in ND as (_ & ND & _).
    apply lseg_snoc in C as (C0 & ntl & Hntl & Hnx).
    assert (size q ≠ 0) as Hnz.
    { rewrite Hsz, length_app. simpl. lia. }
    eexists. split;
      [apply (q_insert_tail_run_last qs ns cs pl qa sa b t Hb Ht Hlen Hok0 Hok1
                q tl ntl Hq Hnz Htl Hntl)|].
    rewrite (int_of_Z_id (size q + 1)) by (unfold INT_MAX in *; lia).
    fold a v. cbn [queues nodes chars plan]. rewrite lookup_insert_eq.
    cbn [head tail size].
    assert (tl ≠ a) as Hta by congruence.
    set (ns1 := <[a := Ele (Some v) None]> ns).
    assert (ns1 !! tl = Some ntl) as Hntl1.
    { unfold ns1. now rewrite lookup_insert_ne. }
    pose proof (relinked_set_next [tl] ns1 tl ntl (Some a) Hntl1
                  ltac:(left)) as R.
    set (qs' := <[qa := Queue (head q) (Some a) (size q + 1)]> qs).
    destruct (new_payload qs' ns cs (drop 2 pl) a v None t Hnn) as [Hval Htxt].
    fold ns1 in Hval, Htxt.
    split; [|split; [|split; [|split; [|done]]]].
    + split.
      { apply lseg_snoc. split.
        - apply lseg_snoc. split.
          + apply lseg_insert; [intros Hin; eapply ND; [exact Hin | left]|].
            apply lseg_insert; [|done].
            intros Hin. apply Ha. apply elem_of_app. now left.
          + eexists. split; [apply lookup_insert_eq | done].
        - exists (Ele (Some v) None). split; [|done].
          rewrite lookup_insert_ne by done. apply lookup_insert_eq. }
      split; [rewrite length_app; simpl; lia|]. split.
      { intros _. now rewrite last_snoc. }
      split; [|lia].
      eapply owned_perm; [symmetry; apply Permutation_cons_append|].
      apply (owned_relinked [tl] qs' _ ns1 _ _ (drop 2 pl) _ _ R).
      now apply (owned_new qs _ ns cs pl _).
    + rewrite (text_of_relinked [tl] qs' _ ns1 _ _ (drop 2 pl) _ _ R). exact Htxt.
    + rewrite (value_of_relinked [tl] qs' _ ns1 _ _ (drop 2 pl) _ _ R). exact Hval.
    + intros x Hx.
      rewrite (text_of_relinked [tl] qs' _ ns1 _ _ (drop 2 pl) _ _ R).
      now apply Hframe.
Qed.

(** ** Running the removal *)

(** The size handed to the copy never exceeds what the caller announced. *)
Lemma realBufSize_range bufsize z :
  0 <= bufsize →
  0 <= (if bufsize >? size_t_of_Z z then size_t_of_Z z else bufsize) <= bufsize.
Proof.
  intros H. pose proof (size_t_of_Z_nonneg z).
  destruct (Z.gtb_spec bufsize (size_t_of_Z z)); lia.
Qed.

(** For a payload whose length fits an [int] it is the smaller of the
    announced capacity and the length with its terminator. *)
Lemma realBufSize_exact bufsize (n : nat) :
  Z.of_nat n + 1 <= INT_MAX →
  (if bufsize >? size_t_of_Z (int_of_Z (size_t_of_Z (Z.of_nat n + 1)))
   then size_t_of_Z (int_of_Z (size_t_of_Z (Z.of_nat n + 1)))
   else bufsize) = Z.min bufsize (Z.of_nat n + 1).
Proof.
  intros H. rewrite strLen_exact by exact H.
  destruct (Z.gtb_spec bufsize (Z.of_nat n + 1)); lia.
Qed.

Lemma q_remove_head_run qs ns cs pl qa q a n v b t spa d bufsize :
  qs !! qa = Some q → head q = Some a →
  ns !! a = Some n → value n = Some v →
  cs !! v = Some b → c_str b = Some t →
  cs !! spa = Some d → spa ≠ v →
  0 <= bufsize <= Z.of_nat (length d) →
  let strLen := int_of_Z (size_t_of_Z (Z.of_nat (length t) + 1)) in
  let realBufSize :=
    if bufsize >? size_t_of_Z strLen then size_t_of_Z strLen else bufsize in
  ∃ d', snprintf_bytes d realBufSize b = Some d' ∧
    q_remove_head (Some qa) (Some spa) bufsize (Mem qs ns cs pl) =
    Some (true,
          Mem (<[qa := Queue (next n) (tail q) (int_of_Z (size q - 1))]> qs)
              (delete a ns)
              (delete v (<[spa := d']> cs))
              pl).
Proof.
  intros Hq Hh Hn Hv Hb Ht Hd Hne Hbs strLen realBufSize.
  pose proof (realBufSize_range bufsize strLen (proj1 Hbs)) as Hr.
  fold realBufSize in Hr.
  pose proof (snprintf_bytes_spec d realBufSize b t Ht ltac:(lia)) as Hs.
  eexists. split; [exact Hs|].
  unfold q_remove_head.
  mstep (get_head_eq qs ns cs pl qa q Hq). rewrite Hh. cbv zeta.
  mstep (get_value_eq qs ns cs pl a n Hn). rewrite Hv.
  mstep (c_strlen_eq qs ns cs pl v b t Hb Ht).
  mstep (get_value_eq qs ns cs pl a n Hn). rewrite Hv.
  fold strLen. fold realBufSize.
  mstep (strlcpy_eq qs ns cs pl spa v b d realBufSize _ Hne Hb Hd Hs).
  match goal with |- context [<[spa := ?x]> cs] => set (d' := x) end.
  mstep (get_head_eq qs ns (<[spa := d']> cs) pl qa q Hq). rewrite Hh.
  mstep (get_next_eq qs ns (<[spa := d']> cs) pl a n Hn).
  mstep (set_head_eq qs ns (<[spa := d']> cs) pl qa q (next n) Hq).
  mstep (get_size_eq (<[qa := Queue (next n) (tail q) (size q)]> qs) ns
           (<[spa := d']> cs) pl qa _ (lookup_insert_eq _ _ _)).
  mstep (set_size_eq (<[qa := Queue (next n) (tail q) (size q)]> qs) ns
           (<[spa := d']> cs) pl qa _ (int_of_Z (size q - 1))
           (lookup_insert_eq _ _ _)).
  rewrite insert_insert_eq. cbn [head tail size].
  set (qs' := <[qa := Queue (next n) (tail q) (int_of_Z (size q - 1))]> qs).
  mstep (get_value_eq qs' ns (<[spa := d']> cs) pl a n Hn). rewrite Hv.
  assert (<[spa := d']> cs !! v = Some b) as Hb'.
  { rewrite lookup_insert_ne by done. exact Hb. }
  mstep (free_chars_eq qs' ns (<[spa := d']> cs) pl v b Hb').
  mstep (free_ele_eq qs' ns (delete v (<[spa := d']> cs)) pl a n Hn).
  reflexivity.
Qed.

(** The queue after the removal of its first element. *)
Lemma q_remove_head_spec m qa a ls spa d bufsize :
  queue_rep m qa (a :: ls) →
  chars m !! spa = Some d →
  Some spa ∉ value_of m <$> (a :: ls) →
  0 <= bufsize <= Z.of_nat (length d) →
  ∃ m' q b t d',
    queues m !! qa = Some q ∧
    buffer_of m a = Some b ∧ c_str b = Some t ∧
    snprintf_bytes d
      (let strLen := int_of_Z (size_t_of_Z (Z.of_nat (length t) + 1)) in
       if bufsize >? size_t_of_Z strLen then size_t_of_Z strLen else bufsize)
      b = Some d' ∧
    q_remove_head (Some qa) (Some spa) bufsize m = Some (true, m') ∧
    queue_rep m' qa ls ∧
    (∀ x, x ∈ ls → text_of m' x = text_of m x) ∧
    chars m' !! spa = Some d' ∧
    nodes m' = delete a (nodes m) ∧
    queues m' !! qa = Some (Queue (hd_error ls) (tail q) (size q - 1)) ∧
    plan m' = plan m.
Proof.
  destruct m as [qs ns cs pl]. unfold queue_rep. cbn [queues nodes chars plan].
  destruct (qs !! qa) as [q|] eqn:Hq; [|done].
  intros (C & Hsz & Htl & Ho & Hmx) Hd Hsp Hbs.
  pose proof (chain_NoDup _ _ _ C) as ND. apply NoDup_cons in ND as [Ha ND].
  apply lseg_cons in C as [Hh (n & Hn & C)].
  apply owned_cons in Ho as (Hva & [t Ht] & Ho).
  pose proof Ht as Ht'.
  apply text_of_inv in Ht' as (n' & v & b & Hn' & Hv & Hb & Hc).
  rewrite Hn in Hn'. injection Hn' as <-.
  assert (value_of (Mem qs ns cs pl) a = Some v) as Hval.
  { unfold value_of. cbn [nodes]. rewrite Hn. exact Hv. }
  assert (spa ≠ v) as Hne.
  { intros ->. apply Hsp. rewrite fmap_cons, Hval. left. }
  destruct (q_remove_head_run qs ns cs pl qa q a n v b t spa d bufsize
              Hq Hh Hn Hv Hb Hc Hd Hne Hbs) as (d' & Hs & Hrun).
  rewrite (int_of_Z_id (size q - 1)) in Hrun
    by (simpl in Hsz; unfold INT_MAX in *; lia).
  exists (Mem (<[qa := Queue (next n) (tail q) (size q - 1)]> qs)
              (delete a ns) (delete v (<[spa := d']> cs)) pl), q, b, t, d'.
  cbn [queues nodes chars plan]. rewrite lookup_insert_eq. cbn [head tail size].
  assert (∀ x, x ∈ ls →
            value_of (Mem (<[qa := Queue (next n) (tail q) (size q - 1)]> qs)
                        (delete a ns) (delete v (<[spa := d']> cs)) pl) x =
              value_of (Mem qs ns cs pl) x ∧
            text_of (Mem (<[qa := Queue (next n) (tail q) (size q - 1)]> qs)
                       (delete a ns) (delete v (<[spa := d']> cs)) pl) x =
              text_of (Mem qs ns cs pl) x) as Hframe.
  { intros x Hx. assert (a ≠ x) as Hax by congruence.
    destruct Ho as [NDv F]. rewrite Forall_forall in F.
    destruct (F x Hx) as [tx Htx].
    apply text_of_inv in Htx as (nx & vx & bx & Hnx & Hvx & Hbx & Hcx).
    assert (value_of (Mem qs ns cs pl) x = Some vx) as Hvalx.
    { unfold value_of. cbn [nodes]. rewrite Hnx. exact Hvx. }
    assert (v ≠ vx) as Hvv.
    { intros ->. apply Hva. rewrite Hval, <- Hvalx.
      now apply list_elem_of_fmap_2. }
    assert (spa ≠ vx) as Hsv.
    { intros ->. apply Hsp. rewrite fmap_cons. right. rewrite <- Hvalx.
      now apply list_elem_of_fmap_2. }
    unfold text_of, buffer_of, value_of. cbn [nodes chars].
    rewrite lookup_delete_ne by done. rewrite Hnx. cbn. rewrite Hvx. cbn.
    rewrite lookup_delete_ne by done. now rewrite lookup_insert_ne by done. }
  split; [done|]. split.
  { unfold buffer_of. rewrite Hval. exact Hb. }
  split; [exact Hc|]. split; [exact Hs|]. split; [exact Hrun|].
  split; [|split; [|split; [|split; [done|split; [|done]]]]].
  - split.
    { eapply lseg_agree; [|exact C]. intros x Hx.
      apply lookup_delete_ne. congruence. }
    split; [simpl in Hsz; lia|]. split.
    { intros Hne'. rewrite Htl by done. now apply last_cons_ne. }
    split; [|lia].
    eapply owned_agree; [exact Hframe | exact Ho].
  - intros x Hx. now apply Hframe.
  - rewrite lookup_delete_ne by done. apply lookup_insert_eq.
  - do 2 f_equal. destruct ls as [|x ls]; [exact C|].
    apply lseg_cons in C as [-> _]. done.
Qed.

(** ** The claims about reversal and sorting *)

Lemma texts_agree m m' ls :
  (∀ a, text_of m' a = text_of m a) → texts m' ls = texts m ls.
Proof. intros H. unfold texts. apply list_fmap_ext. intros i a _. apply H. Qed.

(** C9: reversing twice gives back the sequence of payloads of the queue,
    and reversing an absent or an empty queue changes nothing. *)
Theorem q_reverse_involution m q ls (fuel : nat) :
  queue_is m q ls → (length ls < fuel)%nat →
  ∃ m1 m2,
    q_reverse fuel q m = Some (tt, m1) ∧
    q_reverse fuel q m1 = Some (tt, m2) ∧
    queue_is m1 q (reverse ls) ∧
    queue_is m2 q ls ∧
    texts m1 (reverse ls) = reverse (texts m ls) ∧
    texts m2 ls = texts m ls ∧
    (ls = [] → m1 = m).
Proof.
  destruct q as [qa|]; cbn [queue_is].
  - intros R Hf.
    destruct (q_reverse_spec m qa ls fuel R Hf) as (m1 & H1 & R1 & T1 & E1).
    destruct (q_reverse_spec m1 qa (reverse ls) fuel R1) as (m2 & H2 & R2 & T2 & _).
    { now rewrite length_reverse. }
    rewrite reverse_involutive in R2.
    exists m1, m2. repeat split; try done.
    + rewrite (texts_agree m m1) by done. unfold texts. now rewrite fmap_reverse.
    + apply texts_agree. intros a. now rewrite T2, T1.
  - intros -> _. exists m, m. repeat split; done.
Qed.

Lemma q_reverse_involution_witness :
  let m := Mem (<[1%positive := Queue (Some 1%positive) (Some 2%positive) 2]> ∅)
               (<[1%positive := Ele (Some 1%positive) (Some 2%positive)]>
                  (<[2%positive := Ele (Some 2%positive) None]> ∅))
               (<[1%positive := cbuf "b"]> (<[2%positive := cbuf "a"]> ∅)) [] in
  ∃ m1 m2,
    q_reverse 3 (Some 1%positive) m = Some (tt, m1) ∧
    q_reverse 3 (Some 1%positive) m1 = Some (tt, m2) ∧
    queue_is m1 (Some 1%positive) (reverse [1%positive; 2%positive]) ∧
    queue_is m2 (Some 1%positive) [1%positive; 2%positive] ∧
    texts m1 (reverse [1%positive; 2%positive]) =
      reverse (texts m [1%positive; 2%positive]) ∧
    texts m2 [1%positive; 2%positive] = texts m [1%positive; 2%positive] ∧
    ([1%positive; 2%positive] = [] → m1 = m).
Proof.
  intros m. apply (q_reverse_involution m (Some 1%positive)).
  - apply (bool_decide_unpack _). vm_compute. exact I.
  - simpl. lia.
Defined.

Lemma Sorted_restrict {A} (P : A → Prop) (R R' : A → A → Prop) l :
  Forall P l → (∀ a b, P a → P b → R a b → R' a b) →
  Sorted R l → Sorted R' l.
Proof.
  intros F H S. induction S as [|a l S IH Hd]; [constructor|].
  apply Forall_cons in F as [Pa F]. constructor; [now apply IH|].
  destruct Hd as [|b l' Hab]; constructor.
  apply Forall_cons in F as [Pb _]. now apply H.
Qed.

(** The order of the texts is the order that [strcmp] reports. *)
Lemma ele_le_payload_le m a b :
  is_Some (text_of m a) → is_Some (text_of m b) →
  ele_le m a b → payload_le m a b.
Proof.
  destruct m as [qs ns cs pl]. intros [ta Ha] [tb Hb]. unfold ele_le, ele_lt.
  rewrite Ha, Hb. cbn [default]. intros Hle.
  pose proof Ha as Ha'. pose proof Hb as Hb'.
  apply text_of_inv in Ha' as (na & va & ba & Hna & Hva & Hba & Hca).
  apply text_of_inv in Hb' as (nb & vb & bb & Hnb & Hvb & Hbb & Hcb).
  destruct (strcmp_text ba bb ta tb Hca Hcb) as (z & Hz & Hlt & Heq).
  exists ba, bb, z. unfold buffer_of, value_of. cbn [nodes chars].
  rewrite Hna, Hnb. cbn. rewrite Hva, Hvb. cbn.
  split; [done|]. split; [done|]. split; [done|].
  destruct (Z.ltb_spec z 0) as [|Hge]; [lia|].
  symmetry in Hlt. rewrite (text_lt_total _ _ Hlt Hle) in Heq.
  assert (z = 0) by now apply Heq. lia.
Qed.

(** C3: [q_sort] returns; the payloads of the sorted queue are a
    permutation of the payloads before, in non-decreasing order under
    [strcmp]; an absent, empty or one-element queue is left as it is. *)
Theorem q_sort_sorted_permutation m q ls (fuel : nat) :
  queue_is m q ls → (length ls + 2 ≤ fuel)%nat →
  ∃ m' ls',
    q_sort fuel q m = Some (tt, m') ∧
    queue_is m' q ls' ∧
    texts m' ls' ≡ₚ texts m ls ∧
    Sorted (payload_le m') ls' ∧
    (length ls ≤ 1 → m' = m)%nat.
Proof.
  destruct q as [qa|]; cbn [queue_is].
  - intros R Hf.
    destruct (q_sort_spec m qa ls fuel R Hf)
      as (m' & ls' & Hrun & R' & T & P & So & _ & E).
    exists m', ls'. split; [done|]. split; [done|]. split.
    { rewrite (texts_agree m m') by done. unfold texts. now rewrite P. }
    split; [|intros H; now apply E].
    assert (Forall (λ a, is_Some (text_of m' a)) ls') as F.
    { unfold queue_rep in R'. destruct (queues m' !! qa); [|done].
      apply R'. }
    eapply Sorted_restrict; [exact F | | exact So].
    intros a b Ha Hb Hle. apply ele_le_payload_le; [done | done |].
    unfold ele_le, ele_lt in *. now rewrite !T.
  - intros -> _. exists m, []. repeat split; done.
Qed.

Lemma q_sort_sorted_permutation_witness :
  let m := Mem (<[1%positive := Queue (Some 1%positive) (Some 3%positive) 3]> ∅)
               (<[1%positive := Ele (Some 1%positive) (Some 2%positive)]>
                  (<[2%positive := Ele (Some 2%positive) (Some 3%positive)]>
                     (<[3%positive := Ele (Some 3%positive) None]> ∅)))
               (<[1%positive := cbuf "cherry"]>
                  (<[2%positive := cbuf "banana"]>
                     (<[3%positive := cbuf "apple"]> ∅))) [] in
  ∃ m' ls',
    q_sort 5 (Some 1%positive) m = Some (tt, m') ∧
    queue_is m' (Some 1%positive) ls' ∧
    texts m' ls' ≡ₚ texts m [1%positive; 2%positive; 3%positive] ∧
    Sorted (payload_le m') ls' ∧
    (length [1%positive; 2%positive; 3%positive] ≤ 1 → m' = m)%nat.
Proof.
  intros m.
  apply (q_sort_sorted_permutation m (Some 1%positive)
           [1%positive; 2%positive; 3%positive] 5%nat).
  - apply (bool_decide_unpack _). vm_compute. exact I.
  - simpl. lia.
Defined.

(** [merge] on two lists whose first payloads are equal returns the first
    element of its second argument. *)
Lemma merge_equal_heads qs ns cs pl (fuel : nat) a1 l1 a2 l2 :
  (length (a1 :: l1) + length (a2 :: l2) < fuel)%nat →
  chain ns (Some a1) (a1 :: l1) → chain ns (Some a2) (a2 :: l2) →
  (∀ a, a ∈ a1 :: l1 → a ∉ a2 :: l2) →
  Forall (λ a, is_Some (text_of (Mem qs ns cs pl) a)) ((a1 :: l1) ++ a2 :: l2) →
  text_of (Mem qs ns cs pl) a1 = text_of (Mem qs ns cs pl) a2 →
  ∃ ns', merge fuel (Some a1) (Some a2) (Mem qs ns cs pl) =
         Some (Some a2, Mem qs ns' cs pl).
Proof.
  intros Hf C1 C2 D F E.
  set (k := λ x, default [] (text_of (Mem qs ns cs pl) x)).
  destruct (merge_spec qs cs pl k fuel ns (a1 :: l1) (a2 :: l2) (Some a1) (Some a2))
    as (ns' & r & Hm & Cr & _); [done | done | done | done | |].
  { intros x Hx. rewrite Forall_forall in F.
    destruct (F x Hx) as [tx Hx']. unfold k. now rewrite Hx'. }
  rewrite merge_list_cons in Cr.
  assert (text_lt (k a1) (k a2) = false) as Hlt.
  { unfold k. rewrite E. apply text_lt_irrefl. }
  rewrite Hlt in Cr. apply lseg_cons in Cr as [-> _]. eauto.
Qed.

(** C2, as amended: the sort is not stable.  [merge] takes the head of its
    second argument when the two heads compare equal, and after [q_sort] the
    elements whose payloads are equal stand in the reverse of the order
    they had before. *)
Theorem q_sort_reverses_equal m q ls (fuel : nat) :
  queue_is m q ls → (length ls + 2 ≤ fuel)%nat →
  (∃ m' ls',
     q_sort fuel q m = Some (tt, m') ∧
     queue_is m' q ls' ∧
     ∀ x, with_text m' x ls' = reverse (with_text m x ls)) ∧
  (∀ a1 l1 a2 l2,
     (length (a1 :: l1) + length (a2 :: l2) < fuel)%nat →
     chain (nodes m) (Some a1) (a1 :: l1) →
     chain (nodes m) (Some a2) (a2 :: l2) →
     (∀ a, a ∈ a1 :: l1 → a ∉ a2 :: l2) →
     Forall (λ a, is_Some (text_of m a)) ((a1 :: l1) ++ a2 :: l2) →
     text_of m a1 = text_of m a2 →
     ∃ m', merge fuel (Some a1) (Some a2) m = Some (Some a2, m')).
Proof.
  intros R Hf. split.
  - destruct q as [qa|]; cbn [queue_is] in *.
    + destruct (q_sort_spec m qa ls fuel R Hf)
        as (m' & ls' & Hrun & R' & T & _ & _ & St & _).
      exists m', ls'. split; [done|]. split; [done|].
      intros x. rewrite <- St. unfold with_text.
      apply list_filter_iff. intros a. now rewrite T.
    + subst ls. exists m, []. repeat split; done.
  - destruct m as [qs ns cs pl]. cbn [nodes].
    intros a1 l1 a2 l2 Hm C1 C2 D F E.
    destruct (merge_equal_heads qs ns cs pl fuel a1 l1 a2 l2 Hm C1 C2 D F E)
      as [ns' H].
    eauto.
Qed.

Lemma q_sort_reverses_equal_witness :
  let m := Mem (<[1%positive := Queue (Some 1%positive) (Some 2%positive) 2]> ∅)
               (<[1%positive := Ele (Some 1%positive) (Some 2%positive)]>
                  (<[2%positive := Ele (Some 2%positive) None]> ∅))
               (<[1%positive := cbuf "a"]> (<[2%positive := cbuf "a"]> ∅)) [] in
  ∃ m' ls',
    q_sort 4 (Some 1%positive) m = Some (tt, m') ∧
    queue_is m' (Some 1%positive) ls' ∧
    ∀ x, with_text m' x ls' = reverse (with_text m x [1%positive; 2%positive]).
Proof.
  intros m.
  refine (proj1 (q_sort_reverses_equal m (Some 1%positive)
                   [1%positive; 2%positive] 4%nat _ _)).
  - apply (bool_decide_unpack _). vm_compute. exact I.
  - simpl. lia.
Defined.

(** C2, as stated, fails: two elements with the payload "a", at the
    addresses 1 and 2 in this order, stand in the order 2, 1 after
    [q_sort]. *)
Lemma q_sort_not_stable :
  let m := Mem (<[1%positive := Queue (Some 1%positive) (Some 2%positive) 2]> ∅)
               (<[1%positive := Ele (Some 1%positive) (Some 2%positive)]>
                  (<[2%positive := Ele (Some 2%positive) None]> ∅))
               (<[1%positive := cbuf "a"]> (<[2%positive := cbuf "a"]> ∅)) [] in
  queue_rep m 1%positive [1%positive; 2%positive] ∧
  with_text m (txt "a") [1%positive; 2%positive] = [1%positive; 2%positive] ∧
  ∃ m',
    q_sort 4 (Some 1%positive) m = Some (tt, m') ∧
    queue_rep m' 1%positive [2%positive; 1%positive] ∧
    with_text m' (txt "a") [2%positive; 1%positive] = [2%positive; 1%positive] ∧
    with_text m' (txt "a") [2%positive; 1%positive] ≠
      with_text m (txt "a") [1%positive; 2%positive].
Proof.
  intros m. split; [apply (bool_decide_unpack _); vm_compute; exact I|].
  split; [vm_compute; reflexivity|].
  eexists. split; [vm_compute; reflexivity|].
  split; [apply (bool_decide_unpack _); vm_compute; exact I|].
  split; [vm_compute; reflexivity|].
  vm_compute. discriminate.
Qed.

(** ** The claims about insertion *)

(** C7: with an absent queue both insertions return [false] and do
    nothing; when the allocation of the element or of the copy fails they
    return [false], what was allocated is released again, and the queue,
    the elements and the buffers are as before. *)
Theorem q_insert_failure m q s :
  (q = None →
   q_insert_head q s m = Some (false, m) ∧
   q_insert_tail q s m = Some (false, m)) ∧
  (∀ t, q ≠ None → text_at m s = Some t →
     fails_at 0 (plan m) || fails_at 1 (plan m) = true →
     ∃ m', q_insert_head q s m = Some (false, m') ∧
           q_insert_tail q s m = Some (false, m') ∧
           queues m' = queues m ∧ nodes m' = nodes m ∧
           chars m' = chars m ∧ plan m' = drop 2 (plan m)).
Proof.
  split.
  - intros ->. done.
  - intros t Hq Ht Hf. destruct q as [qa|]; [|done].
    destruct m as [qs ns cs pl]. destruct s as [sa|]; [|done].
    unfold text_at in Ht. cbn in Ht.
    destruct (cs !! sa) as [b|] eqn:Hb; [|done]. cbn in Ht. cbn [plan] in Hf.
    exists (Mem qs ns cs (drop 2 pl)).
    split; [exact (q_insert_head_fail qs ns cs pl qa sa b t Hb Ht Hf)|].
    split; [exact (q_insert_tail_fail qs ns cs pl qa sa b t Hb Ht Hf)|].
    done.
Qed.

Lemma q_insert_failure_witness :
  let m := Mem (<[1%positive := Queue None None 0]> ∅) ∅
               (<[1%positive := cbuf "apple"]> ∅) [false; true] in
  ∃ m', q_insert_head (Some 1%positive) (Some 1%positive) m = Some (false, m') ∧
        q_insert_tail (Some 1%positive) (Some 1%positive) m = Some (false, m') ∧
        queues m' = queues m ∧ nodes m' = nodes m ∧
        chars m' = chars m ∧ plan m' = drop 2 (plan m).
Proof.
  intros m.
  refine (proj2 (q_insert_failure m (Some 1%positive) (Some 1%positive))
            (txt "apple") _ _ _).
  - discriminate.
  - vm_compute. reflexivity.
  - vm_compute. reflexivity.
Defined.

Lemma q_size_rep m qa ls :
  queue_rep m qa ls →
  q_size (Some qa) m = Some (Z.of_nat (length ls), m).
Proof.
  destruct m as [qs ns cs pl]. unfold queue_rep. cbn [queues].
  destruct (qs !! qa) as [q|] eqn:Hq; [|done]. intros (_ & Hsz & _).
  unfold q_size. rewrite (get_size_eq qs ns cs pl qa q Hq). now rewrite Hsz.
Qed.

(** X16: within the range of [int] (the text with its terminator has at
    most [INT_MAX] bytes, the queue fewer than [INT_MAX] elements) a
    successful insertion puts a new element in front of (at the head) or
    behind (at the tail) the elements of the queue; its payload is the
    caller's text in a buffer that was not allocated before, every buffer
    that existed is unchanged, and the count grows by one.  The scenario
    banana, apple at the tail and cherry at the head gives cherry, banana,
    apple and size 3. *)
Theorem q_insert_success m qa ls s t :
  queue_rep m qa ls → text_at m s = Some t →
  Z.of_nat (length t) + 1 <= INT_MAX →
  Z.of_nat (length ls) < INT_MAX →
  fails_at 0 (plan m) = false → fails_at 1 (plan m) = false →
  (∃ m' a v n,
     q_insert_head (Some qa) s m = Some (true, m') ∧
     queue_rep m' qa (a :: ls) ∧
     texts m' (a :: ls) = Some t :: texts m ls ∧
     value_of m' a = Some v ∧ chars m !! v = None ∧
     chars m' = <[v := t ++ [NUL]]> (chars m) ∧
     q_size (Some qa) m = Some (n, m) ∧
     q_size (Some qa) m' = Some (n + 1, m')) ∧
  (∃ m' a v n,
     q_insert_tail (Some qa) s m = Some (true, m') ∧
     queue_rep m' qa (ls ++ [a]) ∧
     texts m' (ls ++ [a]) = texts m ls ++ [Some t] ∧
     value_of m' a = Some v ∧ chars m !! v = None ∧
     chars m' = <[v := t ++ [NUL]]> (chars m) ∧
     q_size (Some qa) m = Some (n, m) ∧
     q_size (Some qa) m' = Some (n + 1, m')) ∧
  (let m0 := Mem ∅ ∅ (<[1%positive := cbuf "banana"]>
                        (<[2%positive := cbuf "apple"]>
                           (<[3%positive := cbuf "cherry"]> ∅))) [] in
   ∃ q1 m1 ls1,
     (q <- q_new ;;
      b1 <- q_insert_tail q (Some 1%positive) ;;
      b2 <- q_insert_tail q (Some 2%positive) ;;
      b3 <- q_insert_head q (Some 3%positive) ;;
      ret (q, (b1, b2, b3))) m0 = Some ((Some q1, (true, true, true)), m1) ∧
     queue_rep m1 q1 ls1 ∧
     texts m1 ls1 = [Some (txt "cherry"); Some (txt "banana"); Some (txt "apple")] ∧
     q_size (Some q1) m1 = Some (3, m1)).
Proof.
  intros R Ht Hlen Hcnt H0 H1. destruct s as [sa|]; [|done].
  split; [|split].
  - destruct (q_insert_head_spec m qa ls sa t R Ht Hlen H0 H1 Hcnt)
      as (m' & Hrun & R' & Ta & Va & Tls & Hc & _).
    exists m', (fresh (dom (nodes m))), (fresh (dom (chars m))),
      (Z.of_nat (length ls)).
    split; [done|]. split; [done|]. split.
    { unfold texts. rewrite fmap_cons, Ta. f_equal.
      apply list_fmap_ext. intros i x Hx. apply Tls.
      eapply list_elem_of_lookup_2. exact Hx. }
    split; [done|]. split; [apply fresh_chars|]. split; [done|].
    split; [now apply q_size_rep|].
    rewrite (q_size_rep m' qa _ R'). do 2 f_equal. simpl. lia.
  - destruct (q_insert_tail_spec m qa ls sa t R Ht Hlen H0 H1 Hcnt)
      as (m' & Hrun & R' & Ta & Va & Tls & Hc & _).
    exists m', (fresh (dom (nodes m))), (fresh (dom (chars m))),
      (Z.of_nat (length ls)).
    split; [done|]. split; [done|]. split.
    { unfold texts. rewrite fmap_app. cbn [fmap list_fmap]. rewrite Ta. f_equal.
      apply list_fmap_ext. intros i x Hx. apply Tls.
      eapply list_elem_of_lookup_2. exact Hx. }
    split; [done|]. split; [apply fresh_chars|]. split; [done|].
    split; [now apply q_size_rep|].
    rewrite (q_size_rep m' qa _ R'). do 2 f_equal. rewrite length_app. simpl. lia.
  - intros m0. eexists _, _, [3%positive; 1%positive; 2%positive].
    split; [vm_compute; reflexivity|].
    split; [apply (bool_decide_unpack _); vm_compute; exact I|].
    split; vm_compute; reflexivity.
Qed.

Lemma q_insert_success_witness :
  let m := Mem (<[1%positive := Queue (Some 1%positive) (Some 1%positive) 1]> ∅)
               (<[1%positive := Ele (Some 1%positive) None]> ∅)
               (<[1%positive := cbuf "banana"]> (<[2%positive := cbuf "apple"]> ∅))
               [] in
  ∃ m' a v n,
    q_insert_tail (Some 1%positive) (Some 2%positive) m = Some (true, m') ∧
    queue_rep m' 1%positive ([1%positive] ++ [a]) ∧
    texts m' ([1%positive] ++ [a]) = texts m [1%positive] ++ [Some (txt "apple")] ∧
    value_of m' a = Some v ∧ chars m !! v = None ∧
    chars m' = <[v := txt "apple" ++ [NUL]]> (chars m) ∧
    q_size (Some 1%positive) m = Some (n, m) ∧
    q_size (Some 1%positive) m' = Some (n + 1, m').
Proof.
  intros m.
  refine (proj1 (proj2 (q_insert_success m 1%positive [1%positive]
                          (Some 2%positive) (txt "apple") _ _ _ _ _ _))).
  - apply (bool_decide_unpack _). vm_compute. exact I.
  - vm_compute. reflexivity.
  - vm_compute. discriminate.
  - vm_compute. reflexivity.
  - reflexivity.
  - reflexivity.
Defined.

(** ** The claims about removal *)

Lemma strlen_lt b n : strlen b = Some n → (n < length b)%nat.
Proof.
  revert n. induction b as [|c b IH]; simpl; intros n H; [done|].
  destruct (is_nul c).
  - injection H as <-. lia.
  - destruct (strlen b) as [k|]; [|done]. injection H as <-.
    specialize (IH k eq_refl). lia.
Qed.

(** The copy keeps the length of the destination and leaves every byte at
    or beyond offset [sz] as it was. *)
Lemma snprintf_bytes_bounds d sz b d' :
  snprintf_bytes d sz b = Some d' → 0 <= sz →
  length d' = length d ∧ ∀ i, (Z.to_nat sz ≤ i)%nat → d' !! i = d !! i.
Proof.
  unfold snprintf_bytes. destruct (strlen b) as [len|] eqn:Hl; [|done]. simpl.
  destruct (sz =? 0) eqn:E; [intros [= <-]; done|].
  apply Z.eqb_neq in E. apply strlen_lt in Hl.
  set (k := Z.to_nat (Z.of_nat len `min` (sz - 1))).
  destruct (decide (S k ≤ length d)%nat) as [Hk|]; [|done].
  intros [= <-] Hsz.
  assert (length (take k b) = k) as Htk by (rewrite length_take; lia).
  split.
  - rewrite length_app, Htk. cbn [length]. rewrite length_drop. lia.
  - intros i Hi. rewrite lookup_app_r by lia. rewrite Htk.
    rewrite lookup_cons_ne_0 by lia. rewrite lookup_drop. f_equal. lia.
Qed.

Lemma buffer_ready_inv m spa bufsize ls :
  buffer_ready m (Some spa) bufsize ls →
  ∃ d, chars m !! spa = Some d ∧ 0 <= bufsize <= Z.of_nat (length d) ∧
       Some spa ∉ value_of m <$> ls.
Proof.
  unfold buffer_ready. destruct (chars m !! spa) as [d|]; [|done].
  intros [H1 H2]. eauto.
Qed.

(** C6: [q_remove_head] returns [false], and then has changed nothing,
    exactly when the queue is absent, the buffer is absent, or the queue
    has no element; otherwise it returns [true] and the queue holds the
    elements that followed the first one. *)
Theorem q_remove_head_result m q sp bufsize ls :
  queue_is m q ls →
  (ls ≠ [] → buffer_ready m sp bufsize ls) →
  ∃ r m',
    q_remove_head q sp bufsize m = Some (r, m') ∧
    (r = false ↔ q = None ∨ sp = None ∨ ls = []) ∧
    (r = false → m' = m) ∧
    (r = true →
     ∃ a, hd_error ls = Some a ∧
          queue_is m' q (tl ls) ∧
          texts m' (tl ls) = texts m (tl ls) ∧
          nodes m' = delete a (nodes m) ∧
          q_size q m' = Some (Z.of_nat (length ls) - 1, m')).
Proof.
  intros R B. destruct q as [qa|]; cbn [queue_is] in R.
  2:{ exists false, m. split; [done|]. split; [|done]. split; [|done]. auto. }
  destruct sp as [spa|].
  2:{ exists false, m. split; [done|]. split; [|done]. split; [|done]. auto. }
  destruct ls as [|a ls].
  { exists false, m. split; [|split; [|done]]; [|split; [|done]; auto].
    destruct m as [qs ns cs pl]. unfold queue_rep in R. cbn [queues nodes] in R.
    destruct (qs !! qa) as [q|] eqn:Hq; [|done]. destruct R as (C & _).
    apply chain_nil in C. unfold q_remove_head.
    mstep (get_head_eq qs ns cs pl qa q Hq). now rewrite C. }
  destruct (buffer_ready_inv m spa bufsize (a :: ls) (B ltac:(done)))
    as (d & Hd & Hbs & Hsp).
  destruct (q_remove_head_spec m qa a ls spa d bufsize R Hd Hsp Hbs)
    as (m' & q & b & t & d' & Hq & _ & _ & _ & Hrun & R' & T & _ & Hn & _).
  exists true, m'. split; [done|]. split.
  { split; [done|]. intros [|[|]]; done. }
  split; [done|]. intros _. exists a. cbn [hd_error tl queue_is].
  split; [done|]. split; [done|]. split.
  { unfold texts. apply list_fmap_ext. intros i x Hx. apply T.
    eapply list_elem_of_lookup_2. exact Hx. }
  split; [done|]. rewrite (q_size_rep m' qa ls R'). do 2 f_equal.
  cbn [length]. lia.
Qed.

Lemma q_remove_head_result_witness :
  let m := Mem (<[1%positive := Queue (Some 1%positive) (Some 2%positive) 2]> ∅)
               (<[1%positive := Ele (Some 1%positive) (Some 2%positive)]>
                  (<[2%positive := Ele (Some 2%positive) None]> ∅))
               (<[1%positive := cbuf "banana"]>
                  (<[2%positive := cbuf "apple"]>
                     (<[3%positive := replicate 4 NUL]> ∅))) [] in
  ∃ r m',
    q_remove_head (Some 1%positive) (Some 3%positive) 4 m = Some (r, m') ∧
    (r = false ↔ Some 1%positive = None ∨ Some 3%positive = None ∨
                 [1%positive; 2%positive] = []) ∧
    (r = false → m' = m) ∧
    (r = true →
     ∃ a, hd_error [1%positive; 2%positive] = Some a ∧
          queue_is m' (Some 1%positive) (tl [1%positive; 2%positive]) ∧
          texts m' (tl [1%positive; 2%positive]) =
            texts m (tl [1%positive; 2%positive]) ∧
          nodes m' = delete a (nodes m) ∧
          q_size (Some 1%positive) m' =
            Some (Z.of_nat (length [1%positive; 2%positive]) - 1, m')).
Proof.
  intros m.
  apply (q_remove_head_result m (Some 1%positive) (Some 3%positive) 4
           [1%positive; 2%positive]).
  - apply (bool_decide_unpack _). vm_compute. exact I.
  - intros _. apply (bool_decide_unpack _). vm_compute. exact I.
Defined.

(** C5: a removal with a capacity of at least 1 leaves the length of the
    buffer and its bytes from offset [bufsize] on untouched, whatever the
    length of the payload; for a payload whose length fits an [int] the
    buffer then starts with the first [min (length t) (bufsize - 1)] bytes
    of the payload and a NUL, and every byte behind them is as before. *)
Theorem q_remove_head_copy m qa a ls spa bufsize t :
  queue_rep m qa (a :: ls) → text_of m a = Some t →
  buffer_ready m (Some spa) bufsize (a :: ls) → 1 <= bufsize →
  ∃ m' d d',
    q_remove_head (Some qa) (Some spa) bufsize m = Some (true, m') ∧
    chars m !! spa = Some d ∧ chars m' !! spa = Some d' ∧
    length d' = length d ∧
    (∀ i, (Z.to_nat bufsize ≤ i)%nat → d' !! i = d !! i) ∧
    (Z.of_nat (length t) + 1 <= INT_MAX →
     let k := Z.to_nat (Z.min (Z.of_nat (length t)) (bufsize - 1)) in
     d' = take k t ++ NUL :: drop (S k) d).
Proof.
  intros R Ht B H1.
  destruct (buffer_ready_inv m spa bufsize (a :: ls) B) as (d & Hd & Hbs & Hsp).
  destruct (q_remove_head_spec m qa a ls spa d bufsize R Hd Hsp Hbs)
    as (m' & q & b & t' & d' & Hq & Hb & Hc & Hs & Hrun & _ & _ & Hd' & _).
  assert (t' = t) as ->.
  { unfold text_of in Ht. rewrite Hb in Ht. cbn in Ht. congruence. }
  exists m', d, d'. split; [done|]. split; [done|]. split; [done|].
  cbv zeta in Hs.
  pose proof (realBufSize_range bufsize
                (int_of_Z (size_t_of_Z (Z.of_nat (length t) + 1)))
                (proj1 Hbs)) as Hr.
  destruct (snprintf_bytes_bounds _ _ _ _ Hs (proj1 Hr)) as [Hlen Hout].
  split; [done|]. split.
  { intros i Hi. apply Hout. lia. }
  intros Hfit k.
  rewrite realBufSize_exact in Hs by exact Hfit.
  rewrite (snprintf_bytes_spec d _ b t Hc) in Hs by lia.
  rewrite (proj2 (Z.eqb_neq _ 0)) in Hs by lia. cbv zeta in Hs.
  injection Hs as <-. subst k. do 3 f_equal; lia.
Qed.

Lemma q_remove_head_copy_witness :
  let m := Mem (<[1%positive := Queue (Some 1%positive) (Some 1%positive) 1]> ∅)
               (<[1%positive := Ele (Some 1%positive) None]> ∅)
               (<[1%positive := cbuf "banana"]>
                  (<[3%positive := txt "xxxxxxxx"]> ∅)) [] in
  ∃ m' d d',
    q_remove_head (Some 1%positive) (Some 3%positive) 4 m = Some (true, m') ∧
    chars m !! 3%positive = Some d ∧ chars m' !! 3%positive = Some d' ∧
    length d' = length d ∧
    (∀ i, (Z.to_nat 4 ≤ i)%nat → d' !! i = d !! i) ∧
    (Z.of_nat (length (txt "banana")) + 1 <= INT_MAX →
     let k := Z.to_nat (Z.min (Z.of_nat (length (txt "banana"))) (4 - 1)) in
     d' = take k (txt "banana") ++ NUL :: drop (S k) d).
Proof.
  intros m.
  apply (q_remove_head_copy m 1%positive 1%positive [] 3%positive 4 (txt "banana")).
  - apply (bool_decide_unpack _). vm_compute. exact I.
  - vm_compute. reflexivity.
  - apply (bool_decide_unpack _). vm_compute. exact I.
  - lia.
Defined.

(** C10: with capacity 0 the first element is removed, [true] is
    returned, and the buffer of the caller keeps every byte. *)
Theorem q_remove_head_zero_capacity m qa a ls spa :
  queue_rep m qa (a :: ls) →
  buffer_ready m (Some spa) 0 (a :: ls) →
  ∃ m',
    q_remove_head (Some qa) (Some spa) 0 m = Some (true, m') ∧
    queue_rep m' qa ls ∧
    nodes m' = delete a (nodes m) ∧
    chars m' !! spa = chars m !! spa.
Proof.
  intros R B.
  destruct (buffer_ready_inv m spa 0 (a :: ls) B) as (d & Hd & Hbs & Hsp).
  destruct (q_remove_head_spec m qa a ls spa d 0 R Hd Hsp Hbs)
    as (m' & q & b & t & d' & Hq & Hb & Hc & Hs & Hrun & R' & _ & Hd' & Hn & _).
  exists m'. split; [done|]. split; [done|]. split; [done|].
  rewrite Hd, Hd'. f_equal. cbv zeta in Hs.
  pose proof (size_t_of_Z_nonneg
                (int_of_Z (size_t_of_Z (Z.of_nat (length t) + 1)))) as Hnn.
  destruct (Z.gtb_spec 0 (size_t_of_Z
              (int_of_Z (size_t_of_Z (Z.of_nat (length t) + 1))))) as [Hgt|_];
    [lia|].
  unfold snprintf_bytes in Hs. destruct (strlen b); [|done].
  cbn in Hs. congruence.
Qed.

Lemma q_remove_head_zero_capacity_witness :
  let m := Mem (<[1%positive := Queue (Some 1%positive) (Some 1%positive) 1]> ∅)
               (<[1%positive := Ele (Some 1%positive) None]> ∅)
               (<[1%positive := cbuf "banana"]>
                  (<[3%positive := txt "xxxxxxxx"]> ∅)) [] in
  ∃ m',
    q_remove_head (Some 1%positive) (Some 3%positive) 0 m = Some (true, m') ∧
    queue_rep m' 1%positive [] ∧
    nodes m' = delete 1%positive (nodes m) ∧
    chars m' !! 3%positive = chars m !! 3%positive.
Proof.
  intros m.
  apply (q_remove_head_zero_capacity m 1%positive 1%positive [] 3%positive).
  - apply (bool_decide_unpack _). vm_compute. exact I.
  - apply (bool_decide_unpack _). vm_compute. exact I.
Defined.

(** ** Emptying the queue *)

(** Either insertion into a queue without elements, whatever its tail
    reference holds. *)
Lemma q_insert_first m qa (ins : ptr → ptr → M bool) sa t :
  ins = q_insert_head ∨ ins = q_insert_tail →
  queue_rep m qa [] → text_at m (Some sa) = Some t →
  Z.of_nat (length t) + 1 <= INT_MAX →
  fails_at 0 (plan m) = false → fails_at 1 (plan m) = false →
  ∃ m' a v,
    ins (Some qa) (Some sa) m = Some (true, m') ∧
    queue_rep m' qa [a] ∧ text_of m' a = Some t ∧
    value_of m' a = Some v ∧ chars m !! v = None ∧
    chars m' = <[v := t ++ [NUL]]> (chars m) ∧
    plan m' = drop 2 (plan m).
Proof.
  intros [->| ->] R Ht Hlen H0 H1.
  - destruct (q_insert_head_spec m qa [] sa t R Ht Hlen H0 H1
                ltac:(unfold INT_MAX; simpl; lia))
      as (m' & Hrun & R' & Ta & Va & _ & Hc & Hp).
    exists m', (fresh (dom (nodes m))), (fresh (dom (chars m))).
    repeat split; try done. apply fresh_chars.
  - destruct (q_insert_tail_spec m qa [] sa t R Ht Hlen H0 H1
                ltac:(unfold INT_MAX; simpl; lia))
      as (m' & Hrun & R' & Ta & Va & _ & Hc & Hp).
    exists m', (fresh (dom (nodes m))), (fresh (dom (chars m))).
    repeat split; try done. apply fresh_chars.
Qed.

Lemma queue_rep_singleton m qa a :
  queue_rep m qa [a] →
  queues m !! qa = Some (Queue (Some a) (Some a) 1) ∧
  ∃ n, nodes m !! a = Some n ∧ next n = None.
Proof.
  unfold queue_rep. destruct (queues m !! qa) as [[h t sz]|]; [|done].
  cbn [head tail size]. intros (C & Hsz & Ht & _).
  apply lseg_cons in C as [-> (n & Hn & C)]. apply chain_nil in C.
  rewrite Ht by done. split; [now rewrite Hsz|]. eauto.
Qed.

Lemma c_str_take_nul t k r :
  Forall (λ c, is_nul c = false) t →
  c_str (take k t ++ NUL :: r) = Some (take k t).
Proof. intros H. apply c_str_app_nul. now apply Forall_take. Qed.

(** X17: for texts that with their terminator have at most [INT_MAX]
    bytes: after an insertion into an empty queue, [q_remove_head] hands
    back the payload, cut to [bufsize - 1] bytes, and leaves a queue of
    size 0 without elements; its tail reference still holds the address of
    the released element, and yet either insertion that follows builds a
    queue of exactly one element, which is both its head and its tail. *)
Theorem q_insert_remove_insert m qa (ins : ptr → ptr → M bool) sa t spa bufsize :
  ins = q_insert_head ∨ ins = q_insert_tail →
  queue_rep m qa [] → text_at m (Some sa) = Some t →
  Z.of_nat (length t) + 1 <= INT_MAX →
  buffer_ready m (Some spa) bufsize [] → 1 <= bufsize →
  fails_at 0 (plan m) = false → fails_at 1 (plan m) = false →
  ∃ m1 m2 d' a,
    ins (Some qa) (Some sa) m = Some (true, m1) ∧
    q_remove_head (Some qa) (Some spa) bufsize m1 = Some (true, m2) ∧
    chars m2 !! spa = Some d' ∧
    c_str d' = Some (take (Z.to_nat (bufsize - 1)) t) ∧
    q_size (Some qa) m2 = Some (0, m2) ∧
    queue_rep m2 qa [] ∧
    (tail <$> queues m2 !! qa) = Some (Some a) ∧ nodes m2 !! a = None ∧
    ∀ (ins2 : ptr → ptr → M bool) sa2 t2,
      ins2 = q_insert_head ∨ ins2 = q_insert_tail →
      text_at m2 (Some sa2) = Some t2 →
      Z.of_nat (length t2) + 1 <= INT_MAX →
      fails_at 0 (plan m2) = false → fails_at 1 (plan m2) = false →
      ∃ m3 a3,
        ins2 (Some qa) (Some sa2) m2 = Some (true, m3) ∧
        queue_rep m3 qa [a3] ∧
        texts m3 [a3] = [Some t2] ∧
        q_size (Some qa) m3 = Some (1, m3) ∧
        queues m3 !! qa = Some (Queue (Some a3) (Some a3) 1) ∧
        ∃ n3, nodes m3 !! a3 = Some n3 ∧ next n3 = None.
Proof.
  intros Hins R Ht Hlen B Hbs H0 H1.
  destruct (q_insert_first m qa ins sa t Hins R Ht Hlen H0 H1)
    as (m1 & a & v & Hrun1 & R1 & Ta & Va & Fv & Hc1 & Hp1).
  destruct (buffer_ready_inv m spa bufsize [] B) as (d & Hd & Hr & _).
  assert (spa ≠ v) as Hne by congruence.
  assert (chars m1 !! spa = Some d) as Hd1.
  { rewrite Hc1. now rewrite lookup_insert_ne by done. }
  assert (Some spa ∉ value_of m1 <$> [a]) as Hsp.
  { cbn. rewrite Va. intros Hin. apply list_elem_of_singleton in Hin. congruence. }
  destruct (q_remove_head_spec m1 qa a [] spa d bufsize R1 Hd1 Hsp Hr)
    as (m2 & q1 & b & t' & d' & Hq1 & Hb & Hc & Hs & Hrun2 & R2 & _ & Hd2
        & Hn2 & Hq2 & Hp2).
  assert (t' = t) as ->.
  { unfold text_of in Ta. rewrite Hb in Ta. cbn in Ta. congruence. }
  pose proof (c_str_no_nul _ _ Hc) as Hnn.
  exists m1, m2, d', a. split; [done|]. split; [done|]. split; [done|].
  split.
  { cbv zeta in Hs. rewrite realBufSize_exact in Hs by exact Hlen.
    rewrite (snprintf_bytes_spec d _ b t Hc) in Hs by lia.
    rewrite (proj2 (Z.eqb_neq _ 0)) in Hs by lia. cbv zeta in Hs.
    injection Hs as <-. rewrite c_str_take_nul by done. f_equal.
    destruct (Z.le_gt_cases (Z.of_nat (length t)) (bufsize - 1)).
    - rewrite !take_ge by lia. done.
    - f_equal. lia. }
  split; [apply (q_size_rep m2 qa [] R2)|]. split; [done|].
  destruct (queue_rep_singleton m1 qa a R1) as [Hq1' _].
  rewrite Hq1 in Hq1'. injection Hq1' as ->.
  split; [now rewrite Hq2|]. split.
  { rewrite Hn2. apply lookup_delete_eq. }
  intros ins2 sa2 t2 Hins2 Ht2 Hlen2 H02 H12.
  destruct (q_insert_first m2 qa ins2 sa2 t2 Hins2 R2 Ht2 Hlen2 H02 H12)
    as (m3 & a3 & v3 & Hrun3 & R3 & Ta3 & _).
  exists m3, a3. split; [done|]. split; [done|]. split.
  { cbn. now rewrite Ta3. }
  split; [apply (q_size_rep m3 qa [a3] R3)|].
  now apply queue_rep_singleton.
Qed.

Lemma q_insert_remove_insert_witness :
  let m := Mem (<[1%positive := Queue None None 0]> ∅) ∅
               (<[1%positive := cbuf "banana"]>
                  (<[2%positive := txt "xxxxxxxx"]> ∅)) [] in
  ∃ m1 m2 d' m3 a3,
    q_insert_tail (Some 1%positive) (Some 1%positive) m = Some (true, m1) ∧
    q_remove_head (Some 1%positive) (Some 2%positive) 4 m1 = Some (true, m2) ∧
    chars m2 !! 2%positive = Some d' ∧
    c_str d' = Some (take (Z.to_nat (4 - 1)) (txt "banana")) ∧
    q_insert_head (Some 1%positive) (Some 1%positive) m2 = Some (true, m3) ∧
    queue_rep m3 1%positive [a3] ∧
    texts m3 [a3] = [Some (txt "banana")].
Proof.
  intros m.
  destruct (q_insert_remove_insert m 1%positive q_insert_tail 1%positive
              (txt "banana") 2%positive 4)
    as (m1 & m2 & d' & a & H1 & H2 & H3 & H4 & _ & R2 & _ & _ & Hnext).
  - now right.
  - apply (bool_decide_unpack _). vm_compute. exact I.
  - vm_compute. reflexivity.
  - vm_compute. discriminate.
  - apply (bool_decide_unpack _). vm_compute. exact I.
  - lia.
  - reflexivity.
  - reflexivity.
  - vm_compute in H1. injection H1 as <-.
    vm_compute in H2. injection H2 as <-.
    destruct (Hnext q_insert_head 1%positive (txt "banana"))
      as (m3 & a3 & H5 & R3 & T3 & _);
      [ now left | vm_compute; reflexivity | vm_compute; discriminate
      | reflexivity | reflexivity | ].
    eexists _, _, d', m3, a3.
    split; [vm_compute; reflexivity|]. split; [vm_compute; reflexivity|].
    repeat split; assumption.
Defined.

(** ** Texts that do not fit the [int] *)

(** Either insertion into a queue without elements, for any text whose
    [strLen] is positive: the payload of the new element is the text cut
    to [strLen - 1] bytes. *)
Lemma q_insert_cut m qa (ins : ptr → ptr → M bool) sa t :
  ins = q_insert_head ∨ ins = q_insert_tail →
  queue_rep m qa [] → text_at m (Some sa) = Some t →
  1 <= strLen_of (length t) →
  fails_at 0 (plan m) = false → fails_at 1 (plan m) = false →
  ∃ m' a v,
    ins (Some qa) (Some sa) m = Some (true, m') ∧
    queue_rep m' qa [a] ∧
    text_of m' a = Some (take (Z.to_nat (strLen_of (length t) - 1)) t) ∧
    value_of m' a = Some v ∧ chars m !! v = None ∧
    chars m' =
      <[v := take (Z.to_nat (strLen_of (length t) - 1)) t ++ [NUL]]> (chars m) ∧
    plan m' = drop 2 (plan m).
Proof.
  intros Hins R HT Hpos Hok0 Hok1. revert R.
  destruct m as [qs ns cs pl]. unfold queue_rep at 1.
  cbn [queues nodes chars plan] in *.
  destruct (qs !! qa) as [q|] eqn:Hq; [|done].
  intros (C & Hsz & _ & Ho & _). apply chain_nil in C. simpl in Hsz.
  unfold text_at in HT. cbn in HT.
  destruct (cs !! sa) as [b|] eqn:Hb; [|done]. cbn in HT. rename HT into Ht.
  set (a := fresh (dom ns)). set (v := fresh (dom cs)).
  pose proof (fresh_nodes ns) as Fa. pose proof (fresh_chars cs) as Fv.
  fold a in Fa. fold v in Fv.
  set (t' := take (Z.to_nat (strLen_of (length t) - 1)) t).
  assert (Forall (λ c, is_nul c = false) t') as Hnn.
  { apply Forall_take. exact (c_str_no_nul _ _ Ht). }
  exists (Mem (<[qa := Queue (Some a) (Some a) 1]> qs)
              (<[a := Ele (Some v) None]> ns) (<[v := t' ++ [NUL]]> cs)
              (drop 2 pl)), a, v.
  destruct (new_payload (<[qa := Queue (Some a) (Some a) 1]> qs) ns cs
              (drop 2 pl) a v None t' Hnn) as [Hval Htxt].
  split.
  { destruct Hins as [->| ->].
    - rewrite (q_insert_head_run_cut qs ns cs pl qa sa b t Hb Ht Hpos Hok0 Hok1
                 q Hq).
      rewrite Hsz, C. reflexivity.
    - exact (q_insert_tail_run_cut_empty qs ns cs pl qa sa b t Hb Ht Hpos
               Hok0 Hok1 q Hq Hsz). }
  split.
  { unfold queue_rep. cbn [queues nodes]. rewrite lookup_insert_eq.
    cbn [head tail size]. split.
    { apply lseg_cons. split; [done|]. eexists.
      split; [apply lookup_insert_eq | done]. }
    split; [done|]. split; [done|]. split; [|unfold INT_MAX; lia].
    now apply (owned_new qs _ ns cs pl _). }
  cbn [chars plan]. repeat split; done.
Qed.

(** [q_remove_head] hands out the payload of the first element, cut to
    [bufsize - 1] bytes. *)
Lemma q_remove_head_text m qa a ls t spa bufsize :
  queue_rep m qa (a :: ls) → text_of m a = Some t →
  Z.of_nat (length t) + 1 <= INT_MAX →
  buffer_ready m (Some spa) bufsize (a :: ls) → 1 <= bufsize →
  ∃ m' d',
    q_remove_head (Some qa) (Some spa) bufsize m = Some (true, m') ∧
    queue_rep m' qa ls ∧
    chars m' !! spa = Some d' ∧
    c_str d' = Some (take (Z.to_nat (bufsize - 1)) t).
Proof.
  intros R Ta Hlen B Hbs.
  destruct (buffer_ready_inv m spa bufsize _ B) as (d & Hd & Hr & Hsp).
  destruct (q_remove_head_spec m qa a ls spa d bufsize R Hd Hsp Hr)
    as (m' & q & b & t' & d' & _ & Hb & Hc & Hs & Hrun & R' & _ & Hd' & _).
  assert (t' = t) as ->.
  { unfold text_of in Ta. rewrite Hb in Ta. cbn in Ta. congruence. }
  pose proof (c_str_no_nul _ _ Hc) as Hnn.
  exists m', d'. split; [done|]. split; [done|]. split; [done|].
  cbv zeta in Hs. rewrite realBufSize_exact in Hs by exact Hlen.
  rewrite (snprintf_bytes_spec d _ b t Hc) in Hs by lia.
  rewrite (proj2 (Z.eqb_neq _ 0)) in Hs by lia. cbv zeta in Hs.
  injection Hs as <-. rewrite c_str_take_nul by done. f_equal.
  destruct (Z.le_gt_cases (Z.of_nat (length t)) (bufsize - 1)).
  - rewrite !take_ge by lia. done.
  - f_equal. lia.
Qed.

(** An insertion into an empty queue followed by a removal, for any text
    whose [strLen] is positive: what comes back is the text cut to
    [strLen - 1] bytes, cut to [bufsize - 1] bytes. *)
Lemma q_insert_remove_cut m qa (ins : ptr → ptr → M bool) sa t spa bufsize :
  ins = q_insert_head ∨ ins = q_insert_tail →
  queue_rep m qa [] → text_at m (Some sa) = Some t →
  1 <= strLen_of (length t) →
  buffer_ready m (Some spa) bufsize [] → 1 <= bufsize →
  fails_at 0 (plan m) = false → fails_at 1 (plan m) = false →
  ∃ m1 m2 d',
    ins (Some qa) (Some sa) m = Some (true, m1) ∧
    q_remove_head (Some qa) (Some spa) bufsize m1 = Some (true, m2) ∧
    chars m2 !! spa = Some d' ∧
    c_str d' =
      Some (take (Z.to_nat (bufsize - 1))
              (take (Z.to_nat (strLen_of (length t) - 1)) t)).
Proof.
  intros Hins R Ht Hpos B Hbs H0 H1.
  destruct (q_insert_cut m qa ins sa t Hins R Ht Hpos H0 H1)
    as (m1 & a & v & Hrun1 & R1 & Ta & Va & Fv & Hc1 & _).
  destruct (buffer_ready_inv m spa bufsize [] B) as (d & Hd & Hr & _).
  assert (spa ≠ v) as Hne by congruence.
  assert (buffer_ready m1 (Some spa) bufsize [a]) as B1.
  { unfold buffer_ready. rewrite Hc1, lookup_insert_ne, Hd by done.
    split; [done|]. cbn. rewrite Va. intros Hin.
    apply list_elem_of_singleton in Hin. congruence. }
  pose proof (int_of_Z_range
                (size_t_of_Z (Z.of_nat (length t) + 1))) as Hrange.
  fold (strLen_of (length t)) in Hrange.
  destruct (q_remove_head_text m1 qa a [] _ spa bufsize R1 Ta) as
    (m2 & d' & Hrun2 & _ & Hd2 & Hc2); [|exact B1|exact Hbs|].
  { rewrite length_take. unfold INT_MAX in *. lia. }
  exists m1, m2, d'. done.
Qed.

(** C4, where the code departs from it: [int strLen = strlen(s) + 1] is 1
    for a text of 2^32 bytes, so its insertion into an empty queue
    succeeds with a buffer of one byte, and the removal that follows
    hands back the empty text instead of the first [bufsize - 1 = 3]
    bytes of the text. *)
Theorem q_insert_remove_long_text :
  let m := Mem (<[1%positive := Queue None None 0]> ∅) ∅
               (<[1%positive := long_text ++ [NUL]]>
                  (<[2%positive := replicate 4 NUL]> ∅)) [] in
  queue_rep m 1%positive [] ∧
  text_at m (Some 1%positive) = Some long_text ∧
  Z.of_nat (length long_text) = 4294967296 ∧
  take (Z.to_nat (4 - 1)) long_text = txt "aaa" ∧
  ∃ m1 m2 d',
    q_insert_head (Some 1%positive) (Some 1%positive) m = Some (true, m1) ∧
    q_remove_head (Some 1%positive) (Some 2%positive) 4 m1 = Some (true, m2) ∧
    chars m2 !! 2%positive = Some d' ∧
    c_str d' = Some [].
Proof.
  pose proof (long_text_take 3 ltac:(lia)) as Htake.
  revert Htake.
  generalize long_text_length long_text_no_nul. generalize long_text.
  intros t Hlen Hnn Htake m.
  assert (queue_rep m 1%positive []) as R.
  { apply (bool_decide_unpack _). vm_compute. exact I. }
  assert (text_at m (Some 1%positive) = Some t) as Ht.
  { unfold text_at, m. cbn [chars mbind option_bind]. rewrite lookup_insert_eq.
    cbn [mbind option_bind]. now apply c_str_app_nul. }
  split; [exact R|]. split; [exact Ht|]. split; [exact Hlen|].
  split; [exact Htake|].
  destruct (q_insert_remove_cut m 1%positive q_insert_head 1%positive t
              2%positive 4) as (m1 & m2 & d' & H1 & H2 & H3 & H4);
    [now left | exact R | exact Ht | | | lia | reflexivity | reflexivity |].
  { rewrite (strLen_of_long _ Hlen). lia. }
  { unfold buffer_ready, m. cbn [chars].
    rewrite lookup_insert_ne, lookup_insert_eq by done.
    split; [simpl; lia|]. cbn. apply not_elem_of_nil. }
  rewrite (strLen_of_long _ Hlen) in H4.
  change (Z.to_nat (1 - 1)) with 0%nat in H4. rewrite take_0 in H4.
  rewrite take_nil in H4.
  exists m1, m2, d'. done.
Qed.

(** C8, where the code departs from it: a text of 2^32 bytes is inserted
    with success at either end, and the payload of the new element is
    the empty text, not a copy of the text. *)
Theorem q_insert_truncates_long_text :
  let m := Mem (<[1%positive := Queue None None 0]> ∅) ∅
               (<[1%positive := long_text ++ [NUL]]> ∅) [] in
  queue_rep m 1%positive [] ∧
  text_at m (Some 1%positive) = Some long_text ∧
  Z.of_nat (length long_text) = 4294967296 ∧
  (∃ m' a,
     q_insert_head (Some 1%positive) (Some 1%positive) m = Some (true, m') ∧
     queue_rep m' 1%positive [a] ∧ texts m' [a] = [Some []]) ∧
  (∃ m' a,
     q_insert_tail (Some 1%positive) (Some 1%positive) m = Some (true, m') ∧
     queue_rep m' 1%positive [a] ∧ texts m' [a] = [Some []]).
Proof.
  generalize long_text_length long_text_no_nul. generalize long_text.
  intros t Hlen Hnn m.
  assert (queue_rep m 1%positive []) as R.
  { apply (bool_decide_unpack _). vm_compute. exact I. }
  assert (text_at m (Some 1%positive) = Some t) as Ht.
  { unfold text_at, m. cbn [chars mbind option_bind]. rewrite lookup_insert_eq.
    cbn [mbind option_bind]. now apply c_str_app_nul. }
  split; [exact R|]. split; [exact Ht|]. split; [exact Hlen|].
  assert (∀ ins, ins = q_insert_head ∨ ins = q_insert_tail →
            ∃ m' a, ins (Some 1%positive) (Some 1%positive) m = Some (true, m') ∧
                    queue_rep m' 1%positive [a] ∧ texts m' [a] = [Some []])
    as H.
  { intros ins Hins.
    destruct (q_insert_cut m 1%positive ins 1%positive t Hins R Ht)
      as (m' & a & v & Hrun & R' & Ta & _);
      [rewrite (strLen_of_long _ Hlen); lia | reflexivity | reflexivity |].
    rewrite (strLen_of_long _ Hlen) in Ta.
    change (Z.to_nat (1 - 1)) with 0%nat in Ta. rewrite take_0 in Ta.
    exists m', a. split; [exact Hrun|]. split; [exact R'|].
    cbn. now rewrite Ta. }
  split; apply H; [now left | now right].
Qed.

(** ** The structural invariant *)

(** A queue with elements that is represented in memory satisfies the
    structural invariant; an empty one does iff its tail reference is
    absent. *)
Lemma queue_rep_structural m qa q ls :
  queue_rep m qa ls → queues m !! qa = Some q →
  (ls ≠ [] ∨ tail q = None) → structural_invariant m q.
Proof.
  unfold queue_rep. intros R Hq. rewrite Hq in R.
  destruct R as (C & Hsz & Ht & _). intros Hcase. split.
  - split.
    + intros Hz. destruct ls as [|a ls]; [|simpl in Hsz; lia].
      apply chain_nil in C. destruct Hcase as [|]; done.
    + intros [Hh _]. rewrite Hh in C. apply chain_None in C as ->.
      now rewrite Hsz.
  - intros Hpos. exists ls. split; [done|]. split; [done|].
    apply Ht. intros ->. simpl in Hsz. lia.
Qed.

(** Removing the only element leaves the address of the released element
    in the tail reference. *)
Lemma q_remove_head_last_element m qa a spa bufsize :
  queue_rep m qa [a] → buffer_ready m (Some spa) bufsize [a] →
  ∃ m' q',
    q_remove_head (Some qa) (Some spa) bufsize m = Some (true, m') ∧
    queues m' !! qa = Some q' ∧
    size q' = 0 ∧ head q' = None ∧ tail q' = Some a ∧
    nodes m' !! a = None ∧
    ¬ structural_invariant m' q'.
Proof.
  intros R B.
  destruct (buffer_ready_inv m spa bufsize [a] B) as (d & Hd & Hbs & Hsp).
  destruct (q_remove_head_spec m qa a [] spa d bufsize R Hd Hsp Hbs)
    as (m' & q & b & t & d' & Hq & _ & _ & _ & Hrun & _ & _ & _ & Hn & Hq' & _).
  destruct (queue_rep_singleton m qa a R) as [Hq1 _].
  rewrite Hq in Hq1. injection Hq1 as ->. cbn [hd_error tail size] in Hq'.
  eexists m', _. split; [done|]. split; [exact Hq'|]. cbn [head tail size].
  split; [done|]. split; [done|]. split; [done|]. split.
  { rewrite Hn. apply lookup_delete_eq. }
  intros [[Hz _] _]. cbn [head tail size] in Hz.
  destruct (Hz eq_refl) as [_ Habs]. done.
Qed.

(** C1, where the code departs from it: after [q_new], one insertion and
    one removal the queue has size 0 and no head, but its tail reference
    holds the address of the element that was released, so the structural
    invariant does not hold. *)
Theorem q_remove_head_leaves_tail :
  let m0 := Mem ∅ ∅ (<[1%positive := cbuf "a"]>
                       (<[2%positive := replicate 4 NUL]> ∅)) [] in
  ∃ qa m q,
    (q <- q_new ;;
     b1 <- q_insert_head q (Some 1%positive) ;;
     b2 <- q_remove_head q (Some 2%positive) 4 ;;
     ret (q, (b1, b2))) m0 = Some ((Some qa, (true, true)), m) ∧
    queues m !! qa = Some q ∧
    size q = 0 ∧ head q = None ∧ tail q = Some 1%positive ∧
    nodes m !! 1%positive = None ∧
    ¬ structural_invariant m q.
Proof.
  intros m0. eexists _, _, _.
  split; [vm_compute; reflexivity|].
  split; [vm_compute; reflexivity|].
  cbn [head tail size].
  split; [reflexivity|]. split; [reflexivity|]. split; [reflexivity|].
  split; [vm_compute; reflexivity|].
  intros [[Hz _] _]. cbn [head tail size] in Hz.
  destruct (Hz eq_refl) as [_ Habs]. discriminate.
Qed.

(** ** Scenarios *)

(** Bytes are compared as unsigned char, and only up to the terminator. *)
Example strcmp_apple_banana : strcmp (cbuf "apple") (cbuf "banana") = Some (-1).
Proof. reflexivity. Qed.

Example strcmp_unsigned :
  strcmp [ascii_of_nat 200; NUL] (cbuf "a") = Some 103.
Proof. reflexivity. Qed.

Example strcmp_stops_at_nul :
  strcmp (txt "ab" ++ NUL :: txt "x") (txt "ab" ++ NUL :: txt "y") = Some 0.
Proof. reflexivity. Qed.

(** A payload "x" removed into a buffer of capacity 1 leaves just the
    terminator; the byte behind it is not touched. *)
Example remove_capacity_one :
  let m0 := Mem ∅ ∅ (<[1%positive := cbuf "x"]>
                       (<[2%positive := txt "##"]> ∅)) [] in
  ∃ m,
    (q <- q_new ;;
     b1 <- q_insert_head q (Some 1%positive) ;;
     b2 <- q_remove_head q (Some 2%positive) 1 ;;
     ret (b1, b2)) m0 = Some ((true, true), m) ∧
    chars m !! 2%positive = Some (NUL :: txt "#").
Proof. eexists. split; vm_compute; reflexivity. Qed.

(** banana and apple at the tail, cherry at the head; sorted the queue
    reads apple, banana, cherry, and reversed again cherry, banana,
    apple. *)
Example sort_then_reverse :
  let m0 := Mem ∅ ∅ (<[1%positive := cbuf "banana"]>
                       (<[2%positive := cbuf "apple"]>
                          (<[3%positive := cbuf "cherry"]> ∅))) [] in
  ∃ q m1 m2 ls1 ls2,
    (q <- q_new ;;
     q_insert_tail q (Some 1%positive) ;;
     q_insert_tail q (Some 2%positive) ;;
     q_insert_head q (Some 3%positive) ;;
     q_sort 5 q ;;
     ret q) m0 = Some (Some q, m1) ∧
    queue_rep m1 q ls1 ∧
    texts m1 ls1 = [Some (txt "apple"); Some (txt "banana"); Some (txt "cherry")] ∧
    q_reverse 4 (Some q) m1 = Some (tt, m2) ∧
    queue_rep m2 q ls2 ∧
    texts m2 ls2 = [Some (txt "cherry"); Some (txt "banana"); Some (txt "apple")].
Proof.
  intros m0.
  eexists _, _, _, [2%positive; 1%positive; 3%positive],
    [3%positive; 1%positive; 2%positive].
  split; [vm_compute; reflexivity|].
  split; [apply (bool_decide_unpack _); vm_compute; exact I|].
  split; [vm_compute; reflexivity|].
  split; [vm_compute; reflexivity|].
  split; [apply (bool_decide_unpack _); vm_compute; exact I|].
  vm_compute. reflexivity.
Qed.

(** * Further properties of the operations *)

(** ** Creation *)

(** X1: [q_new] returns NULL and leaves every object alone when the allocation
    fails; otherwise it returns the address of a header that did not exist
    before, which describes an empty queue with both references absent and
    count 0, and nothing else has changed. *)
Theorem q_new_result m :
  (fails_at 0 (plan m) = true →
   q_new m = Some (None, set_plan m (drop 1 (plan m)))) ∧
  (fails_at 0 (plan m) = false →
   ∃ qa m',
     q_new m = Some (Some qa, m') ∧
     queues m !! qa = None ∧
     queues m' = <[qa := Queue None None 0]> (queues m) ∧
     nodes m' = nodes m ∧ chars m' = chars m ∧
     plan m' = drop 1 (plan m) ∧
     queue_rep m' qa [] ∧
     structural_invariant m' (Queue None None 0) ∧
     q_size (Some qa) m' = Some (0, m')).
Proof.
  destruct m as [qs ns cs pl]. cbn [plan]. unfold fails_at. split.
  - intros Hf. unfold q_new, malloc_queue, next_fails, bind, ret. cbn [plan].
    destruct pl as [|[|] pl]; try discriminate. reflexivity.
  - intros Hf.
    set (qa := fresh (dom qs)).
    assert (qs !! qa = None) as Fq by (apply not_elem_of_dom, is_fresh).
    assert (q_new (Mem qs ns cs pl) =
            Some (Some qa, Mem (<[qa := Queue None None 0]> qs) ns cs (drop 1 pl)))
      as Hrun.
    { unfold q_new, malloc_queue, next_fails. unfold bind at 1 2. cbn [plan].
      assert (∀ m0 : mem, queues m0 = qs →
                (set_tail (fresh (dom (queues m0))) None ;;
                 set_head (fresh (dom (queues m0))) None ;;
                 set_size (fresh (dom (queues m0))) 0 ;;
                 ret (Some (fresh (dom (queues m0)))))
                  (set_queues m0
                     (<[fresh (dom (queues m0)) := Queue None None 0]> (queues m0))) =
                Some (Some qa,
                      Mem (<[qa := Queue None None 0]> qs) (nodes m0) (chars m0)
                          (plan m0))) as Hbody.
      { intros [qs0 ns0 cs0 pl0]. cbn [queues nodes chars plan]. intros ->.
        fold qa. unfold set_queues. cbn [queues nodes chars plan].
        mstep (set_tail_eq (<[qa := Queue None None 0]> qs) ns0 cs0 pl0 qa _ None
                 (lookup_insert_eq _ _ _)).
        rewrite insert_insert_eq. cbn [head tail size].
        mstep (set_head_eq (<[qa := Queue None None 0]> qs) ns0 cs0 pl0 qa _ None
                 (lookup_insert_eq _ _ _)).
        rewrite insert_insert_eq. cbn [head tail size].
        mstep (set_size_eq (<[qa := Queue None None 0]> qs) ns0 cs0 pl0 qa _ 0
                 (lookup_insert_eq _ _ _)).
        rewrite insert_insert_eq. reflexivity. }
      destruct pl as [|[|] pl]; try discriminate; cbv iota beta.
      - apply (Hbody (Mem qs ns cs [])). reflexivity.
      - apply (Hbody (set_plan (Mem qs ns cs (false :: pl)) pl)). reflexivity. }
    exists qa, (Mem (<[qa := Queue None None 0]> qs) ns cs (drop 1 pl)).
    cbn [queues nodes chars plan].
    split; [exact Hrun|]. split; [done|]. split; [done|]. split; [done|].
    split; [done|]. split; [done|].
    assert (queue_rep (Mem (<[qa := Queue None None 0]> qs) ns cs (drop 1 pl)) qa [])
      as R.
    { unfold queue_rep. cbn [queues nodes]. rewrite lookup_insert_eq.
      cbn [head tail size]. repeat split; try done; constructor. }
    split; [exact R|]. split.
    + eapply queue_rep_structural; [exact R | apply lookup_insert_eq | now right].
    + apply (q_size_rep _ qa [] R).
Qed.

Lemma q_new_result_witness :
  let m := Mem (<[1%positive := Queue None None 0]> ∅) ∅ ∅ [false; true] in
  ∃ qa m',
    q_new m = Some (Some qa, m') ∧
    queues m !! qa = None ∧
    queues m' = <[qa := Queue None None 0]> (queues m) ∧
    nodes m' = nodes m ∧ chars m' = chars m ∧
    plan m' = drop 1 (plan m) ∧
    queue_rep m' qa [] ∧
    structural_invariant m' (Queue None None 0) ∧
    q_size (Some qa) m' = Some (0, m').
Proof.
  intros m. apply (proj2 (q_new_result m)). reflexivity.
Defined.

(** ** Destruction *)

Lemma free_queue_eq qs ns cs pl qa q :
  qs !! qa = Some q →
  free_queue (Some qa) (Mem qs ns cs pl) = Some (tt, Mem (delete qa qs) ns cs pl).
Proof. intros H. unfold free_queue. cbn [queues]. now rewrite H. Qed.

(** The loop of [q_free] releases the elements of the list and their
    buffers, and nothing else. *)
Lemma free_loop_spec pl qa t sz (fuel : nat) : ∀ qs ns cs ls h,
  (length ls < fuel)%nat →
  qs !! qa = Some (Queue h t sz) →
  chain ns h ls → owned (Mem qs ns cs pl) ls →
  ∃ ns' cs',
    free_loop fuel qa (Mem qs ns cs pl) =
      Some (tt, Mem (<[qa := Queue None t sz]> qs) ns' cs' pl) ∧
    (∀ a, ns' !! a = if decide (a ∈ ls) then None else ns !! a) ∧
    (∀ v, cs' !! v =
          if decide (Some v ∈ value_of (Mem qs ns cs pl) <$> ls) then None
          else cs !! v).
Proof.
  induction fuel as [|f IH]; intros qs ns cs ls h Hf Hq C Ho; [lia|].
  cbn [free_loop]. mstep (get_head_eq qs ns cs pl qa _ Hq). cbn [head].
  destruct ls as [|a ls].
  { apply chain_nil in C as ->. exists ns, cs. rewrite insert_id by done.
    split; [done|]. split; intros x; rewrite decide_False; try done;
      cbn; apply not_elem_of_nil. }
  pose proof (chain_NoDup _ _ _ C) as ND. apply NoDup_cons in ND as [Ha ND].
  apply lseg_cons in C as [-> (n & Hn & C)].
  apply owned_cons in Ho as (Hva & [ta Hta] & Ho).
  pose proof Hta as Hta'.
  apply text_of_inv in Hta' as (n' & v & b & Hn' & Hv & Hb & _).
  rewrite Hn in Hn'. injection Hn' as <-.
  assert (value_of (Mem qs ns cs pl) a = Some v) as Hval.
  { unfold value_of. cbn [nodes]. rewrite Hn. exact Hv. }
  cbv zeta.
  mstep (get_head_eq qs ns cs pl qa _ Hq). cbn [head].
  mstep (get_next_eq qs ns cs pl a n Hn).
  mstep (set_head_eq qs ns cs pl qa _ (next n) Hq). cbn [tail size].
  set (qs1 := <[qa := Queue (next n) t sz]> qs).
  mstep (get_value_eq qs1 ns cs pl a n Hn). rewrite Hv.
  mstep (free_chars_eq qs1 ns cs pl v b Hb).
  mstep (free_ele_eq qs1 ns (delete v cs) pl a n Hn).
  assert (∀ x, x ∈ ls →
            value_of (Mem qs1 (delete a ns) (delete v cs) pl) x =
              value_of (Mem qs ns cs pl) x ∧
            text_of (Mem qs1 (delete a ns) (delete v cs) pl) x =
              text_of (Mem qs ns cs pl) x) as Hframe.
  { intros x Hx. assert (a ≠ x) as Hax by congruence.
    destruct Ho as [_ F]. rewrite Forall_forall in F.
    destruct (F x Hx) as [tx Htx].
    apply text_of_inv in Htx as (nx & vx & bx & Hnx & Hvx & Hbx & Hcx).
    assert (value_of (Mem qs ns cs pl) x = Some vx) as Hvalx.
    { unfold value_of. cbn [nodes]. rewrite Hnx. exact Hvx. }
    assert (v ≠ vx) as Hvv.
    { intros ->. apply Hva. rewrite Hval, <- Hvalx.
      now apply list_elem_of_fmap_2. }
    unfold text_of, buffer_of, value_of. cbn [nodes chars].
    rewrite lookup_delete_ne by done. rewrite Hnx. cbn. rewrite Hvx. cbn.
    now rewrite lookup_delete_ne by done. }
  destruct (IH qs1 (delete a ns) (delete v cs) ls (next n))
    as (ns' & cs' & Hrun & Hns & Hcs).
  - simpl in Hf. lia.
  - apply lookup_insert_eq.
  - eapply lseg_agree; [|exact C]. intros x Hx.
    apply lookup_delete_ne. congruence.
  - eapply owned_agree; [exact Hframe | exact Ho].
  - unfold qs1 in Hrun. rewrite insert_insert_eq in Hrun.
    exists ns', cs'. split; [exact Hrun|]. split.
    + intros x. rewrite Hns. destruct (decide (x = a)) as [->|Hxa].
      * rewrite decide_False by done. rewrite decide_True by left.
        apply lookup_delete_eq.
      * destruct (decide (x ∈ ls)) as [Hx|Hx].
        -- rewrite decide_True by (now right). done.
        -- rewrite decide_False.
           ++ now apply lookup_delete_ne.
           ++ intros Hin. apply elem_of_cons in Hin as [|]; done.
    + intros x. rewrite Hcs.
      assert (value_of (Mem qs1 (delete a ns) (delete v cs) pl) <$> ls =
              value_of (Mem qs ns cs pl) <$> ls) as ->.
      { apply list_fmap_ext. intros i y Hy. apply Hframe.
        eapply list_elem_of_lookup_2. exact Hy. }
      rewrite fmap_cons, Hval.
      destruct (decide (x = v)) as [->|Hxv].
      * rewrite Hval in Hva. rewrite decide_False by exact Hva.
        rewrite decide_True by left. apply lookup_delete_eq.
      * destruct (decide (Some x ∈ value_of (Mem qs ns cs pl) <$> ls)) as [Hx|Hx].
        -- rewrite decide_True by (now right). done.
        -- rewrite decide_False.
           ++ now apply lookup_delete_ne.
           ++ intros Hin. apply elem_of_cons in Hin as [|]; [congruence | done].
Qed.

(** X2: [q_free] on an absent queue does nothing.  On a queue in memory it
    returns and has released the header, every element of the queue and
    every payload buffer; all other headers, elements and buffers are as
    before, and the tail reference is never followed. *)
Theorem q_free_releases m q ls (fuel : nat) :
  queue_is m q ls → (length ls < fuel)%nat →
  ∃ m',
    q_free fuel q m = Some (tt, m') ∧
    (q = None → m' = m) ∧
    (∀ qa, q = Some qa → queues m' = delete qa (queues m)) ∧
    (∀ a, nodes m' !! a = if decide (a ∈ ls) then None else nodes m !! a) ∧
    (∀ v, chars m' !! v =
          if decide (Some v ∈ value_of m <$> ls) then None else chars m !! v) ∧
    plan m' = plan m.
Proof.
  destruct q as [qa|]; cbn [queue_is].
  2:{ intros -> _. exists m. split; [done|]. split; [done|]. split; [done|].
      split; [|split; [|done]]; intros x; rewrite decide_False; try done;
        cbn; apply not_elem_of_nil. }
  destruct m as [qs ns cs pl]. unfold queue_rep. cbn [queues nodes chars plan].
  destruct (qs !! qa) as [[h t sz]|] eqn:Hq; [|done].
  cbn [head tail size]. intros (C & _ & _ & Ho & _) Hf.
  destruct (free_loop_spec pl qa t sz fuel qs ns cs ls h Hf Hq C Ho)
    as (ns' & cs' & Hrun & Hns & Hcs).
  unfold q_free. mstep Hrun.
  rewrite (free_queue_eq _ ns' cs' pl qa _ (lookup_insert_eq _ _ _)).
  rewrite delete_insert_eq.
  eexists. split; [reflexivity|]. cbn [queues nodes chars plan].
  split; [done|]. split; [now intros ? [= <-]|]. done.
Qed.

Lemma q_free_releases_witness :
  let m := Mem (<[1%positive := Queue (Some 1%positive) (Some 2%positive) 2]> ∅)
               (<[1%positive := Ele (Some 1%positive) (Some 2%positive)]>
                  (<[2%positive := Ele (Some 2%positive) None]> ∅))
               (<[1%positive := cbuf "b"]>
                  (<[2%positive := cbuf "a"]>
                     (<[3%positive := cbuf "caller"]> ∅))) [] in
  ∃ m',
    q_free 3 (Some 1%positive) m = Some (tt, m') ∧
    (Some 1%positive = None → m' = m) ∧
    (∀ qa, Some 1%positive = Some qa → queues m' = delete qa (queues m)) ∧
    (∀ a, nodes m' !! a =
          if decide (a ∈ [1%positive; 2%positive]) then None else nodes m !! a) ∧
    (∀ v, chars m' !! v =
          if decide (Some v ∈ value_of m <$> [1%positive; 2%positive]) then None
          else chars m !! v) ∧
    plan m' = plan m.
Proof.
  intros m.
  apply (q_free_releases m (Some 1%positive) [1%positive; 2%positive] 3).
  - apply (bool_decide_unpack _). vm_compute. exact I.
  - simpl. lia.
Defined.

(** ** What reversing and sorting never do *)

Lemma unchanged_objects_refl m : unchanged_objects m m.
Proof. repeat split. Qed.

Lemma unchanged_objects_trans m1 m2 m3 :
  unchanged_objects m1 m2 → unchanged_objects m2 m3 → unchanged_objects m1 m3.
Proof.
  intros (C1 & P1 & V1 & S1) (C2 & P2 & V2 & S2). repeat split.
  - now rewrite C2. 
  - now rewrite P2.
  - intros a. now rewrite V2.
  - intros q. now rewrite S2.
Qed.

Lemma relinks_ret {A} (a : A) : relinks_only (ret a).
Proof. intros m r m' [= _ <-]. apply unchanged_objects_refl. Qed.

Lemma relinks_stuck {A} : relinks_only (@stuck A).
Proof. intros m r m' H. discriminate. Qed.

Lemma relinks_bind {A B} (c : M A) (k : A → M B) :
  relinks_only c → (∀ a, relinks_only (k a)) → relinks_only (bind c k).
Proof.
  intros Hc Hk m r m' H. unfold bind in H.
  destruct (c m) as [[a m1]|] eqn:E; [|discriminate].
  eapply unchanged_objects_trans; [eapply Hc | eapply Hk]; eauto.
Qed.

Lemma relinks_load_queue q : relinks_only (load_queue q).
Proof.
  intros m r m' H. unfold load_queue in H.
  destruct (queues m !! q); [|discriminate]. injection H as _ <-.
  apply unchanged_objects_refl.
Qed.

Lemma relinks_load_ele p : relinks_only (load_ele p).
Proof.
  intros m r m' H. unfold load_ele in H. destruct p as [a|]; [|discriminate].
  destruct (nodes m !! a); [|discriminate]. injection H as _ <-.
  apply unchanged_objects_refl.
Qed.

Lemma relinks_load_chars p : relinks_only (load_chars p).
Proof.
  intros m r m' H. unfold load_chars in H. destruct p as [a|]; [|discriminate].
  destruct (chars m !! a); [|discriminate]. injection H as _ <-.
  apply unchanged_objects_refl.
Qed.

Lemma relinks_set_head q p : relinks_only (set_head q p).
Proof.
  intros m r m' H. unfold set_head, load_queue, store_queue, bind in H.
  destruct (queues m !! q) as [x|] eqn:E; [|discriminate]. rewrite E in H.
  injection H as _ <-. repeat split. intros q'. cbn [queues set_queues].
  destruct (decide (q = q')) as [<-|Hne].
  - now rewrite lookup_insert_eq, E.
  - now rewrite lookup_insert_ne.
Qed.

Lemma relinks_set_tail q p : relinks_only (set_tail q p).
Proof.
  intros m r m' H. unfold set_tail, load_queue, store_queue, bind in H.
  destruct (queues m !! q) as [x|] eqn:E; [|discriminate]. rewrite E in H.
  injection H as _ <-. repeat split. intros q'. cbn [queues set_queues].
  destruct (decide (q = q')) as [<-|Hne].
  - now rewrite lookup_insert_eq, E.
  - now rewrite lookup_insert_ne.
Qed.

Lemma relinks_set_next e p : relinks_only (set_next e p).
Proof.
  intros m r m' H. unfold set_next, load_ele, store_ele, bind in H.
  destruct e as [a|]; [|discriminate].
  destruct (nodes m !! a) as [x|] eqn:E; [|discriminate]. rewrite E in H.
  injection H as _ <-. repeat split. intros a'. cbn [nodes set_nodes].
  destruct (decide (a = a')) as [<-|Hne].
  - now rewrite lookup_insert_eq, E.
  - now rewrite lookup_insert_ne.
Qed.

Create HintDb relinks.
#[local] Hint Resolve relinks_ret relinks_stuck relinks_load_queue relinks_load_ele
  relinks_load_chars relinks_set_head relinks_set_tail relinks_set_next : relinks.

(** Walk through a statement: binds, branches, and the primitives above. *)
Ltac relinks :=
  repeat first
    [ progress auto with relinks
    | apply relinks_bind; [|intros ?]
    | match goal with
      | |- relinks_only (match ?x with _ => _ end) => destruct x
      | |- relinks_only (if ?x then _ else _) => destruct x
      end ].

Lemma relinks_get_head q : relinks_only (get_head q).
Proof. unfold get_head. relinks. Qed.

Lemma relinks_get_tail q : relinks_only (get_tail q).
Proof. unfold get_tail. relinks. Qed.

Lemma relinks_get_next e : relinks_only (get_next e).
Proof. unfold get_next. relinks. Qed.

Lemma relinks_get_value e : relinks_only (get_value e).
Proof. unfold get_value. relinks. Qed.

Lemma relinks_c_strcmp s1 s2 : relinks_only (c_strcmp s1 s2).
Proof. unfold c_strcmp. relinks. Qed.

#[local] Hint Resolve relinks_get_head relinks_get_tail relinks_get_next
  relinks_get_value relinks_c_strcmp : relinks.

Lemma relinks_list_cmp l1 l2 : relinks_only (list_cmp l1 l2).
Proof. unfold list_cmp. relinks. Qed.

#[local] Hint Resolve relinks_list_cmp : relinks.

Lemma relinks_merge (fuel : nat) : ∀ l1 l2, relinks_only (merge fuel l1 l2).
Proof.
  induction fuel as [|f IH]; intros l1 l2; cbn [merge]; relinks.
Qed.

Lemma relinks_split_loop (fuel : nat) :
  ∀ slow fast, relinks_only (split_loop fuel slow fast).
Proof.
  induction fuel as [|f IH]; intros slow fast; cbn [split_loop]; relinks.
Qed.

#[local] Hint Resolve relinks_merge relinks_split_loop : relinks.

Lemma relinks_merge_sort (fuel : nat) : ∀ hd, relinks_only (merge_sort fuel hd).
Proof.
  induction fuel as [|f IH]; intros hd; cbn [merge_sort]; relinks.
Qed.

Lemma relinks_last_loop (fuel : nat) : ∀ tmp, relinks_only (last_loop fuel tmp).
Proof.
  induction fuel as [|f IH]; intros tmp; cbn [last_loop]; relinks.
Qed.

Lemma relinks_reverse_loop (fuel : nat) qa :
  ∀ prev, relinks_only (reverse_loop fuel qa prev).
Proof.
  induction fuel as [|f IH]; intros prev; cbn [reverse_loop]; relinks.
Qed.

#[local] Hint Resolve relinks_merge_sort relinks_last_loop
  relinks_reverse_loop : relinks.

Lemma relinks_q_reverse (fuel : nat) q : relinks_only (q_reverse fuel q).
Proof. unfold q_reverse. relinks. Qed.

Lemma relinks_q_sort (fuel : nat) q : relinks_only (q_sort fuel q).
Proof. unfold q_sort. relinks. Qed.

(** X3: [q_reverse] and [q_sort] only relink, in whatever memory they run and
    whenever they return: no buffer is written, allocated or released, no
    call of malloc is made, the same elements exist with the same payload
    pointers, and every count is as before. *)
Theorem q_reverse_q_sort_relink_only (fuel : nat) q m m' :
  q_reverse fuel q m = Some (tt, m') ∨ q_sort fuel q m = Some (tt, m') →
  chars m' = chars m ∧ plan m' = plan m ∧
  (∀ a, value <$> nodes m' !! a = value <$> nodes m !! a) ∧
  dom (nodes m') = dom (nodes m) ∧
  dom (queues m') = dom (queues m) ∧
  (∀ x n, q_size x m = Some (n, m) → q_size x m' = Some (n, m')).
Proof.
  intros H.
  assert (unchanged_objects m m') as (Hc & Hp & Hv & Hs).
  { destruct H as [H|H]; revert H.
    - apply relinks_q_reverse.
    - apply relinks_q_sort. }
  split; [done|]. split; [done|]. split; [done|]. split.
  { apply set_eq. intros a. rewrite !elem_of_dom.
    specialize (Hv a). destruct (nodes m' !! a), (nodes m !! a);
      cbn in Hv; try discriminate; split; intros [? ?]; eauto; discriminate. }
  split.
  { apply set_eq. intros a. rewrite !elem_of_dom.
    specialize (Hs a). destruct (queues m' !! a), (queues m !! a);
      cbn in Hs; try discriminate; split; intros [? ?]; eauto; discriminate. }
  intros [x|] n; cbn [q_size].
  - specialize (Hs x). unfold get_size, load_queue, bind, ret.
    destruct (queues m' !! x) as [q1|], (queues m !! x) as [q2|];
      cbn in Hs; try discriminate.
    injection Hs as Hs. rewrite Hs. now intros [= <-].
  - unfold ret. now intros [= <-].
Qed.

Lemma q_reverse_q_sort_relink_only_witness :
  let m := Mem (<[1%positive := Queue (Some 1%positive) (Some 2%positive) 2]> ∅)
               (<[1%positive := Ele (Some 1%positive) (Some 2%positive)]>
                  (<[2%positive := Ele (Some 2%positive) None]> ∅))
               (<[1%positive := cbuf "b"]> (<[2%positive := cbuf "a"]> ∅)) [] in
  let m' := Mem (<[1%positive := Queue (Some 2%positive) (Some 1%positive) 2]> ∅)
               (<[1%positive := Ele (Some 1%positive) None]>
                  (<[2%positive := Ele (Some 2%positive) (Some 1%positive)]> ∅))
               (<[1%positive := cbuf "b"]> (<[2%positive := cbuf "a"]> ∅)) [] in
  chars m' = chars m ∧ plan m' = plan m ∧
  (∀ a, value <$> nodes m' !! a = value <$> nodes m !! a) ∧
  dom (nodes m') = dom (nodes m) ∧
  dom (queues m') = dom (queues m) ∧
  (∀ x n, q_size x m = Some (n, m) → q_size x m' = Some (n, m')).
Proof.
  intros m m'.
  apply (q_reverse_q_sort_relink_only 4 (Some 1%positive) m m').
  right. vm_compute. reflexivity.
Defined.

(** ** Keeping the structural invariant *)

Lemma queue_rep_header m qa ls :
  queue_rep m qa ls → ∃ q, queues m !! qa = Some q.
Proof. unfold queue_rep. destruct (queues m !! qa); [eauto | done]. Qed.

Lemma queue_rep_structural_nonempty m qa ls :
  queue_rep m qa ls → ls ≠ [] →
  ∃ q, queues m !! qa = Some q ∧ structural_invariant m q.
Proof.
  intros R Hne. destruct (queue_rep_header m qa ls R) as [q Hq].
  exists q. split; [done|]. eapply queue_rep_structural; eauto.
Qed.

(** The count behind [INT_MAX]: an insertion into a queue of [INT_MAX]
    elements succeeds, and [q->size++] leaves the smallest [int] in the
    count, which [q_size] then returns. *)
Lemma q_insert_count_wraps m qa ls (ins : ptr → ptr → M bool) sa t :
  ins = q_insert_head ∨ ins = q_insert_tail →
  queue_rep m qa ls → text_at m (Some sa) = Some t →
  Z.of_nat (length t) + 1 <= INT_MAX →
  fails_at 0 (plan m) = false → fails_at 1 (plan m) = false →
  Z.of_nat (length ls) = INT_MAX →
  ∃ m' q',
    ins (Some qa) (Some sa) m = Some (true, m') ∧
    queues m' !! qa = Some q' ∧
    size q' = -2147483648 ∧ head q' ≠ None ∧
    q_size (Some qa) m' = Some (-2147483648, m').
Proof.
  intros Hins R HT Hlen Hok0 Hok1 Hcnt. revert R.
  destruct m as [qs ns cs pl]. unfold queue_rep.
  cbn [queues nodes chars plan] in *.
  destruct (qs !! qa) as [q|] eqn:Hq; [|done].
  intros (C & Hsz & Htl & Ho & Hmx).
  unfold text_at in HT. cbn in HT.
  destruct (cs !! sa) as [b|] eqn:Hb; [|done]. cbn in HT. rename HT into Ht.
  assert (int_of_Z (size q + 1) = -2147483648) as Ew.
  { rewrite Hsz, Hcnt. reflexivity. }
  assert (ls ≠ []) as Hne.
  { intros ->. unfold INT_MAX in Hcnt. simpl in Hcnt. lia. }
  assert (head q ≠ None) as Hh.
  { intros E. rewrite E in C. now apply chain_None in C. }
  assert (∀ qs' ns' cs' pl' h tl,
            q_size (Some qa)
              (Mem (<[qa := Queue h tl (-2147483648)]> qs') ns' cs' pl') =
            Some (-2147483648,
                  Mem (<[qa := Queue h tl (-2147483648)]> qs') ns' cs' pl'))
    as Hqs.
  { intros. unfold q_size.
    now rewrite (get_size_eq _ _ _ _ qa _ (lookup_insert_eq _ _ _)). }
  destruct Hins as [->| ->].
  - pose proof (q_insert_head_run qs ns cs pl qa sa b t Hb Ht Hlen Hok0 Hok1
                  q Hq) as Hrun.
    rewrite Ew in Hrun.
    eexists _, _. split; [exact Hrun|]. cbn [queues].
    split; [apply lookup_insert_eq|]. cbn [head size].
    split; [done|]. split; [done|]. apply Hqs.
  - specialize (Htl Hne).
    destruct (proj2 (last_is_Some ls) Hne) as [tl Hlast].
    rewrite Hlast in Htl.
    assert (tl ∈ ls) as Hin.
    { apply last_Some in Hlast as [l0 ->]. apply elem_of_app. right. left. }
    destruct (chain_lookup _ _ _ _ C Hin) as [ntl Hntl].
    assert (size q ≠ 0) as Hnz.
    { rewrite Hsz, Hcnt. done. }
    pose proof (q_insert_tail_run_last qs ns cs pl qa sa b t Hb Ht Hlen Hok0 Hok1
                  q tl ntl Hq Hnz Htl Hntl) as Hrun.
    rewrite Ew in Hrun.
    eexists _, _. split; [exact Hrun|]. cbn [queues].
    split; [apply lookup_insert_eq|]. cbn [head size].
    split; [done|]. split; [done|]. apply Hqs.
Qed.

(** X4: Every operation but a removal that empties the queue leaves the
    structural invariant in force.  A successful insertion establishes it
    whatever the tail reference held before; [q_reverse] and [q_sort] keep
    it; so does [q_remove_head] when an element remains. *)
Theorem structural_invariant_kept m qa ls q :
  queue_rep m qa ls → queues m !! qa = Some q →
  (∀ (ins : ptr → ptr → M bool) sa t,
     ins = q_insert_head ∨ ins = q_insert_tail →
     text_at m (Some sa) = Some t → Z.of_nat (length t) + 1 <= INT_MAX →
     fails_at 0 (plan m) = false → fails_at 1 (plan m) = false →
     ∃ m' q', ins (Some qa) (Some sa) m = Some (true, m') ∧
              queues m' !! qa = Some q' ∧ structural_invariant m' q') ∧
  (structural_invariant m q →
   ∀ fuel : nat, (length ls + 2 ≤ fuel)%nat →
     (∃ m' q', q_reverse fuel (Some qa) m = Some (tt, m') ∧
               queues m' !! qa = Some q' ∧ structural_invariant m' q') ∧
     (∃ m' q', q_sort fuel (Some qa) m = Some (tt, m') ∧
               queues m' !! qa = Some q' ∧ structural_invariant m' q')) ∧
  (∀ spa bufsize,
     (2 ≤ length ls)%nat → buffer_ready m (Some spa) bufsize ls →
     ∃ m' q', q_remove_head (Some qa) (Some spa) bufsize m = Some (true, m') ∧
              queues m' !! qa = Some q' ∧ structural_invariant m' q').
Proof.
  intros R Hq. split; [|split].
  - intros ins sa t Hins Ht Hlen H0 H1.
    assert (Z.of_nat (length ls) <= INT_MAX) as Hmx.
    { unfold queue_rep in R. rewrite Hq in R.
      destruct R as (_ & Hsz & _ & _ & Hmx). now rewrite <- Hsz. }
    destruct (Z.eq_dec (Z.of_nat (length ls)) INT_MAX) as [Hcnt|Hcnt].
    { destruct (q_insert_count_wraps m qa ls ins sa t Hins R Ht Hlen H0 H1 Hcnt)
        as (m' & q' & Hrun & Hq' & Hs & Hh & _).
      exists m', q'. split; [exact Hrun|]. split; [exact Hq'|]. split.
      - rewrite Hs. split; [done|]. intros [E _]. done.
      - rewrite Hs. done. }
    assert (Z.of_nat (length ls) < INT_MAX) as Hlt by lia.
    destruct Hins as [->| ->].
    + destruct (q_insert_head_spec m qa ls sa t R Ht Hlen H0 H1 Hlt)
        as (m' & Hrun & R' & _).
      destruct (queue_rep_structural_nonempty m' qa _ R') as (q' & Hq' & S');
        [done|]. eauto.
    + destruct (q_insert_tail_spec m qa ls sa t R Ht Hlen H0 H1 Hlt)
        as (m' & Hrun & R' & _).
      destruct (queue_rep_structural_nonempty m' qa _ R') as (q' & Hq' & S').
      { intros E. apply (f_equal length) in E. rewrite length_app in E.
        simpl in E. lia. }
      eauto.
  - intros S fuel Hf. split.
    + destruct (q_reverse_spec m qa ls fuel R ltac:(lia)) as (m' & Hrun & R' & _ & E).
      destruct (decide (ls = [])) as [Hnil|Hne].
      * rewrite (E Hnil) in *. eauto.
      * destruct (queue_rep_structural_nonempty m' qa _ R') as (q' & Hq' & S').
        { intros E'. apply Hne. apply (f_equal length) in E'.
          rewrite length_reverse in E'. now destruct ls. }
        eauto.
    + destruct (q_sort_spec m qa ls fuel R Hf)
        as (m' & ls' & Hrun & R' & _ & P & _ & _ & E).
      destruct (decide (ls = [])) as [Hnil|Hne].
      * subst ls. destruct (E ltac:(simpl; lia)) as [-> _]. eauto.
      * destruct (queue_rep_structural_nonempty m' qa _ R') as (q' & Hq' & S').
        { intros ->. apply Permutation_nil in P. done. }
        eauto.
  - intros spa bufsize Hlen B.
    destruct ls as [|a [|b rest]]; [simpl in Hlen; lia.. |].
    destruct (buffer_ready_inv m spa bufsize _ B) as (d & Hd & Hbs & Hsp).
    destruct (q_remove_head_spec m qa a (b :: rest) spa d bufsize R Hd Hsp Hbs)
      as (m' & q0 & b0 & t0 & d' & _ & _ & _ & _ & Hrun & R' & _).
    destruct (queue_rep_structural_nonempty m' qa _ R') as (q' & Hq' & S');
      [done|]. eauto.
Qed.

Lemma structural_invariant_kept_witness :
  let m := Mem (<[1%positive := Queue (Some 1%positive) (Some 2%positive) 2]> ∅)
               (<[1%positive := Ele (Some 1%positive) (Some 2%positive)]>
                  (<[2%positive := Ele (Some 2%positive) None]> ∅))
               (<[1%positive := cbuf "b"]>
                  (<[2%positive := cbuf "a"]>
                     (<[3%positive := replicate 4 NUL]> ∅))) [] in
  ∃ m' q', q_remove_head (Some 1%positive) (Some 3%positive) 4 m = Some (true, m') ∧
           queues m' !! 1%positive = Some q' ∧ structural_invariant m' q'.
Proof.
  intros m.
  refine (proj2 (proj2 (structural_invariant_kept m 1%positive
                          [1%positive; 2%positive]
                          (Queue (Some 1%positive) (Some 2%positive) 2) _ _))
            3%positive 4 _ _).
  - apply (bool_decide_unpack _). vm_compute. exact I.
  - reflexivity.
  - simpl. lia.
  - apply (bool_decide_unpack _). vm_compute. exact I.
Defined.

(** ** The sorted sequence of payloads *)

Lemma text_le_trans s t u : text_le s t → text_le t u → text_le s u.
Proof.
  unfold text_le. intros H1 H2.
  exact (klt_negtrans text_lt text_lt_trans text_lt_total u t s H2 H1).
Qed.

(** A sequence of texts has one sorted arrangement only. *)
Lemma sorted_texts_unique (ts1 ts2 : list bytes) :
  Sorted text_le ts1 → Sorted text_le ts2 → ts1 ≡ₚ ts2 → ts1 = ts2.
Proof.
  apply (@sorting.Sorted_unique_strong _ text_le text_le_trans).
  intros s t _ _ H1 H2. symmetry. now apply text_lt_total.
Qed.

Lemma texts_payloads m ls :
  Forall (λ a, is_Some (text_of m a)) ls → texts m ls = Some <$> payloads m ls.
Proof.
  intros F. unfold texts, payloads. rewrite <- list_fmap_compose.
  apply list_fmap_ext. intros i a Ha. cbn.
  rewrite Forall_forall in F. destruct (F a) as [t ->]; [|done].
  eapply list_elem_of_lookup_2. exact Ha.
Qed.

Lemma queue_rep_texts m qa ls :
  queue_rep m qa ls → texts m ls = Some <$> payloads m ls.
Proof.
  intros R. apply texts_payloads. unfold queue_rep in R.
  destruct (queues m !! qa); [|done]. apply R.
Qed.

Lemma Some_fmap_perm {A} (l1 l2 : list A) :
  Some <$> l1 ≡ₚ Some <$> l2 → l1 ≡ₚ l2.
Proof.
  intros P. apply (fmap_Permutation (λ o, from_option (λ x, [x]) [] o)) in P.
  apply (bind_Permutation id) in P.
  assert (∀ l : list A,
            (from_option (λ x, [x]) [] <$> (Some <$> l)) ≫= id = l) as E.
  { induction l as [|x l IH]; [done|]. cbn. now rewrite IH. }
  now rewrite !E in P.
Qed.

(** [q_sort], on the sequence of payloads. *)
Lemma q_sort_payloads m qa ls (fuel : nat) :
  queue_rep m qa ls → (length ls + 2 ≤ fuel)%nat →
  ∃ m' ls',
    q_sort fuel (Some qa) m = Some (tt, m') ∧
    queue_rep m' qa ls' ∧
    payloads m' ls' ≡ₚ payloads m ls ∧
    Sorted text_le (payloads m' ls').
Proof.
  intros R Hf.
  destruct (q_sort_spec m qa ls fuel R Hf)
    as (m' & ls' & Hrun & R' & T & P & So & _).
  exists m', ls'. split; [done|]. split; [done|].
  assert (payloads m' ls' = payloads m ls') as ->.
  { unfold payloads. apply list_fmap_ext. intros i a _. cbn. now rewrite T. }
  split; [unfold payloads; now rewrite P|].
  unfold payloads. eapply sorting.Sorted_fmap; [|exact So].
  intros a b Hab. exact Hab.
Qed.

(** X5: The payload sequence after [q_sort] depends on the payloads alone, not
    on their order before or on where the elements are: two queues whose
    payload sequences are permutations of one another read the same after
    sorting. *)
Theorem q_sort_by_payloads_only m1 qa1 ls1 m2 qa2 ls2 (fuel1 fuel2 : nat) :
  queue_rep m1 qa1 ls1 → queue_rep m2 qa2 ls2 →
  texts m1 ls1 ≡ₚ texts m2 ls2 →
  (length ls1 + 2 ≤ fuel1)%nat → (length ls2 + 2 ≤ fuel2)%nat →
  ∃ m1' ls1' m2' ls2',
    q_sort fuel1 (Some qa1) m1 = Some (tt, m1') ∧
    q_sort fuel2 (Some qa2) m2 = Some (tt, m2') ∧
    queue_rep m1' qa1 ls1' ∧ queue_rep m2' qa2 ls2' ∧
    texts m1' ls1' = texts m2' ls2'.
Proof.
  intros R1 R2 P Hf1 Hf2.
  destruct (q_sort_payloads m1 qa1 ls1 fuel1 R1 Hf1)
    as (m1' & ls1' & Hrun1 & R1' & P1 & S1).
  destruct (q_sort_payloads m2 qa2 ls2 fuel2 R2 Hf2)
    as (m2' & ls2' & Hrun2 & R2' & P2 & S2).
  exists m1', ls1', m2', ls2'. repeat split; try done.
  rewrite (queue_rep_texts _ _ _ R1'), (queue_rep_texts _ _ _ R2'). f_equal.
  apply sorted_texts_unique; [done | done |].
  rewrite P1, P2.
  rewrite (queue_rep_texts _ _ _ R1), (queue_rep_texts _ _ _ R2) in P.
  now apply Some_fmap_perm.
Qed.

Lemma q_sort_by_payloads_only_witness :
  let m1 := Mem (<[1%positive := Queue (Some 1%positive) (Some 2%positive) 2]> ∅)
                (<[1%positive := Ele (Some 1%positive) (Some 2%positive)]>
                   (<[2%positive := Ele (Some 2%positive) None]> ∅))
                (<[1%positive := cbuf "b"]> (<[2%positive := cbuf "a"]> ∅)) [] in
  let m2 := Mem (<[7%positive := Queue (Some 5%positive) (Some 4%positive) 2]> ∅)
                (<[5%positive := Ele (Some 9%positive) (Some 4%positive)]>
                   (<[4%positive := Ele (Some 8%positive) None]> ∅))
                (<[9%positive := cbuf "a"]> (<[8%positive := cbuf "b"]> ∅)) [] in
  ∃ m1' ls1' m2' ls2',
    q_sort 4 (Some 1%positive) m1 = Some (tt, m1') ∧
    q_sort 4 (Some 7%positive) m2 = Some (tt, m2') ∧
    queue_rep m1' 1%positive ls1' ∧ queue_rep m2' 7%positive ls2' ∧
    texts m1' ls1' = texts m2' ls2'.
Proof.
  intros m1 m2.
  apply (q_sort_by_payloads_only m1 1%positive [1%positive; 2%positive]
           m2 7%positive [5%positive; 4%positive] 4 4).
  - apply (bool_decide_unpack _). vm_compute. exact I.
  - apply (bool_decide_unpack _). vm_compute. exact I.
  - vm_compute. apply perm_swap.
  - simpl. lia.
  - simpl. lia.
Defined.

(** X6: Sorting a second time changes no payload of the sequence (it may
    exchange elements whose payloads are equal). *)
Theorem q_sort_idempotent m q ls (fuel : nat) :
  queue_is m q ls → (length ls + 2 ≤ fuel)%nat →
  ∃ m1 ls1 m2 ls2,
    q_sort fuel q m = Some (tt, m1) ∧ queue_is m1 q ls1 ∧
    q_sort fuel q m1 = Some (tt, m2) ∧ queue_is m2 q ls2 ∧
    texts m2 ls2 = texts m1 ls1.
Proof.
  destruct q as [qa|]; cbn [queue_is].
  2:{ intros -> _. exists m, [], m, []. repeat split; done. }
  intros R Hf.
  destruct (q_sort_payloads m qa ls fuel R Hf)
    as (m1 & ls1 & Hrun1 & R1 & P1 & S1).
  assert (length ls1 = length ls) as Hlen.
  { apply Permutation_length in P1. unfold payloads in P1.
    now rewrite !length_fmap in P1. }
  destruct (q_sort_payloads m1 qa ls1 fuel R1 ltac:(lia))
    as (m2 & ls2 & Hrun2 & R2 & P2 & S2).
  exists m1, ls1, m2, ls2. repeat split; try done.
  rewrite (queue_rep_texts _ _ _ R1), (queue_rep_texts _ _ _ R2). f_equal.
  now apply sorted_texts_unique.
Qed.

Lemma q_sort_idempotent_witness :
  let m := Mem (<[1%positive := Queue (Some 1%positive) (Some 3%positive) 3]> ∅)
               (<[1%positive := Ele (Some 1%positive) (Some 2%positive)]>
                  (<[2%positive := Ele (Some 2%positive) (Some 3%positive)]>
                     (<[3%positive := Ele (Some 3%positive) None]> ∅)))
               (<[1%positive := cbuf "b"]>
                  (<[2%positive := cbuf "a"]>
                     (<[3%positive := cbuf "b"]> ∅))) [] in
  ∃ m1 ls1 m2 ls2,
    q_sort 5 (Some 1%positive) m = Some (tt, m1) ∧
    queue_is m1 (Some 1%positive) ls1 ∧
    q_sort 5 (Some 1%positive) m1 = Some (tt, m2) ∧
    queue_is m2 (Some 1%positive) ls2 ∧
    texts m2 ls2 = texts m1 ls1.
Proof.
  intros m.
  apply (q_sort_idempotent m (Some 1%positive)
           [1%positive; 2%positive; 3%positive] 5).
  - apply (bool_decide_unpack _). vm_compute. exact I.
  - simpl. lia.
Defined.

(** X7: Reversing a sorted queue gives the payloads in non-increasing order. *)
Theorem q_sort_then_reverse_descending m q ls (fuel : nat) :
  queue_is m q ls → (length ls + 2 ≤ fuel)%nat →
  ∃ m1 ls1 m2,
    q_sort fuel q m = Some (tt, m1) ∧ queue_is m1 q ls1 ∧
    q_reverse fuel q m1 = Some (tt, m2) ∧ queue_is m2 q (reverse ls1) ∧
    texts m2 (reverse ls1) ≡ₚ texts m ls ∧
    Sorted (λ a b, payload_le m2 b a) (reverse ls1).
Proof.
  destruct q as [qa|]; cbn [queue_is].
  2:{ intros -> _. exists m, [], m. repeat split; done. }
  intros R Hf.
  destruct (q_sort_spec m qa ls fuel R Hf)
    as (m1 & ls1 & Hrun1 & R1 & T1 & P1 & So & _).
  assert (length ls1 = length ls) as Hlen by now rewrite P1.
  destruct (q_reverse_spec m1 qa ls1 fuel R1 ltac:(lia))
    as (m2 & Hrun2 & R2 & T2 & _).
  exists m1, ls1, m2. repeat split; try done.
  - rewrite (texts_agree m1 m2) by done. rewrite (texts_agree m m1) by done.
    unfold texts. now rewrite reverse_Permutation, P1.
  - assert (Forall (λ a, is_Some (text_of m2 a)) (reverse ls1)) as F.
    { unfold queue_rep in R2. destruct (queues m2 !! qa); [|done]. apply R2. }
    eapply (Sorted_restrict _ (flip (ele_le m))); [exact F | |].
    + intros a b Ha Hb Hle. apply ele_le_payload_le; [done | done |].
      unfold flip, ele_le, ele_lt in *. now rewrite !T2, !T1.
    + now apply sorting.Sorted_reverse.
Qed.

Lemma q_sort_then_reverse_descending_witness :
  let m := Mem (<[1%positive := Queue (Some 1%positive) (Some 3%positive) 3]> ∅)
               (<[1%positive := Ele (Some 1%positive) (Some 2%positive)]>
                  (<[2%positive := Ele (Some 2%positive) (Some 3%positive)]>
                     (<[3%positive := Ele (Some 3%positive) None]> ∅)))
               (<[1%positive := cbuf "banana"]>
                  (<[2%positive := cbuf "apple"]>
                     (<[3%positive := cbuf "cherry"]> ∅))) [] in
  ∃ m1 ls1 m2,
    q_sort 5 (Some 1%positive) m = Some (tt, m1) ∧
    queue_is m1 (Some 1%positive) ls1 ∧
    q_reverse 5 (Some 1%positive) m1 = Some (tt, m2) ∧
    queue_is m2 (Some 1%positive) (reverse ls1) ∧
    texts m2 (reverse ls1) ≡ₚ texts m [1%positive; 2%positive; 3%positive] ∧
    Sorted (λ a b, payload_le m2 b a) (reverse ls1).
Proof.
  intros m.
  apply (q_sort_then_reverse_descending m (Some 1%positive)
           [1%positive; 2%positive; 3%positive] 5).
  - apply (bool_decide_unpack _). vm_compute. exact I.
  - simpl. lia.
Defined.

(** ** Insertion at the head, undone by removal *)

(** Writing into a buffer that is no payload leaves the payloads alone. *)
Lemma owned_write qs qs' ns cs pl pl' spa d' ls :
  Some spa ∉ value_of (Mem qs ns cs pl) <$> ls →
  owned (Mem qs ns cs pl) ls →
  owned (Mem qs' ns (<[spa := d']> cs) pl') ls ∧
  texts (Mem qs' ns (<[spa := d']> cs) pl') ls = texts (Mem qs ns cs pl) ls.
Proof.
  intros Hsp Ho.
  assert (∀ x, x ∈ ls →
            value_of (Mem qs' ns (<[spa := d']> cs) pl') x =
              value_of (Mem qs ns cs pl) x ∧
            text_of (Mem qs' ns (<[spa := d']> cs) pl') x =
              text_of (Mem qs ns cs pl) x) as Hframe.
  { intros x Hx. split; [done|].
    destruct Ho as [_ F]. rewrite Forall_forall in F.
    destruct (F x Hx) as [tx Htx].
    apply text_of_inv in Htx as (nx & vx & bx & Hnx & Hvx & Hbx & Hcx).
    assert (spa ≠ vx) as Hne.
    { intros ->. apply Hsp. apply list_elem_of_fmap. exists x. split; [|done].
      unfold value_of. cbn [nodes]. now rewrite Hnx. }
    unfold text_of, buffer_of, value_of. cbn [nodes chars].
    rewrite Hnx. cbn. rewrite Hvx. cbn. now rewrite lookup_insert_ne. }
  split.
  - eapply owned_agree; [exact Hframe | exact Ho].
  - unfold texts. apply list_fmap_ext. intros i x Hx. apply Hframe.
    eapply list_elem_of_lookup_2. exact Hx.
Qed.

(** X8: for a text that with its terminator has at most [INT_MAX] bytes,
    [q_insert_head] followed by [q_remove_head] hands the text back, cut to
    [bufsize - 1] bytes, and undoes the insertion: the queue has the
    elements and payloads it had, the set of elements is the one before,
    and of the buffers only the caller's has changed.  When the queue had
    elements its header is as before as well, also when the count wrapped
    around in between. *)
Theorem q_insert_head_remove_head m qa ls sa t spa bufsize :
  queue_rep m qa ls → text_at m (Some sa) = Some t →
  Z.of_nat (length t) + 1 <= INT_MAX →
  buffer_ready m (Some spa) bufsize ls → 1 <= bufsize →
  fails_at 0 (plan m) = false → fails_at 1 (plan m) = false →
  ∃ m1 m2 d',
    q_insert_head (Some qa) (Some sa) m = Some (true, m1) ∧
    q_remove_head (Some qa) (Some spa) bufsize m1 = Some (true, m2) ∧
    c_str d' = Some (take (Z.to_nat (bufsize - 1)) t) ∧
    queue_rep m2 qa ls ∧ texts m2 ls = texts m ls ∧
    nodes m2 = nodes m ∧ chars m2 = <[spa := d']> (chars m) ∧
    (ls ≠ [] → queues m2 = queues m).
Proof.
  destruct m as [qs ns cs pl]. unfold queue_rep, text_at.
  cbn [queues nodes chars plan].
  destruct (qs !! qa) as [q|] eqn:Hq; [|done].
  intros (C & Hsz & Htl & Ho & Hmx). cbn.
  destruct (cs !! sa) as [b|] eqn:Hb; [|done]. cbn.
  intros Ht Hlen B Hbs Hok0 Hok1.
  destruct (buffer_ready_inv _ spa bufsize ls B) as (d & Hd & Hr & Hsp).
  cbn [chars] in Hd.
  set (a := fresh (dom ns)). set (v := fresh (dom cs)).
  pose proof (fresh_nodes ns) as Fa. pose proof (fresh_chars cs) as Fv.
  fold a in Fa. fold v in Fv.
  assert (spa ≠ v) as Hne by congruence.
  pose proof (c_str_no_nul _ _ Ht) as Hnn.
  pose proof (q_insert_head_run qs ns cs pl qa sa b t Hb Ht Hlen Hok0 Hok1 q Hq)
    as Hrun1. fold a v in Hrun1.
  set (tl' := if size q =? 0 then Some a else tail q) in *.
  set (qs1 := <[qa := Queue (Some a) tl' (int_of_Z (size q + 1))]> qs) in *.
  set (ns1 := <[a := Ele (Some v) (head q)]> ns) in *.
  set (cs1 := <[v := t ++ [NUL]]> cs) in *.
  destruct (q_remove_head_run qs1 ns1 cs1 (drop 2 pl) qa
              (Queue (Some a) tl' (int_of_Z (size q + 1))) a
              (Ele (Some v) (head q)) v
              (t ++ [NUL]) t spa d bufsize)
    as (d' & Hs & Hrun2).
  { apply lookup_insert_eq. }
  { done. }
  { apply lookup_insert_eq. }
  { done. }
  { apply lookup_insert_eq. }
  { now apply c_str_app_nul. }
  { unfold cs1. now rewrite lookup_insert_ne by done. }
  { done. }
  { done. }
  cbn [head tail size next] in Hrun2.
  unfold qs1, ns1, cs1 in Hrun2.
  rewrite insert_insert_eq in Hrun2.
  rewrite delete_insert_eq, (delete_id ns a Fa) in Hrun2.
  rewrite (insert_insert_ne cs) in Hrun2 by done.
  rewrite delete_insert_eq in Hrun2.
  rewrite delete_id in Hrun2 by (now rewrite lookup_insert_ne by done).
  rewrite (int_of_Z_succ_pred (size q)) in Hrun2 by lia.
  destruct (owned_write qs (<[qa := Queue (head q) tl' (size q)]> qs) ns cs pl
              (drop 2 pl) spa d' ls Hsp Ho) as [Ho' Htx].
  eexists _, _, d'. split; [exact Hrun1|]. split; [exact Hrun2|].
  cbn [queues nodes chars plan]. rewrite lookup_insert_eq. cbn [head tail size].
  split.
  { cbv zeta in Hs. rewrite realBufSize_exact in Hs by exact Hlen.
    rewrite (snprintf_bytes_spec d _ (t ++ [NUL]) t) in Hs;
      [|now apply c_str_app_nul | lia].
    rewrite (proj2 (Z.eqb_neq _ 0)) in Hs by lia. cbv zeta in Hs.
    injection Hs as <-. rewrite c_str_take_nul by done. f_equal.
    destruct (Z.le_gt_cases (Z.of_nat (length t)) (bufsize - 1)).
    - rewrite !take_ge by lia. done.
    - f_equal. lia. }
  split.
  { split; [done|]. split; [done|]. split; [|done].
    intros Hne'. unfold tl'.
    rewrite (proj2 (Z.eqb_neq (size q) 0)); [now apply Htl|].
    rewrite Hsz. destruct ls; [done|]. simpl. lia. }
  split; [done|]. split; [done|]. split; [done|].
  intros Hne'. unfold tl'.
  rewrite (proj2 (Z.eqb_neq (size q) 0)).
  - apply insert_id. now destruct q.
  - rewrite Hsz. destruct ls; [done|]. simpl. lia.
Qed.

Lemma q_insert_head_remove_head_witness :
  let m := Mem (<[1%positive := Queue (Some 1%positive) (Some 1%positive) 1]> ∅)
               (<[1%positive := Ele (Some 1%positive) None]> ∅)
               (<[1%positive := cbuf "banana"]>
                  (<[2%positive := cbuf "apple"]>
                     (<[3%positive := txt "########"]> ∅))) [] in
  ∃ m1 m2 d',
    q_insert_head (Some 1%positive) (Some 2%positive) m = Some (true, m1) ∧
    q_remove_head (Some 1%positive) (Some 3%positive) 4 m1 = Some (true, m2) ∧
    c_str d' = Some (take (Z.to_nat (4 - 1)) (txt "apple")) ∧
    queue_rep m2 1%positive [1%positive] ∧
    texts m2 [1%positive] = texts m [1%positive] ∧
    nodes m2 = nodes m ∧ chars m2 = <[3%positive := d']> (chars m) ∧
    ([1%positive] ≠ [] → queues m2 = queues m).
Proof.
  intros m.
  apply (q_insert_head_remove_head m 1%positive [1%positive] 2%positive
           (txt "apple") 3%positive 4).
  - apply (bool_decide_unpack _). vm_compute. exact I.
  - vm_compute. reflexivity.
  - vm_compute. discriminate.
  - apply (bool_decide_unpack _). vm_compute. exact I.
  - lia.
  - reflexivity.
  - reflexivity.
Defined.

(** ** The memory after reversing and sorting *)

(** [q_reverse] on a queue with elements, with the memory it leaves. *)
Lemma q_reverse_run qs ns cs pl qa a ls t sz (fuel : nat) :
  qs !! qa = Some (Queue (Some a) t sz) →
  chain ns (Some a) (a :: ls) → t = last (a :: ls) →
  (length (a :: ls) < fuel)%nat →
  ∃ ns',
    q_reverse fuel (Some qa) (Mem qs ns cs pl) =
      Some (tt, Mem (<[qa := Queue t (Some a) sz]> qs) ns' cs pl) ∧
    chain ns' t (reverse (a :: ls)) ∧
    relinked (a :: ls) ns ns'.
Proof.
  intros Hq C Ht Hf.
  unfold q_reverse. mstep (get_head_eq qs ns cs pl qa _ Hq). cbn [head].
  destruct (reverse_loop_spec cs pl qa t sz fuel qs ns (a :: ls) [] (Some a) None)
    as (ns' & p' & Hr & Cr & R); [done | done | done | done | |].
  { intros x _ Hx. inversion Hx. }
  rewrite app_nil_r in Cr.
  mstep Hr.
  mstep (get_tail_eq (<[qa := Queue None t sz]> qs) ns' cs pl qa _
           (lookup_insert_eq _ _ _)).
  mstep (set_head_eq (<[qa := Queue None t sz]> qs) ns' cs pl qa _ t
           (lookup_insert_eq _ _ _)).
  rewrite insert_insert_eq.
  rewrite (set_tail_eq _ ns' cs pl qa _ (Some a) (lookup_insert_eq _ _ _)).
  rewrite insert_insert_eq. cbn [head tail size].
  exists ns'. split; [reflexivity|]. split; [|exact R].
  assert (hd_error (reverse (a :: ls)) = last (a :: ls)) as E
    by apply head_reverse.
  destruct (reverse (a :: ls)) as [|x l] eqn:Er.
  - apply (f_equal length) in Er. rewrite length_reverse in Er. done.
  - simpl in E. rewrite Ht, <- E.
    apply lseg_cons in Cr as Cr'. destruct Cr' as [-> _]. exact Cr.
Qed.

(** [q_sort] on a queue with at least two elements, with the memory it
    leaves. *)
Lemma q_sort_run qs ns cs pl qa h t sz ls (fuel : nat) :
  qs !! qa = Some (Queue h t sz) →
  chain ns h ls → (2 ≤ length ls)%nat →
  Forall (λ a, is_Some (text_of (Mem qs ns cs pl) a)) ls →
  (length ls + 2 ≤ fuel)%nat →
  ∃ ns' ls',
    q_sort fuel (Some qa) (Mem qs ns cs pl) =
      Some (tt, Mem (<[qa := Queue (hd_error ls') (last ls') sz]> qs) ns' cs pl) ∧
    chain ns' (hd_error ls') ls' ∧
    relinked ls ns ns' ∧ ls' ≡ₚ ls.
Proof.
  intros Hq C Hlen Fo Hf.
  unfold q_sort. mstep (get_head_eq qs ns cs pl qa _ Hq). cbn [head].
  destruct ls as [|a [|b rest]]; [simpl in Hlen; lia.. |].
  pose proof C as C'. apply lseg_cons in C' as [-> (n & Hn & C')].
  pose proof C' as C''. apply lseg_cons in C'' as [Eb _].
  mstep (get_next_eq qs ns cs pl a n Hn). rewrite Eb.
  mstep (get_head_eq qs ns cs pl qa _ Hq). cbn [head].
  set (ls := a :: b :: rest) in *.
  set (k := λ x, default [] (text_of (Mem qs ns cs pl) x)).
  destruct (merge_sort_spec qs cs pl k fuel ns ls (Some a))
    as (ns' & r & ls' & Hm & Cr & R & P & _); [done | done | |].
  { intros x Hx. rewrite Forall_forall in Fo.
    destruct (Fo x Hx) as [tx Hx']. unfold k. now rewrite Hx'. }
  mstep Hm. mstep (set_head_eq qs ns' cs pl qa _ r Hq). cbn [head tail size].
  mstep (get_head_eq (<[qa := Queue r t sz]> qs) ns' cs pl qa _
           (lookup_insert_eq _ _ _)). cbn [head].
  destruct ls' as [|x ls'].
  { apply Permutation_nil in P. done. }
  pose proof Cr as Cr'. apply lseg_cons in Cr' as [-> _].
  assert (length (x :: ls') = length ls) as Hlen' by now rewrite P.
  assert (length ls' < fuel)%nat as Hf'.
  { unfold ls in *. simpl in *. lia. }
  mstep (last_loop_spec (<[qa := Queue (Some x) t sz]> qs) cs pl ns' fuel ls' x
           Hf' Cr).
  rewrite (set_tail_eq _ ns' cs pl qa _ _ (lookup_insert_eq _ _ _)).
  rewrite insert_insert_eq. cbn [head tail size].
  exists ns', (x :: ls'). split; [reflexivity|]. done.
Qed.

(** Two NULL-terminated lists over the same elements have the same
    links. *)
Lemma chain_same_links ns ns' ls : ∀ p,
  chain ns p ls → chain ns' p ls →
  ∀ x, x ∈ ls → next <$> ns' !! x = next <$> ns !! x.
Proof.
  induction ls as [|a ls IH]; intros p C C' x Hx; [inversion Hx|].
  apply lseg_cons in C as [-> (n & Hn & C)].
  apply lseg_cons in C' as [_ (n' & Hn' & C')].
  assert (next n' = next n) as E.
  { destruct ls as [|b ls].
    - apply chain_nil in C, C'. congruence.
    - apply lseg_cons in C as [-> _]. apply lseg_cons in C' as [-> _]. done. }
  pose proof (chain_NoDup ns (a :: ls) (Some a)) as ND.
  apply elem_of_cons in Hx as [->|Hx].
  - rewrite Hn, Hn'. cbn. now rewrite E.
  - rewrite E in C'. eapply IH; eauto.
Qed.

(** X9: Reversing twice restores the memory exactly: every link, the header,
    and all the rest. *)
Theorem q_reverse_twice_restores m q ls (fuel : nat) :
  queue_is m q ls → (length ls < fuel)%nat →
  ∃ m1, q_reverse fuel q m = Some (tt, m1) ∧
        q_reverse fuel q m1 = Some (tt, m).
Proof.
  destruct q as [qa|]; cbn [queue_is].
  2:{ intros -> _. exists m. split; reflexivity. }
  intros R Hf.
  destruct ls as [|a ls].
  { destruct (q_reverse_spec m qa [] fuel R Hf) as (m1 & H1 & _ & _ & E).
    rewrite (E eq_refl) in H1. exists m. split; exact H1. }
  destruct m as [qs ns cs pl]. unfold queue_rep in R. cbn [queues nodes] in R.
  destruct (qs !! qa) as [[h t sz]|] eqn:Hq; [|done].
  cbn [head tail size] in R. destruct R as (C & Hsz & Ht & Ho & Hmx).
  pose proof C as C0. apply lseg_cons in C0 as [-> _].
  specialize (Ht ltac:(done)).
  destruct (q_reverse_run qs ns cs pl qa a ls t sz fuel Hq C Ht Hf)
    as (ns1 & H1 & C1 & R1).
  destruct (reverse (a :: ls)) as [|l rest] eqn:Er.
  { apply (f_equal length) in Er. rewrite length_reverse in Er. done. }
  pose proof C1 as C1'. apply lseg_cons in C1' as [Et _].
  assert (last (l :: rest) = Some a) as Hl.
  { rewrite <- Er, last_reverse. done. }
  destruct (q_reverse_run (<[qa := Queue t (Some a) sz]> qs) ns1 cs pl qa
              l rest (Some a) sz fuel)
    as (ns2 & H2 & C2 & R2).
  { rewrite Et. apply lookup_insert_eq. }
  { now rewrite <- Et. }
  { now symmetry. }
  { rewrite <- Er, length_reverse. exact Hf. }
  rewrite <- Er, reverse_involutive in C2.
  rewrite insert_insert_eq in H2. rewrite <- Et in H2.
  rewrite (insert_id qs qa _ Hq) in H2.
  assert (relinked (a :: ls) ns1 ns2) as R2'.
  { eapply relinked_mono; [|exact R2]. intros x Hx.
    rewrite <- Er, elem_of_reverse in Hx. exact Hx. }
  assert (ns2 = ns) as ->.
  { apply map_eq. intros x.
    destruct (decide (x ∈ a :: ls)) as [Hx|Hx].
    - pose proof (chain_same_links ns ns2 (a :: ls) (Some a) C C2 x Hx) as En.
      destruct R1 as [V1 _], R2' as [V2 _].
      pose proof (V2 x) as Ev. rewrite V1 in Ev.
      destruct (ns2 !! x) as [[v2 n2]|], (ns !! x) as [[v0 n0]|];
        cbn in *; congruence.
    - destruct R1 as [_ O1], R2' as [_ O2]. now rewrite O2, O1. }
  eexists. split; [exact H1 | exact H2].
Qed.

Lemma q_reverse_twice_restores_witness :
  let m := Mem (<[1%positive := Queue (Some 1%positive) (Some 3%positive) 3]> ∅)
               (<[1%positive := Ele (Some 1%positive) (Some 2%positive)]>
                  (<[2%positive := Ele (Some 2%positive) (Some 3%positive)]>
                     (<[3%positive := Ele (Some 3%positive) None]> ∅)))
               (<[1%positive := cbuf "banana"]>
                  (<[2%positive := cbuf "apple"]>
                     (<[3%positive := cbuf "cherry"]> ∅))) [] in
  ∃ m1, q_reverse 4 (Some 1%positive) m = Some (tt, m1) ∧
        q_reverse 4 (Some 1%positive) m1 = Some (tt, m).
Proof.
  intros m.
  apply (q_reverse_twice_restores m (Some 1%positive)
           [1%positive; 2%positive; 3%positive] 4).
  - apply (bool_decide_unpack _). vm_compute. exact I.
  - simpl. lia.
Defined.

(** ** What an operation leaves alone *)

Lemma footprint_mono m m' qa ls ls' sp :
  (∀ a, a ∈ ls → a ∈ ls') → footprint m m' qa ls sp → footprint m m' qa ls' sp.
Proof.
  intros Hsub (Hq & Hn & Hc). split; [exact Hq|]. split.
  - intros a n Ha. apply Hn. auto.
  - intros v b Hv. apply Hc. intros Hin. apply Hv.
    apply list_elem_of_fmap in Hin as (x & -> & Hx).
    apply list_elem_of_fmap. eauto.
Qed.

(** A queue outside the footprint of an operation is still there, with
    the same elements and payloads. *)
Lemma footprint_other_queue m m' qa lsa sp qb lsb :
  footprint m m' qa lsa sp →
  queue_rep m qb lsb → qb ≠ qa →
  (∀ a, a ∈ lsb → a ∉ lsa) →
  (∀ v, Some v ∈ value_of m <$> lsb →
        (Some v ∉ value_of m <$> lsa) ∧ Some v ≠ sp) →
  queue_rep m' qb lsb ∧ texts m' lsb = texts m lsb.
Proof.
  intros (Fq & Fn & Fc) R Hne Dn Dc.
  unfold queue_rep in *. rewrite (Fq qb Hne).
  destruct (queues m !! qb) as [q|]; [|done].
  destruct R as (C & Hsz & Ht & Ho & Hmx).
  assert (∀ a, a ∈ lsb → nodes m' !! a = nodes m !! a) as En.
  { intros a Ha. destruct (chain_lookup _ _ _ _ C Ha) as [n Hn].
    rewrite Hn. apply Fn; auto. }
  assert (∀ a, a ∈ lsb →
            value_of m' a = value_of m a ∧ text_of m' a = text_of m a) as Ev.
  { intros a Ha.
    assert (value_of m' a = value_of m a) as E.
    { unfold value_of. now rewrite En. }
    split; [exact E|].
    destruct Ho as [_ F]. rewrite Forall_forall in F.
    destruct (F a Ha) as [t Ht']. rewrite Ht'.
    unfold text_of, buffer_of in *. rewrite E.
    destruct (value_of m a) as [v|] eqn:Hv; [|done]. cbn in *.
    destruct (chars m !! v) as [b|] eqn:Hb; [|done].
    assert (Some v ∈ value_of m <$> lsb) as Hin.
    { apply list_elem_of_fmap. exists a. split; [now symmetry | done]. }
    destruct (Dc v Hin) as [H1 H2].
    now rewrite (Fc v b H1 H2 Hb). }
  split.
  - split; [eapply lseg_agree; [|exact C]; auto|].
    split; [done|]. split; [done|]. split; [|exact Hmx].
    eapply owned_agree; [|exact Ho]. exact Ev.
  - unfold texts. apply list_fmap_ext. intros i a Hi.
    apply Ev. eapply list_elem_of_lookup_2; eauto.
Qed.

Lemma q_insert_head_footprint m qa ls sa t :
  queue_rep m qa ls → text_at m (Some sa) = Some t →
  Z.of_nat (length t) + 1 <= INT_MAX →
  fails_at 0 (plan m) = false → fails_at 1 (plan m) = false →
  ∃ m', q_insert_head (Some qa) (Some sa) m = Some (true, m') ∧
        footprint m m' qa [] None.
Proof.
  destruct m as [qs ns cs pl]. unfold queue_rep, text_at. cbn [queues nodes chars plan].
  destruct (qs !! qa) as [q|] eqn:Hq; [|done].
  intros _. cbn.
  destruct (cs !! sa) as [b|] eqn:Hb; [|done]. cbn. intros Ht Hlen Hok0 Hok1.
  eexists. split;
    [apply (q_insert_head_run qs ns cs pl qa sa b t Hb Ht Hlen Hok0 Hok1 q Hq)|].
  pose proof (fresh_nodes ns) as Fa. pose proof (fresh_chars cs) as Fv.
  unfold footprint. cbn [queues nodes chars]. split; [|split].
  - intros x Hx. now rewrite lookup_insert_ne.
  - intros x n _ Hn. rewrite lookup_insert_ne by congruence. exact Hn.
  - intros x d _ _ Hd. rewrite lookup_insert_ne by congruence. exact Hd.
Qed.

Lemma q_insert_tail_footprint m qa ls sa t :
  queue_rep m qa ls → text_at m (Some sa) = Some t →
  Z.of_nat (length t) + 1 <= INT_MAX →
  fails_at 0 (plan m) = false → fails_at 1 (plan m) = false →
  ∃ m', q_insert_tail (Some qa) (Some sa) m = Some (true, m') ∧
        footprint m m' qa ls None.
Proof.
  destruct m as [qs ns cs pl]. unfold queue_rep, text_at. cbn [queues nodes chars plan].
  destruct (qs !! qa) as [q|] eqn:Hq; [|done].
  intros (C & Hsz & Htl & Ho & Hmx). cbn.
  destruct (cs !! sa) as [b|] eqn:Hb; [|done]. cbn. intros Ht Hlen Hok0 Hok1.
  pose proof (fresh_nodes ns) as Fa. pose proof (fresh_chars cs) as Fv.
  destruct (decide (ls = [])) as [->|Hne].
  - simpl in Hsz.
    eexists. split;
      [apply (q_insert_tail_run_empty qs ns cs pl qa sa b t Hb Ht Hlen Hok0 Hok1 q Hq Hsz)|].
    unfold footprint. cbn [queues nodes chars]. split; [|split].
    + intros x Hx. now rewrite lookup_insert_ne.
    + intros x n _ Hn. rewrite lookup_insert_ne by congruence. exact Hn.
    + intros x d _ _ Hd. rewrite lookup_insert_ne by congruence. exact Hd.
  - specialize (Htl Hne).
    destruct (proj2 (last_is_Some ls) Hne) as [tl Hlast].
    rewrite Hlast in Htl.
    assert (tl ∈ ls) as Hin.
    { apply last_Some in Hlast as [l0 ->]. apply elem_of_app. right. left. }
    destruct (chain_lookup _ _ _ _ C Hin) as [ntl Hntl].
    assert (size q ≠ 0) as Hnz.
    { rewrite Hsz. destruct ls; [done | simpl; lia]. }
    eexists. split;
      [apply (q_insert_tail_run_last qs ns cs pl qa sa b t Hb Ht Hlen Hok0 Hok1
                q tl ntl Hq Hnz Htl Hntl)|].
    unfold footprint. cbn [queues nodes chars]. split; [|split].
    + intros x Hx. now rewrite lookup_insert_ne.
    + intros x n Hx Hn. rewrite !lookup_insert_ne by congruence. exact Hn.
    + intros x d _ _ Hd. rewrite lookup_insert_ne by congruence. exact Hd.
Qed.

Lemma q_remove_head_footprint m qa a ls spa d bufsize :
  queue_rep m qa (a :: ls) →
  chars m !! spa = Some d →
  Some spa ∉ value_of m <$> (a :: ls) →
  0 <= bufsize <= Z.of_nat (length d) →
  ∃ m', q_remove_head (Some qa) (Some spa) bufsize m = Some (true, m') ∧
        footprint m m' qa [a] (Some spa).
Proof.
  destruct m as [qs ns cs pl]. unfold queue_rep. cbn [queues nodes chars plan].
  destruct (qs !! qa) as [q|] eqn:Hq; [|done].
  intros (C & Hsz & Htl & Ho & Hmx) Hd Hsp Hbs.
  apply lseg_cons in C as [Hh (n & Hn & C)].
  apply owned_cons in Ho as (Hva & [t Ht] & Ho).
  pose proof Ht as Ht'.
  apply text_of_inv in Ht' as (n' & v & b & Hn' & Hv & Hb & Hc).
  rewrite Hn in Hn'. injection Hn' as <-.
  assert (value_of (Mem qs ns cs pl) a = Some v) as Hval.
  { unfold value_of. cbn [nodes]. rewrite Hn. exact Hv. }
  assert (spa ≠ v) as Hne.
  { intros ->. apply Hsp. rewrite fmap_cons, Hval. left. }
  destruct (q_remove_head_run qs ns cs pl qa q a n v b t spa d bufsize
              Hq Hh Hn Hv Hb Hc Hd Hne Hbs) as (d' & Hs & Hrun).
  eexists. split; [exact Hrun|].
  unfold footprint. cbn [queues nodes chars]. split; [|split].
  - intros x Hx. now rewrite lookup_insert_ne.
  - intros x nx Hx Hnx. rewrite lookup_delete_ne; [exact Hnx|].
    intros ->. apply Hx. left.
  - intros x dx Hx Hx' Hdx.
    rewrite lookup_delete_ne.
    + rewrite lookup_insert_ne by congruence. exact Hdx.
    + intros ->. apply Hx. rewrite fmap_cons, Hval. left.
Qed.

Lemma q_reverse_footprint m qa ls (fuel : nat) :
  queue_rep m qa ls → (length ls < fuel)%nat →
  ∃ m', q_reverse fuel (Some qa) m = Some (tt, m') ∧ footprint m m' qa ls None.
Proof.
  intros R Hf. destruct ls as [|a ls].
  { destruct (q_reverse_spec m qa [] fuel R Hf) as (m1 & H1 & _ & _ & E).
    rewrite (E eq_refl) in H1. exists m. split; [exact H1|].
    split; [done|]. split; done. }
  destruct m as [qs ns cs pl]. unfold queue_rep in R. cbn [queues nodes] in R.
  destruct (qs !! qa) as [[h t sz]|] eqn:Hq; [|done].
  cbn [head tail size] in R. destruct R as (C & Hsz & Ht & Ho & Hmx).
  pose proof C as C0. apply lseg_cons in C0 as [-> _].
  specialize (Ht ltac:(done)).
  destruct (q_reverse_run qs ns cs pl qa a ls t sz fuel Hq C Ht Hf)
    as (ns1 & H1 & C1 & [_ R1]).
  eexists. split; [exact H1|].
  unfold footprint. cbn [queues nodes chars]. split; [|split].
  - intros x Hx. now rewrite lookup_insert_ne.
  - intros x n Hx Hn. now rewrite R1.
  - done.
Qed.

Lemma q_sort_footprint m qa ls (fuel : nat) :
  queue_rep m qa ls → (length ls + 2 ≤ fuel)%nat →
  ∃ m', q_sort fuel (Some qa) m = Some (tt, m') ∧ footprint m m' qa ls None.
Proof.
  intros R Hf.
  destruct (le_lt_dec (length ls) 1) as [Hs|Hl].
  { destruct (q_sort_spec m qa ls fuel R Hf)
      as (m1 & ls1 & H1 & _ & _ & _ & _ & _ & E).
    destruct (E Hs) as [-> _]. exists m. split; [exact H1|].
    split; [done|]. split; done. }
  destruct m as [qs ns cs pl]. unfold queue_rep in R. cbn [queues nodes] in R.
  destruct (qs !! qa) as [[h t sz]|] eqn:Hq; [|done].
  cbn [head tail size] in R. destruct R as (C & Hsz & Ht & Ho & Hmx).
  destruct (q_sort_run qs ns cs pl qa h t sz ls fuel Hq C ltac:(lia)
              (proj2 Ho) Hf) as (ns1 & ls1 & H1 & C1 & [_ R1] & P).
  eexists. split; [exact H1|].
  unfold footprint. cbn [queues nodes chars]. split; [|split].
  - intros x Hx. now rewrite lookup_insert_ne.
  - intros x n Hx Hn. now rewrite R1.
  - done.
Qed.

Lemma q_free_footprint m qa ls (fuel : nat) :
  queue_rep m qa ls → (length ls < fuel)%nat →
  ∃ m', q_free fuel (Some qa) m = Some (tt, m') ∧ footprint m m' qa ls None.
Proof.
  destruct m as [qs ns cs pl]. unfold queue_rep. cbn [queues nodes chars plan].
  destruct (qs !! qa) as [[h t sz]|] eqn:Hq; [|done].
  cbn [head tail size]. intros (C & _ & _ & Ho & _) Hf.
  destruct (free_loop_spec pl qa t sz fuel qs ns cs ls h Hf Hq C Ho)
    as (ns' & cs' & Hrun & Hns & Hcs).
  unfold q_free. mstep Hrun.
  rewrite (free_queue_eq _ ns' cs' pl qa _ (lookup_insert_eq _ _ _)).
  rewrite delete_insert_eq.
  eexists. split; [reflexivity|].
  unfold footprint. cbn [queues nodes chars]. split; [|split].
  - intros x Hx. now rewrite lookup_delete_ne.
  - intros x n Hx Hn. rewrite Hns, decide_False by exact Hx. exact Hn.
  - intros x d Hx _ Hd. rewrite Hcs, decide_False by exact Hx. exact Hd.
Qed.

(** X10: Two queues that share no element and no payload buffer are
    independent: whatever is done to the queue at [qa] (an insertion at
    either end, a removal, [q_reverse], [q_sort], even [q_free]), the queue
    at [qb] keeps its elements, in their order, with their payloads. *)
Theorem other_queue_untouched m qa lsa qb lsb :
  queue_rep m qa lsa → queue_rep m qb lsb → qa ≠ qb →
  (∀ a, a ∈ lsa → a ∉ lsb) →
  (∀ v, Some v ∈ value_of m <$> lsa → Some v ∉ value_of m <$> lsb) →
  (∀ (ins : ptr → ptr → M bool) sa t,
     ins = q_insert_head ∨ ins = q_insert_tail →
     text_at m (Some sa) = Some t → Z.of_nat (length t) + 1 <= INT_MAX →
     fails_at 0 (plan m) = false → fails_at 1 (plan m) = false →
     ∃ m', ins (Some qa) (Some sa) m = Some (true, m') ∧
           queue_rep m' qb lsb ∧ texts m' lsb = texts m lsb) ∧
  (∀ spa bufsize,
     lsa ≠ [] → buffer_ready m (Some spa) bufsize (lsa ++ lsb) →
     ∃ m', q_remove_head (Some qa) (Some spa) bufsize m = Some (true, m') ∧
           queue_rep m' qb lsb ∧ texts m' lsb = texts m lsb) ∧
  (∀ fuel : nat, (length lsa + 2 ≤ fuel)%nat →
     (∃ m', q_reverse fuel (Some qa) m = Some (tt, m') ∧
            queue_rep m' qb lsb ∧ texts m' lsb = texts m lsb) ∧
     (∃ m', q_sort fuel (Some qa) m = Some (tt, m') ∧
            queue_rep m' qb lsb ∧ texts m' lsb = texts m lsb) ∧
     (∃ m', q_free fuel (Some qa) m = Some (tt, m') ∧
            queue_rep m' qb lsb ∧ texts m' lsb = texts m lsb)).
Proof.
  intros Ra Rb Hne Dn Dv.
  assert (∀ a, a ∈ lsb → a ∉ lsa) as Dn' by (intros a Hb Ha; exact (Dn a Ha Hb)).
  assert (∀ v, Some v ∈ value_of m <$> lsb →
               (Some v ∉ value_of m <$> lsa) ∧ Some v ≠ None) as Dv'.
  { intros v Hb. split; [|done]. intros Ha. exact (Dv v Ha Hb). }
  assert (∀ m', footprint m m' qa lsa None →
                queue_rep m' qb lsb ∧ texts m' lsb = texts m lsb) as K.
  { intros m' F. eapply footprint_other_queue; eauto. }
  split; [|split].
  - intros ins sa t [->| ->] Ht Hlen H0 H1.
    + destruct (q_insert_head_footprint m qa lsa sa t Ra Ht Hlen H0 H1)
        as (m' & Hrun & F).
      exists m'. split; [exact Hrun|]. apply K.
      eapply footprint_mono; [|exact F]. intros a Ha. inversion Ha.
    + destruct (q_insert_tail_footprint m qa lsa sa t Ra Ht Hlen H0 H1)
        as (m' & Hrun & F).
      exists m'. split; [exact Hrun|]. apply K, F.
  - intros spa bufsize Hnil B.
    destruct lsa as [|a lsa]; [done|].
    destruct (buffer_ready_inv m spa bufsize _ B) as (d & Hd & Hbs & Hsp).
    rewrite fmap_app in Hsp.
    destruct (q_remove_head_footprint m qa a lsa spa d bufsize Ra Hd
                ltac:(intros Hin; apply Hsp, elem_of_app; now left) Hbs)
      as (m' & Hrun & F).
    exists m'. split; [exact Hrun|].
    eapply footprint_other_queue; [exact F | exact Rb | congruence | |].
    + intros x Hb Ha. apply list_elem_of_singleton in Ha as ->.
      apply (Dn' a Hb). left.
    + intros v Hb. split.
      * intros Ha. apply (Dv v); [|exact Hb].
        rewrite fmap_cons. apply elem_of_cons.
        apply list_elem_of_singleton in Ha. now left.
      * intros [= ->]. apply Hsp, elem_of_app. now right.
  - intros fuel Hf. split; [|split].
    + destruct (q_reverse_footprint m qa lsa fuel Ra ltac:(lia)) as (m' & Hrun & F).
      exists m'. split; [exact Hrun|]. apply K, F.
    + destruct (q_sort_footprint m qa lsa fuel Ra Hf) as (m' & Hrun & F).
      exists m'. split; [exact Hrun|]. apply K, F.
    + destruct (q_free_footprint m qa lsa fuel Ra ltac:(lia)) as (m' & Hrun & F).
      exists m'. split; [exact Hrun|]. apply K, F.
Qed.

Lemma other_queue_untouched_witness :
  let m := Mem (<[1%positive := Queue (Some 1%positive) (Some 2%positive) 2]>
                  (<[2%positive := Queue (Some 3%positive) (Some 3%positive) 1]> ∅))
               (<[1%positive := Ele (Some 1%positive) (Some 2%positive)]>
                  (<[2%positive := Ele (Some 2%positive) None]>
                     (<[3%positive := Ele (Some 3%positive) None]> ∅)))
               (<[1%positive := cbuf "b"]>
                  (<[2%positive := cbuf "a"]>
                     (<[3%positive := cbuf "other"]> ∅))) [] in
  ∃ m', q_sort 4 (Some 1%positive) m = Some (tt, m') ∧
        queue_rep m' 2%positive [3%positive] ∧
        texts m' [3%positive] = texts m [3%positive].
Proof.
  intros m.
  refine (proj1 (proj2 (proj2 (proj2 (other_queue_untouched m 1%positive
            [1%positive; 2%positive] 2%positive [3%positive] _ _ _ _ _)) 4%nat _))).
  - apply (bool_decide_unpack _). vm_compute. exact I.
  - apply (bool_decide_unpack _). vm_compute. exact I.
  - done.
  - intros a Ha Hb. apply list_elem_of_singleton in Hb as ->.
    revert Ha. apply (bool_decide_unpack _). vm_compute. exact I.
  - intros v Ha Hb. vm_compute in Hb.
    apply list_elem_of_singleton in Hb as [= ->].
    revert Ha. apply (bool_decide_unpack _). vm_compute. exact I.
  - simpl. lia.
Defined.

(** ** Merging and sorting lists that are not a whole queue *)

Lemma payload_le_ele_le m a b :
  is_Some (text_of m a) → is_Some (text_of m b) →
  payload_le m a b → ele_le m a b.
Proof.
  destruct m as [qs ns cs pl]. intros [ta Ha] [tb Hb] (ba & bb & z & Hba & Hbb & Hz & Hle).
  unfold ele_le, ele_lt. rewrite Ha, Hb. cbn [default].
  unfold text_of in Ha, Hb. rewrite Hba in Ha. rewrite Hbb in Hb. cbn in Ha, Hb.
  destruct (strcmp_text ba bb ta tb Ha Hb) as (z' & Hz' & Hlt & Heq).
  rewrite Hz in Hz'. injection Hz' as <-.
  change (text_lt tb ta = false).
  destruct (Z.eq_dec z 0) as [E|E].
  - apply Heq in E as ->. apply text_lt_irrefl.
  - assert (text_lt ta tb = true) as L.
    { rewrite <- Hlt. apply Z.ltb_lt. lia. }
    destruct (text_lt tb ta) eqn:L'; [|reflexivity].
    rewrite <- (text_lt_irrefl ta). symmetry.
    eapply text_lt_trans; eauto.
Qed.

Lemma sorted_payload_ele m ls :
  Forall (λ a, is_Some (text_of m a)) ls →
  Sorted (payload_le m) ls → Sorted (ele_le m) ls.
Proof.
  intros F. eapply Sorted_restrict; [exact F|].
  intros a b Ha Hb. now apply payload_le_ele_le.
Qed.

Lemma sorted_ele_payload m m' ls :
  (∀ a, text_of m' a = text_of m a) →
  Forall (λ a, is_Some (text_of m a)) ls →
  Sorted (ele_le m) ls → Sorted (payload_le m') ls.
Proof.
  intros T F. eapply Sorted_restrict; [exact F|].
  intros a b Ha Hb Hle. apply ele_le_payload_le; [now rewrite T | now rewrite T |].
  unfold ele_le, ele_lt in *. now rewrite !T.
Qed.

(** X11: [merge] on two sorted lists without a common element returns them
    merged into one sorted list.  It only sets [next] fields of the
    elements of the two lists; with an empty list on either side it does
    nothing at all. *)
Theorem merge_sorted_lists m p1 p2 l1 l2 (fuel : nat) :
  chain (nodes m) p1 l1 → chain (nodes m) p2 l2 →
  (∀ a, a ∈ l1 → a ∉ l2) →
  Forall (λ a, is_Some (text_of m a)) (l1 ++ l2) →
  Sorted (payload_le m) l1 → Sorted (payload_le m) l2 →
  (length l1 + length l2 < fuel)%nat →
  ∃ m' r ls,
    merge fuel p1 p2 m = Some (r, m') ∧
    chain (nodes m') r ls ∧ ls ≡ₚ l1 ++ l2 ∧ Sorted (payload_le m') ls ∧
    (∀ a, a ∉ l1 ++ l2 → nodes m' !! a = nodes m !! a) ∧
    (∀ a, text_of m' a = text_of m a) ∧
    queues m' = queues m ∧ chars m' = chars m ∧ plan m' = plan m ∧
    (l1 = [] ∨ l2 = [] → m' = m).
Proof.
  intros C1 C2 D F S1 S2 Hf.
  destruct fuel as [|f]; [lia|].
  destruct l2 as [|a2 l2].
  { apply chain_nil in C2 as ->. exists m, p1, l1. cbn [merge].
    rewrite app_nil_r.
    split; [reflexivity|]. split; [exact C1|]. split; [done|].
    split; [exact S1|]. repeat split; done. }
  destruct l1 as [|a1 l1].
  { apply chain_nil in C1 as ->. pose proof C2 as C2'.
    apply lseg_cons in C2' as [-> _].
    exists m, (Some a2), (a2 :: l2). cbn [merge].
    split; [reflexivity|]. split; [exact C2|]. split; [done|].
    split; [exact S2|]. repeat split; done. }
  destruct m as [qs ns cs pl]. cbn [nodes] in C1, C2.
  set (m := Mem qs ns cs pl) in *.
  set (k := λ x, default [] (text_of m x)).
  set (L1 := a1 :: l1) in *. set (L2 := a2 :: l2) in *.
  destruct (merge_spec qs cs pl k (S f) ns L1 L2 p1 p2 Hf C1 C2 D)
    as (ns' & r & Hm & Cr & R).
  { intros x Hx. rewrite Forall_forall in F.
    destruct (F x Hx) as [tx Hx']. unfold k. fold m. now rewrite Hx'. }
  assert (∀ a, text_of (Mem qs ns' cs pl) a = text_of m a) as T.
  { intros a. apply (text_of_relinked (L1 ++ L2)). exact R. }
  apply Forall_app in F as F'. destruct F' as [F1 F2].
  exists (Mem qs ns' cs pl), r, (merge_list (λ a b, text_lt (k a) (k b)) L1 L2).
  split; [exact Hm|]. split; [exact Cr|]. split; [apply merge_list_perm|].
  split.
  { apply (sorted_ele_payload m); [exact T | |].
    - rewrite Forall_forall in *. intros x Hx. apply F.
      now rewrite merge_list_perm in Hx.
    - exact (merge_list_sorted k text_lt text_lt_irrefl text_lt_trans
               L1 L2 (sorted_payload_ele m L1 F1 S1)
               (sorted_payload_ele m L2 F2 S2)). }
  split; [intros a Ha; now apply R|]. split; [exact T|].
  split; [done|]. split; [done|]. split; [done|].
  intros [E|E]; discriminate E.
Qed.

Lemma merge_sorted_lists_witness :
  let m := Mem ∅
               (<[1%positive := Ele (Some 1%positive) (Some 3%positive)]>
                  (<[2%positive := Ele (Some 2%positive) None]>
                     (<[3%positive := Ele (Some 3%positive) None]> ∅)))
               (<[1%positive := cbuf "a"]>
                  (<[2%positive := cbuf "b"]>
                     (<[3%positive := cbuf "c"]> ∅))) [] in
  ∃ m' r ls,
    merge 4 (Some 1%positive) (Some 2%positive) m = Some (r, m') ∧
    chain (nodes m') r ls ∧
    ls ≡ₚ [1%positive; 3%positive] ++ [2%positive] ∧
    Sorted (payload_le m') ls ∧
    (∀ a, a ∉ [1%positive; 3%positive] ++ [2%positive] →
          nodes m' !! a = nodes m !! a) ∧
    (∀ a, text_of m' a = text_of m a) ∧
    queues m' = queues m ∧ chars m' = chars m ∧ plan m' = plan m ∧
    ([1%positive; 3%positive] = [] ∨ [2%positive] = [] → m' = m).
Proof.
  intros m.
  apply (merge_sorted_lists m (Some 1%positive) (Some 2%positive)
           [1%positive; 3%positive] [2%positive] 4).
  - apply (bool_decide_unpack _). vm_compute. exact I.
  - apply (bool_decide_unpack _). vm_compute. exact I.
  - intros a Ha Hb. apply list_elem_of_singleton in Hb as ->.
    revert Ha. apply (bool_decide_unpack _). vm_compute. exact I.
  - apply (bool_decide_unpack _). vm_compute. exact I.
  - repeat constructor.
    exists (cbuf "a"), (cbuf "c"), (-2). repeat split; try reflexivity. lia.
  - repeat constructor.
  - simpl. lia.
Defined.

Lemma split_loop_index qs ns cs pl (fuel : nat) : ∀ sl fl slow fast,
  (length fl < fuel)%nat → (Nat.div2 (length fl) < length sl)%nat →
  chain ns slow sl → chain ns fast fl →
  split_loop fuel slow fast (Mem qs ns cs pl) =
    Some (sl !! Nat.div2 (length fl), Mem qs ns cs pl).
Proof.
  induction fuel as [|f IH]; intros sl fl slow fast Hf Hl Cs Cf; [lia|].
  destruct fl as [|f1 fl].
  { apply chain_nil in Cf as ->.
    destruct sl as [|a sl]; [simpl in Hl; lia|].
    apply lseg_cons in Cs as [-> _]. done. }
  apply lseg_cons in Cf as [-> (n1 & Hn1 & Cf)].
  cbn [split_loop]. mstep (get_next_eq qs ns cs pl f1 n1 Hn1).
  destruct fl as [|f2 fl].
  { apply chain_nil in Cf as ->.
    destruct sl as [|a sl]; [simpl in Hl; lia|].
    apply lseg_cons in Cs as [-> _]. done. }
  apply lseg_cons in Cf as [E2 (n2 & Hn2 & Cf)]. rewrite E2.
  change (Nat.div2 (length (f1 :: f2 :: fl))) with (S (Nat.div2 (length fl))) in *.
  destruct sl as [|s1 sl]; [inversion Hl|].
  apply lseg_cons in Cs as [-> (m1 & Hm1 & Cs)].
  mstep (get_next_eq qs ns cs pl s1 m1 Hm1).
  mstep (get_next_eq qs ns cs pl f1 n1 Hn1). rewrite E2.
  mstep (get_next_eq qs ns cs pl f2 n2 Hn2).
  rewrite (IH sl fl (next m1) (next n2)); [done | | | done | done].
  - simpl in Hf. lia.
  - simpl in Hl. apply Nat.succ_lt_mono. exact Hl.
Qed.

(** X12: The splitting loop of [merge_sort], started as [merge_sort] starts it
    (slow on the first element, fast on the second), stops with slow on
    the element at index [(n - 1) / 2] of a list of [n] elements, without
    a store and without following a NULL pointer: the first half gets the
    extra element of an odd length. *)
Theorem split_loop_middle m a n ls (fuel : nat) :
  chain (nodes m) (Some a) (a :: ls) → nodes m !! a = Some n →
  (length ls < fuel)%nat →
  ∃ s, split_loop fuel (Some a) (next n) m = Some (Some s, m) ∧
       (a :: ls) !! Nat.div2 (length ls) = Some s ∧
       (length (take (S (Nat.div2 (length ls))) (a :: ls)) =
          Nat.div2 (S (length (a :: ls))))%nat.
Proof.
  intros C Hn Hf. destruct m as [qs ns cs pl]. cbn [nodes] in *.
  pose proof C as C'. apply lseg_cons in C' as [_ (n' & Hn' & C')].
  rewrite Hn in Hn'. injection Hn' as <-.
  assert (Nat.div2 (length ls) ≤ length ls)%nat as Hd.
  { apply Nat.div2_decr. lia. }
  rewrite (split_loop_index qs ns cs pl fuel (a :: ls) ls (Some a) (next n));
    [| exact Hf | simpl; lia | exact C | exact C'].
  destruct ((a :: ls) !! Nat.div2 (length ls)) as [s|] eqn:E.
  - exists s. split; [done|]. split; [done|].
    rewrite length_take. cbn [length].
    cbn [Nat.div2]. lia.
  - apply lookup_ge_None in E. simpl in E. lia.
Qed.

Lemma split_loop_middle_witness :
  let m := Mem ∅
               (<[1%positive := Ele (Some 1%positive) (Some 2%positive)]>
                  (<[2%positive := Ele (Some 2%positive) (Some 3%positive)]>
                     (<[3%positive := Ele (Some 3%positive) None]> ∅)))
               (<[1%positive := cbuf "c"]>
                  (<[2%positive := cbuf "b"]>
                     (<[3%positive := cbuf "a"]> ∅))) [] in
  ∃ s, split_loop 3 (Some 1%positive) (Some 2%positive) m = Some (Some s, m) ∧
       [1%positive; 2%positive; 3%positive] !! Nat.div2 2 = Some s ∧
       (length (take (S (Nat.div2 2)) [1%positive; 2%positive; 3%positive]) =
          Nat.div2 4)%nat.
Proof.
  intros m.
  apply (split_loop_middle m 1%positive (Ele (Some 1%positive) (Some 2%positive))
           [2%positive; 3%positive] 3).
  - apply (bool_decide_unpack _). vm_compute. exact I.
  - reflexivity.
  - simpl. lia.
Defined.

(** X13: [merge_sort] sorts any NULL-terminated list of elements, not only the
    whole list of a queue.  It only sets [next] fields of the elements of
    that list: no header is written (so the tail reference of a queue is
    left to the caller), and a list of at most one element is returned
    as it is. *)
Theorem merge_sort_sorts_list m p ls (fuel : nat) :
  chain (nodes m) p ls →
  Forall (λ a, is_Some (text_of m a)) ls →
  (length ls + 2 ≤ fuel)%nat →
  ∃ m' r ls',
    merge_sort fuel p m = Some (r, m') ∧
    chain (nodes m') r ls' ∧ ls' ≡ₚ ls ∧ Sorted (payload_le m') ls' ∧
    (∀ a, a ∉ ls → nodes m' !! a = nodes m !! a) ∧
    (∀ a, text_of m' a = text_of m a) ∧
    queues m' = queues m ∧ chars m' = chars m ∧ plan m' = plan m ∧
    ((length ls ≤ 1)%nat → m' = m ∧ r = p).
Proof.
  intros C F Hf. destruct m as [qs ns cs pl]. cbn [nodes] in C.
  set (m := Mem qs ns cs pl) in *.
  set (k := λ x, default [] (text_of m x)).
  destruct (merge_sort_spec qs cs pl k fuel ns ls p Hf C)
    as (ns' & r & ls' & Hm & Cr & R & P & So & _ & E).
  { intros x Hx. rewrite Forall_forall in F.
    destruct (F x Hx) as [tx Hx']. unfold k. fold m. now rewrite Hx'. }
  assert (∀ a, text_of (Mem qs ns' cs pl) a = text_of m a) as T.
  { intros a. apply (text_of_relinked ls). exact R. }
  exists (Mem qs ns' cs pl), r, ls'.
  split; [exact Hm|]. split; [exact Cr|]. split; [exact P|]. split.
  { apply (sorted_ele_payload m); [exact T | | exact So].
    rewrite Forall_forall in *. intros x Hx. apply F. now rewrite P in Hx. }
  split; [intros a Ha; now apply R|]. split; [exact T|].
  split; [done|]. split; [done|]. split; [done|].
  intros Hl. destruct (E Hl) as [-> ->]. done.
Qed.

Lemma merge_sort_sorts_list_witness :
  let m := Mem ∅
               (<[1%positive := Ele (Some 1%positive) (Some 2%positive)]>
                  (<[2%positive := Ele (Some 2%positive) (Some 3%positive)]>
                     (<[3%positive := Ele (Some 3%positive) None]>
                        (<[4%positive := Ele (Some 4%positive) (Some 1%positive)]> ∅))))
               (<[1%positive := cbuf "c"]>
                  (<[2%positive := cbuf "b"]>
                     (<[3%positive := cbuf "a"]>
                        (<[4%positive := cbuf "z"]> ∅)))) [] in
  let ls := [1%positive; 2%positive; 3%positive] in
  ∃ m' r ls',
    merge_sort 5 (Some 1%positive) m = Some (r, m') ∧
    chain (nodes m') r ls' ∧ ls' ≡ₚ ls ∧ Sorted (payload_le m') ls' ∧
    (∀ a, a ∉ ls → nodes m' !! a = nodes m !! a) ∧
    (∀ a, text_of m' a = text_of m a) ∧
    queues m' = queues m ∧ chars m' = chars m ∧ plan m' = plan m ∧
    ((length ls ≤ 1)%nat → m' = m ∧ r = Some 1%positive).
Proof.
  intros m ls.
  apply (merge_sort_sorts_list m (Some 1%positive) ls 5).
  - apply (bool_decide_unpack _). vm_compute. exact I.
  - apply (bool_decide_unpack _). vm_compute. exact I.
  - simpl. lia.
Defined.

(** ** The comparison *)

(** X14: [list_cmp] is a strict order on the payloads, compared byte by byte
    as unsigned char: it is false on equal payloads, never true both ways,
    false both ways only on equal payloads, and transitive.  It reads the
    two payloads and writes nothing. *)
Theorem list_cmp_strict_order m a b c ta tb tc :
  text_of m a = Some ta → text_of m b = Some tb → text_of m c = Some tc →
  ∃ ab ba bc ac,
    list_cmp (Some a) (Some b) m = Some (ab, m) ∧
    list_cmp (Some b) (Some a) m = Some (ba, m) ∧
    list_cmp (Some b) (Some c) m = Some (bc, m) ∧
    list_cmp (Some a) (Some c) m = Some (ac, m) ∧
    ab = text_lt ta tb ∧
    (ta = tb → ab = false) ∧
    (ab = true → ba = false) ∧
    (ab = false → ba = false → ta = tb) ∧
    (ab = true → bc = true → ac = true).
Proof.
  destruct m as [qs ns cs pl]. intros Ha Hb Hc.
  exists (text_lt ta tb), (text_lt tb ta), (text_lt tb tc), (text_lt ta tc).
  rewrite (list_cmp_eq qs ns cs pl a b ta tb Ha Hb).
  rewrite (list_cmp_eq qs ns cs pl b a tb ta Hb Ha).
  rewrite (list_cmp_eq qs ns cs pl b c tb tc Hb Hc).
  rewrite (list_cmp_eq qs ns cs pl a c ta tc Ha Hc).
  split; [done|]. split; [done|]. split; [done|]. split; [done|].
  split; [done|]. split; [|split; [|split]].
  - intros ->. apply text_lt_irrefl.
  - intros L. destruct (text_lt tb ta) eqn:L'; [|reflexivity].
    rewrite <- (text_lt_irrefl ta). symmetry. eapply text_lt_trans; eauto.
  - apply text_lt_total.
  - apply text_lt_trans.
Qed.

Lemma list_cmp_strict_order_witness :
  let m := Mem ∅
               (<[1%positive := Ele (Some 1%positive) None]>
                  (<[2%positive := Ele (Some 2%positive) None]>
                     (<[3%positive := Ele (Some 3%positive) None]> ∅)))
               (<[1%positive := cbuf "ab"]>
                  (<[2%positive := cbuf "abc"]>
                     (<[3%positive := cbuf "b"]> ∅))) [] in
  ∃ ab ba bc ac,
    list_cmp (Some 1%positive) (Some 2%positive) m = Some (ab, m) ∧
    list_cmp (Some 2%positive) (Some 1%positive) m = Some (ba, m) ∧
    list_cmp (Some 2%positive) (Some 3%positive) m = Some (bc, m) ∧
    list_cmp (Some 1%positive) (Some 3%positive) m = Some (ac, m) ∧
    ab = text_lt (txt "ab") (txt "abc") ∧
    (txt "ab" = txt "abc" → ab = false) ∧
    (ab = true → ba = false) ∧
    (ab = false → ba = false → txt "ab" = txt "abc") ∧
    (ab = true → bc = true → ac = true).
Proof.
  intros m.
  apply (list_cmp_strict_order m 1%positive 2%positive 3%positive
           (txt "ab") (txt "abc") (txt "b")); reflexivity.
Defined.

(** ** Insertion at the tail, by way of the head *)

Lemma relinked_dom L (ns ns' : gmap loc list_ele_t) :
  relinked L ns ns' → dom ns' = dom ns.
Proof.
  intros [V _]. apply set_eq. intros x. rewrite !elem_of_dom.
  specialize (V x). destruct (ns' !! x), (ns !! x); cbn in V;
    try discriminate; split; intros [? ?]; try discriminate; eauto.
Qed.

(** Two memories that hold the same list from the same pointer, with the
    same payload references, and that agree outside the list, are the
    same. *)
Lemma nodes_determined (ns1 ns2 : gmap loc list_ele_t) p ls :
  chain ns1 p ls → chain ns2 p ls →
  (∀ x, value <$> ns1 !! x = value <$> ns2 !! x) →
  (∀ x, x ∉ ls → ns1 !! x = ns2 !! x) →
  ns1 = ns2.
Proof.
  intros C1 C2 V O. apply map_eq. intros x.
  destruct (decide (x ∈ ls)) as [Hx|Hx]; [|now apply O].
  pose proof (chain_same_links ns2 ns1 ls p C2 C1 x Hx) as En.
  specialize (V x).
  destruct (ns1 !! x) as [[v1 n1]|], (ns2 !! x) as [[v2 n2]|];
    cbn in *; congruence.
Qed.

(** A new last element behind the last element [l] of a list. *)
Lemma chain_append (ns : gmap loc list_ele_t) p l0 l nl a e :
  chain ns p (l0 ++ [l]) → ns !! l = Some nl → ns !! a = None →
  next e = None →
  chain (<[l := Ele (value nl) (Some a)]> (<[a := e]> ns)) p ((l0 ++ [l]) ++ [a]).
Proof.
  intros C Hnl Fa He.
  assert (a ∉ l0 ++ [l]) as Ha.
  { intros Hin. destruct (chain_lookup _ _ _ _ C Hin). congruence. }
  assert (l ≠ a) as Hla by congruence.
  pose proof (chain_NoDup _ _ _ C) as ND.
  apply NoDup_app in ND as (_ & ND & _).
  apply lseg_snoc in C as (C0 & ntl & Hntl & Hnx).
  apply lseg_snoc. split.
  - apply lseg_snoc. split.
    + apply lseg_insert; [intros Hin; eapply ND; [exact Hin | left]|].
      apply lseg_insert; [|done].
      intros Hin. apply Ha. apply elem_of_app. now left.
    + eexists. split; [apply lookup_insert_eq | done].
  - exists e. split; [|done].
    rewrite lookup_insert_ne by done. apply lookup_insert_eq.
Qed.

(** X15: [q_insert_tail] does exactly what reversing, inserting at the head
    and reversing again does: the two ways end in the same memory, header
    and links included. *)
Theorem q_insert_tail_by_reversal m qa ls sa t (fuel : nat) :
  queue_rep m qa ls → text_at m (Some sa) = Some t →
  Z.of_nat (length t) + 1 <= INT_MAX →
  fails_at 0 (plan m) = false → fails_at 1 (plan m) = false →
  (length ls + 2 ≤ fuel)%nat →
  ∃ m1 m2 m3,
    q_reverse fuel (Some qa) m = Some (tt, m1) ∧
    q_insert_head (Some qa) (Some sa) m1 = Some (true, m2) ∧
    q_reverse fuel (Some qa) m2 = Some (tt, m3) ∧
    q_insert_tail (Some qa) (Some sa) m = Some (true, m3).
Proof.
  intros R HT Hlen Hok0 Hok1 Hf.
  revert R.
  destruct m as [qs ns cs pl]. unfold queue_rep at 1.
  cbn [queues nodes chars plan] in *.
  destruct (qs !! qa) as [[h tl sz]|] eqn:Hq; [|done]. cbn [head tail size].
  intros (C & Hsz & Htl & Ho & Hmx).
  unfold text_at in HT. cbn in HT.
  destruct (cs !! sa) as [b|] eqn:Hb; [|done]. cbn in HT. rename HT into Ht.
  set (a := fresh (dom ns)) in *. set (v := fresh (dom cs)) in *.
  pose proof (fresh_nodes ns) as Fa. fold a in Fa.
  destruct ls as [|x ls].
  - apply chain_nil in C as ->. simpl in Hsz. subst sz.
    exists (Mem qs ns cs pl).
    pose proof (q_insert_head_run qs ns cs pl qa sa b t Hb Ht Hlen Hok0 Hok1 _ Hq)
      as H2.
    cbn [head tail size] in H2. fold a v in H2.
    change (0 =? 0) with true in H2. change (int_of_Z (0 + 1)) with 1 in H2.
    cbv iota in H2.
    set (ns2 := <[a := Ele (Some v) None]> ns) in *.
    destruct (q_reverse_run (<[qa := Queue (Some a) (Some a) 1]> qs) ns2
                (<[v := t ++ [NUL]]> cs) (drop 2 pl) qa a [] (Some a) 1 fuel)
      as (ns3 & H3 & C3 & [V3 O3]).
    { apply lookup_insert_eq. }
    { apply lseg_cons. split; [done|]. eexists. split; [apply lookup_insert_eq | done]. }
    { done. }
    { simpl. lia. }
    rewrite insert_insert_eq in H3.
    assert (ns3 = ns2) as ->.
    { apply (nodes_determined ns3 ns2 (Some a) [a]); [exact C3 | | exact V3 | exact O3].
      apply lseg_cons. split; [done|]. eexists. split; [apply lookup_insert_eq | done]. }
    pose proof (q_insert_tail_run_empty qs ns cs pl qa sa b t Hb Ht Hlen Hok0 Hok1
                  _ Hq eq_refl) as H4.
    fold a v in H4. fold ns2 in H4.
    eexists _, _. split; [|split; [exact H2 | split; [exact H3 | exact H4]]].
    unfold q_reverse. now mstep (get_head_eq qs ns cs pl qa _ Hq).
  - pose proof C as C0. apply lseg_cons in C0 as [-> _].
    specialize (Htl ltac:(done)).
    destruct (q_reverse_run qs ns cs pl qa x ls tl sz fuel Hq C Htl ltac:(lia))
      as (ns1 & H1 & C1 & R1).
    pose proof (relinked_dom _ _ _ R1) as D1.
    assert (<[qa := Queue tl (Some x) sz]> qs !! qa = Some (Queue tl (Some x) sz))
      as Hq1 by apply lookup_insert_eq.
    pose proof (q_insert_head_run _ ns1 cs pl qa sa b t Hb Ht Hlen Hok0 Hok1 _ Hq1)
      as H2.
    cbn [head tail size] in H2. rewrite D1 in H2. fold a v in H2.
    rewrite insert_insert_eq in H2.
    assert (sz ≠ 0) as Hnz by (rewrite Hsz; simpl; lia).
    rewrite (proj2 (Z.eqb_neq sz 0) Hnz) in H2.
    set (ns2 := <[a := Ele (Some v) tl]> ns1) in *.
    assert (a ∉ x :: ls) as Ha.
    { intros Hin. destruct (chain_lookup _ _ _ _ C Hin). congruence. }
    assert (chain ns2 (Some a) (a :: reverse (x :: ls))) as C2.
    { apply lseg_cons. split; [done|]. eexists. split; [apply lookup_insert_eq|].
      cbn [next]. apply lseg_insert; [|exact C1].
      now rewrite elem_of_reverse. }
    destruct (q_reverse_run
                (<[qa := Queue (Some a) (Some x) (int_of_Z (sz + 1))]> qs) ns2
                (<[v := t ++ [NUL]]> cs) (drop 2 pl) qa a (reverse (x :: ls))
                (Some x) (int_of_Z (sz + 1)) fuel)
      as (ns3 & H3 & C3 & R3).
    { apply lookup_insert_eq. }
    { exact C2. }
    { rewrite last_cons_ne.
      - now rewrite last_reverse.
      - intros E. apply (f_equal length) in E. rewrite length_reverse in E. done. }
    { simpl. rewrite length_reverse. simpl in *. lia. }
    rewrite insert_insert_eq in H3.
    rewrite reverse_cons, reverse_involutive in C3.
    (* the memory that q_insert_tail leaves *)
    destruct (proj2 (last_is_Some (x :: ls)) ltac:(done)) as [l Hlast].
    rewrite Hlast in Htl.
    assert (l ∈ x :: ls) as Hl.
    { apply last_Some in Hlast as [l0 ->]. apply elem_of_app. right. left. }
    destruct (chain_lookup _ _ _ _ C Hl) as [nl Hnl].
    pose proof (q_insert_tail_run_last qs ns cs pl qa sa b t Hb Ht Hlen Hok0 Hok1
                  _ l nl Hq Hnz Htl Hnl) as H4.
    cbn [head tail size] in H4. fold a v in H4.
    assert (chain (<[l := Ele (value nl) (Some a)]>
                     (<[a := Ele (Some v) None]> ns))
              (Some x) ((x :: ls) ++ [a])) as Ct.
    { pose proof Hlast as Hl0. apply last_Some in Hl0 as [l0 El0].
      rewrite El0 in C |- *. now apply chain_append. }
    assert (ns3 = <[l := Ele (value nl) (Some a)]> (<[a := Ele (Some v) None]> ns))
      as E3.
    { apply (nodes_determined _ _ (Some x) ((x :: ls) ++ [a]) C3 Ct).
      - intros y. destruct R3 as [V3 _], R1 as [V1 _]. rewrite V3. unfold ns2.
        destruct (decide (y = a)) as [->|Hya].
        + rewrite lookup_insert_eq. rewrite lookup_insert_ne by congruence.
          now rewrite lookup_insert_eq.
        + rewrite lookup_insert_ne by done. rewrite V1.
          destruct (decide (y = l)) as [->|Hyl].
          * rewrite lookup_insert_eq, Hnl. done.
          * now rewrite !lookup_insert_ne by done.
      - intros y Hy. apply not_elem_of_app in Hy as [Hy1 Hy2].
        apply not_elem_of_cons in Hy2 as [Hya _].
        destruct R3 as [_ O3], R1 as [_ O1].
        rewrite O3.
        2:{ intros Hin. apply elem_of_cons in Hin as [->|Hin]; [done|].
            now rewrite elem_of_reverse in Hin. }
        unfold ns2. rewrite lookup_insert_ne by done. rewrite (O1 y Hy1).
        rewrite !lookup_insert_ne; [done | done | congruence]. }
    rewrite E3 in H3.
    eexists _, _, _. split; [exact H1|]. split; [exact H2|]. split; [exact H3|].
    exact H4.
Qed.

Lemma q_insert_tail_by_reversal_witness :
  let m := Mem (<[1%positive := Queue (Some 1%positive) (Some 2%positive) 2]> ∅)
               (<[1%positive := Ele (Some 1%positive) (Some 2%positive)]>
                  (<[2%positive := Ele (Some 2%positive) None]> ∅))
               (<[1%positive := cbuf "b"]>
                  (<[2%positive := cbuf "a"]>
                     (<[3%positive := cbuf "new"]> ∅))) [] in
  ∃ m1 m2 m3,
    q_reverse 4 (Some 1%positive) m = Some (tt, m1) ∧
    q_insert_head (Some 1%positive) (Some 3%positive) m1 = Some (true, m2) ∧
    q_reverse 4 (Some 1%positive) m2 = Some (tt, m3) ∧
    q_insert_tail (Some 1%positive) (Some 3%positive) m = Some (true, m3).
Proof.
  intros m.
  apply (q_insert_tail_by_reversal m 1%positive [1%positive; 2%positive]
           3%positive (txt "new") 4).
  - apply (bool_decide_unpack _). vm_compute. exact I.
  - reflexivity.
  - vm_compute. discriminate.
  - reflexivity.
  - reflexivity.
  - simpl. lia.
Defined.
